(** * Retro image converter

    A shallow embedding of [retro_image_converter.py]: the LCD sub-pixel
    renderer [apply_lcd_pixel_effect], the radial warp
    [apply_crt_warp_effect], the channel-shift filter
    [apply_refined_glitch_effect] and the corner mask [round_corners].

    Conventions of the embedding.
    - Python [int] is [Z]; [//] and [%] are [Z.div] and [Z.modulo] (both
      floor towards minus infinity, as in Python).
    - Python [float] and NumPy [float64] are IEEE-754 binary64 numbers,
      modelled bit for bit by the Standard Library's [SpecFloat] at
      precision 53 and maximal exponent 1024 (round to nearest, ties to
      even).
    - A raised exception is [None] in the [option] monad.
    - A Pillow RGB image is its size together with a total pixel function;
      only the coordinates inside the size are ever observed.  The filters
      read three channels per pixel, so they are modelled on RGB images.
    - Pillow's and NumPy's routines are modelled by what they compute
      ([Image.new], [getpixel], pixel access, [ImageDraw.rectangle],
      [np.array], [np.roll], [astype], [np.stack], [Image.fromarray]);
      the box filter of [resize], [rounded_rectangle] and [paste] are
      parameters.
    - A NumPy two-dimensional array is its shape together with its rows. *)

From Stdlib Require Import ZArith List Bool Lia Ascii String QArith Qround.
From Stdlib Require Import Floats.SpecFloat.
Import ListNotations.
Open Scope Z_scope.

(** ** The error monad *)

Definition bind {A B : Type} (m : option A) (k : A -> option B) : option B :=
  match m with
  | Some a => k a
  | None => None
  end.

Notation "x <- m ;; k" := (bind m (fun x => k))
  (at level 61, m at next level, right associativity).

(** [for a in l: s = f(s, a)], stopping at the first exception. *)
Fixpoint foldM {A S : Type} (f : S -> A -> option S) (l : list A) (s : S)
  : option S :=
  match l with
  | [] => Some s
  | a :: l' =>
      match f s a with
      | Some s' => foldM f l' s'
      | None => None
      end
  end.

(** Python's [range(n)]. *)
Definition range (n : Z) : list Z := map Z.of_nat (seq 0 (Z.to_nat n)).

(** ** Binary64 arithmetic *)

Module Float64.

Definition float : Type := spec_float.
Definition prec : Z := 53.
Definition emax : Z := 1024.

(** Conversion of a Python [int] in a mixed [int]/[float] operation. *)
Definition of_int (z : Z) : float := binary_normalize prec emax z 0 false.

Definition add : float -> float -> float := SFadd prec emax.
Definition sub : float -> float -> float := SFsub prec emax.
Definition mul : float -> float -> float := SFmul prec emax.
Definition div : float -> float -> float := SFdiv prec emax.
Definition sqrt : float -> float := SFsqrt prec emax.

(** [x ** 2].  CPython evaluates it with C's [pow], which the platform's
    mathematical library computes to within one unit in the last place;
    the embedding takes the correctly rounded square [x * x], the value
    [pow] returns for zero, one, the powers of two and every square that
    is a binary64 number.  (Python raises [OverflowError] when a square
    overflows, beyond 1e154; the offsets of an image are far below.) *)
Definition pow2 (x : float) : float := mul x x.

Definition zero : float := S754_zero false.
Definition one : float := of_int 1.

(** Python's [int(x)]: truncation towards zero; [ValueError] on a NaN
    and [OverflowError] on an infinity. *)
Definition trunc (x : float) : option Z :=
  match x with
  | S754_zero _ => Some 0
  | S754_finite s m e =>
      Some (cond_Zopp s
              (match e with
               | Z0 => Zpos m
               | Zpos p => Zpos m * 2 ^ Zpos p
               | Zneg p => Zpos m / 2 ^ Zpos p
               end))
  | S754_infinity _ | S754_nan => None
  end.

(** The conversion behind [astype(np.uint8)]: C's truncating cast.  It is
    defined by C for values in the open interval (-1, 256); outside of
    it NumPy's result is platform dependent, and the wrap-around of the
    x86 build is written out here. *)
Definition to_uint8 (x : float) : Z :=
  match trunc x with
  | Some z => z mod 256
  | None => 0
  end.

(** The exact rational value of a finite number. *)
Definition to_Q (x : float) : Q :=
  match x with
  | S754_finite s m e =>
      match e with
      | Z0 => inject_Z (cond_Zopp s (Zpos m))
      | Zpos p => inject_Z (cond_Zopp s (Zpos m * 2 ^ Zpos p))
      | Zneg p => Qmake (cond_Zopp s (Zpos m)) (2 ^ p)%positive
      end
  | _ => 0%Q
  end.

(** The quotient [n / d] of two small integers, as a literal such as
    [0.75] denotes it. *)
Definition ratio (n d : Z) : float := div (of_int n) (of_int d).

End Float64.

Import Float64.

(** ** Pillow images *)

Definition pixel : Type := (Z * Z * Z)%type.

Definition red (p : pixel) : Z := fst (fst p).
Definition green (p : pixel) : Z := snd (fst p).
Definition blue (p : pixel) : Z := snd p.

Definition black : pixel := (0, 0, 0).

Record image : Type := mkImage {
  width : Z;
  height : Z;
  pix : Z -> Z -> pixel
}.

(** [Image.new("RGB", (w, h), "black")] and [Image.new("RGB", (w, h))]. *)
Definition Image_new (w h : Z) : image := mkImage w h (fun _ _ => black).

Definition inside (w h x y : Z) : bool :=
  (0 <=? x) && (x <? w) && (0 <=? y) && (y <? h).

(** [image.getpixel((x, y))] and [image.load()[x, y]]: a negative index
    counts from the far edge, and a coordinate outside the image raises
    [IndexError]. *)
Definition getpixel (img : image) (x y : Z) : option pixel :=
  let x' := if x <? 0 then width img + x else x in
  let y' := if y <? 0 then height img + y else y in
  if inside (width img) (height img) x' y' then Some (pix img x' y') else None.

Definition clip8 (v : Z) : Z := Z.max 0 (Z.min v 255).

(** [image.load()[x, y] = (r, g, b)]: each channel is clipped to a byte. *)
Definition putpixel (img : image) (x y : Z) (p : pixel) : option image :=
  let x' := if x <? 0 then width img + x else x in
  let y' := if y <? 0 then height img + y else y in
  if inside (width img) (height img) x' y' then
    Some (mkImage (width img) (height img)
            (fun u v =>
               if (u =? x') && (v =? y')
               then (clip8 (red p), clip8 (green p), clip8 (blue p))
               else pix img u v))
  else None.

(** [ImageDraw.Draw(img).rectangle([x0, y0, x1, y1], fill=color)]: both
    corners belong to the filled box, and each channel of the fill colour
    is clipped to a byte. *)
Definition rectangle (img : image) (x0 y0 x1 y1 : Z) (fill : pixel) : image :=
  mkImage (width img) (height img)
    (fun x y =>
       if (x0 <=? x) && (x <=? x1) && (y0 <=? y) && (y <=? y1)
       then (clip8 (red fill), clip8 (green fill), clip8 (blue fill))
       else pix img x y).

(** Two images are the same picture when they agree on their size and on
    every pixel inside it. *)
Definition same_image (a b : image) : Prop :=
  width a = width b /\ height a = height b /\
  forall x y, 0 <= x < width a -> 0 <= y < height a -> pix a x y = pix b x y.

(** Every channel of every pixel is a byte. *)
Definition channel_ok (c : Z) : Prop := 0 <= c <= 255.
Definition pixel_ok (p : pixel) : Prop :=
  channel_ok (red p) /\ channel_ok (green p) /\ channel_ok (blue p).
Definition image_ok (img : image) : Prop :=
  forall x y, 0 <= x < width img -> 0 <= y < height img -> pixel_ok (pix img x y).

(** ** The LCD sub-pixel renderer *)

Section SubpixelRenderer.

(** The pixel contents of [image.resize((w, h), Image.Resampling.BOX)]:
    Pillow's box filter, a library routine that is not part of the
    program.  [resample_box img w h x y] is the pixel at [(x, y)] of the
    image [img] resampled to [w] by [h]. *)
Variable resample_box : image -> Z -> Z -> Z -> Z -> pixel.

(** [image.resize((w, h), BOX)]: when the target is the image's own size
    Pillow returns a copy, also of an empty image; otherwise it raises
    [ValueError] unless both target sides are positive. *)
Definition resize (img : image) (w h : Z) : option image :=
  if (w =? width img) && (h =? height img) then
    Some (mkImage w h (resample_box img w h))
  else if (w <? 1) || (h <? 1) then None
  else Some (mkImage w h (resample_box img w h)).

(** [min(int(c * brightness_boost), 255)] *)
Definition boost_channel (c : Z) (brightness_boost : float) : option Z :=
  v <- trunc (mul (of_int c) brightness_boost) ;;
  Some (Z.min v 255).

(** The body of the two loops, for the cell [(x, y)] of the downsampled
    image. *)
Definition lcd_cell (small : image) (pixel_size : Z)
    (brightness_boost : float) (orientation : string)
    (lcd_image : image) (y x : Z) : option image :=
  p <- getpixel small x y ;;
  r <- boost_channel (red p) brightness_boost ;;
  g <- boost_channel (green p) brightness_boost ;;
  b <- boost_channel (blue p) brightness_boost ;;
  let base_x := x * pixel_size in
  let base_y := y * pixel_size in
  let subpixel_size := pixel_size / 3 in
  if String.eqb orientation "vertical" then
    let d1 := rectangle lcd_image base_x base_y
                (base_x + subpixel_size) (base_y + pixel_size) (r, 0, 0) in
    let d2 := rectangle d1 (base_x + subpixel_size) base_y
                (base_x + 2 * subpixel_size) (base_y + pixel_size) (0, g, 0) in
    Some (rectangle d2 (base_x + 2 * subpixel_size) base_y
            (base_x + pixel_size) (base_y + pixel_size) (0, 0, b))
  else if String.eqb orientation "horizontal" then
    let d1 := rectangle lcd_image base_x base_y
                (base_x + pixel_size) (base_y + subpixel_size) (r, 0, 0) in
    let d2 := rectangle d1 base_x (base_y + subpixel_size)
                (base_x + pixel_size) (base_y + 2 * subpixel_size) (0, g, 0) in
    Some (rectangle d2 base_x (base_y + 2 * subpixel_size)
            (base_x + pixel_size) (base_y + pixel_size) (0, 0, b))
  else Some lcd_image.

Definition lcd_row (small : image) (pixel_size : Z)
    (brightness_boost : float) (orientation : string)
    (lcd_image : image) (y : Z) : option image :=
  foldM (fun canvas x =>
           lcd_cell small pixel_size brightness_boost orientation canvas y x)
    (range (width small)) lcd_image.

Definition apply_lcd_pixel_effect (img : image) (pixel_size : Z)
    (brightness_boost : float) (orientation : string) : option image :=
  if pixel_size =? 0 then None
  else
    small <- resize img (width img / pixel_size) (height img / pixel_size) ;;
    let lcd_image :=
      Image_new (width small * pixel_size) (height small * pixel_size) in
    foldM (lcd_row small pixel_size brightness_boost orientation)
      (range (height small)) lcd_image.

(** The stripe of a block that an offset inside the block belongs to:
    0 for red, 1 for green, 2 for blue.  The third stripe takes the
    remainder of the division by three. *)
Definition stripe (pixel_size off : Z) : Z :=
  let subpixel_size := pixel_size / 3 in
  if off <? subpixel_size then 0
  else if off <? 2 * subpixel_size then 1
  else 2.

(** The pixel a stripe shows for a boosted source pixel. *)
Definition stripe_pixel (k : Z) (boosted : pixel) : pixel :=
  if k =? 0 then (red boosted, 0, 0)
  else if k =? 1 then (0, green boosted, 0)
  else (0, 0, blue boosted).

(** The offset that selects the stripe: horizontal position for vertical
    stripes, vertical position for horizontal ones. *)
Definition stripe_offset (orientation : string) (pixel_size x y : Z) : Z :=
  if String.eqb orientation "vertical" then x mod pixel_size
  else y mod pixel_size.

End SubpixelRenderer.

(** The specification's wording of the stripe value:
    [min(255, round(source_channel * brightness_boost))], with the product
    taken exactly and rounded to the nearest integer. *)
Definition round_nearest (q : Q) : Z := Qfloor (q + (1 # 2))%Q.

Definition spec_stripe_value (source_channel : Z) (brightness_boost : float) : Z :=
  Z.min 255 (round_nearest (inject_Z source_channel * to_Q brightness_boost)%Q).

(** A stand-in for the box filter in the examples: it samples the top left
    pixel of each source block.  The examples use solid images, on which
    it returns what every box filter returns. *)
Definition corner_box (img : image) (w h x y : Z) : pixel :=
  pix img (x * (width img / w)) (y * (height img / h)).

Definition solid (w h : Z) (p : pixel) : image := mkImage w h (fun _ _ => p).


(** ** The radial warp *)

Definition channel (i : Z) (p : pixel) : Z :=
  if i =? 0 then red p else if i =? 1 then green p else blue p.

(** One channel of the bilinear interpolation:
    [int((1 - a) * (1 - b) * p00 + a * (1 - b) * p10
         + (1 - a) * b * p01 + a * b * p11)]. *)
Definition bilinear (a b : float) (p00 p10 p01 p11 : Z) : option Z :=
  trunc
    (add
       (add
          (add (mul (mul (sub (of_int 1) a) (sub (of_int 1) b)) (of_int p00))
               (mul (mul a (sub (of_int 1) b)) (of_int p10)))
          (mul (mul (sub (of_int 1) a) b) (of_int p01)))
       (mul (mul a b) (of_int p11))).

(** [center_x = width / 2] and [center_y = height / 2]. *)
Definition center (n : Z) : float := div (of_int n) (of_int 2).

(** [max_distance = math.sqrt(center_x**2 + center_y**2)] *)
Definition max_distance (w h : Z) : float :=
  sqrt (add (pow2 (center w)) (pow2 (center h))).

(** [distortion = 1 + strength * (distance / max_distance) ** 2] for the
    destination pixel [(x, y)] of a [w] by [h] image. *)
Definition distortion (w h : Z) (strength : float) (x y : Z) : float :=
  let dx := sub (of_int x) (center w) in
  let dy := sub (of_int y) (center h) in
  let distance := sqrt (add (pow2 dx) (pow2 dy)) in
  add (of_int 1) (mul strength (pow2 (div distance (max_distance w h)))).

(** The source coordinate along one axis: [center + d / distortion].
    Python raises [ZeroDivisionError] on a zero divisor; here the quotient
    is an infinity or a NaN, and the [int(...)] that follows raises. *)
Definition source_coord (n : Z) (dist : float) (x : Z) : float :=
  add (center n) (div (sub (of_int x) (center n)) dist).

(** The second interpolation neighbour along an axis of length [n]:
    [min(v + 1, n - 1)]. *)
Definition clamp_next (v n : Z) : Z := Z.min (v + 1) (n - 1).

(** The body of the two loops, for the destination pixel [(x, y)]. *)
Definition warp_pixel (original : image) (strength : float)
    (warped : image) (y x : Z) : option image :=
  let w := width original in
  let h := height original in
  let dist := distortion w h strength x y in
  let src_x := source_coord w dist x in
  let src_y := source_coord h dist y in
  x0 <- trunc src_x ;;
  y0 <- trunc src_y ;;
  let x1 := clamp_next x0 w in
  let y1 := clamp_next y0 h in
  let a := sub src_x (of_int x0) in
  let b := sub src_y (of_int y0) in
  if inside w h x0 y0 then
    p00 <- getpixel original x0 y0 ;;
    p10 <- getpixel original x1 y0 ;;
    p01 <- getpixel original x0 y1 ;;
    p11 <- getpixel original x1 y1 ;;
    r <- bilinear a b (red p00) (red p10) (red p01) (red p11) ;;
    g <- bilinear a b (green p00) (green p10) (green p01) (green p11) ;;
    b' <- bilinear a b (blue p00) (blue p10) (blue p01) (blue p11) ;;
    putpixel warped x y (r, g, b')
  else Some warped.

Definition warp_row (original : image) (strength : float)
    (warped : image) (y : Z) : option image :=
  foldM (fun canvas x => warp_pixel original strength canvas y x)
    (range (width original)) warped.

Definition apply_crt_warp_effect (img : image) (strength : float)
  : option image :=
  foldM (warp_row img strength) (range (height img))
    (Image_new (width img) (height img)).

(** ** The channel-shift filter *)

(** A two-dimensional NumPy array: [shape0] rows of [shape1] values. *)
Record ndarray : Type := mkArray {
  shape0 : Z;
  shape1 : Z;
  rows : list (list Z)
}.

(** [np.array(image)[:, :, c]] *)
Definition plane (img : image) (c : Z) : ndarray :=
  mkArray (height img) (width img)
    (map (fun y => map (fun x => channel c (pix img x y)) (range (width img)))
       (range (height img))).

(** [np.roll] along one axis of length [length l]: the offset is
    [shift % (n or 1)], the result is [a[n - offset:]] followed by
    [a[:n - offset]]. *)
Definition roll1 {A : Type} (shift : Z) (l : list A) : list A :=
  let n := Z.of_nat (List.length l) in
  let offset := shift mod (if n =? 0 then 1 else n) in
  (skipn (Z.to_nat (n - offset)) l ++ firstn (Z.to_nat (n - offset)) l)%list.

(** [np.roll(a, shift, axis)] for [axis] 0 (rows) and 1 (columns). *)
Definition roll (a : ndarray) (shift : Z) (axis : Z) : ndarray :=
  mkArray (shape0 a) (shape1 a)
    (if axis =? 0 then roll1 shift (rows a)
     else map (roll1 shift) (rows a)).

(** One element of
    [(intensity * shifted + (1 - intensity) * original).astype(np.uint8)]. *)
Definition blend (intensity : float) (shifted original : Z) : Z :=
  to_uint8
    (add (mul intensity (of_int shifted))
         (mul (sub (of_int 1) intensity) (of_int original))).

Fixpoint zip_with {A B C : Type} (f : A -> B -> C) (l : list A) (l' : list B)
  : list C :=
  match l, l' with
  | a :: t, b :: t' => f a b :: zip_with f t t'
  | _, _ => []
  end.

Definition blend_planes (intensity : float) (shifted original : ndarray)
  : ndarray :=
  mkArray (shape0 original) (shape1 original)
    (zip_with (zip_with (blend intensity)) (rows shifted) (rows original)).

Definition at2 (a : ndarray) (y x : Z) : Z :=
  nth (Z.to_nat x) (nth (Z.to_nat y) (rows a) []) 0.

(** [Image.fromarray(np.stack([r, g, b], axis=2))] *)
Definition fromarray (r g b : ndarray) : image :=
  mkImage (shape1 r) (shape0 r) (fun x y => (at2 r y x, at2 g y x, at2 b y x)).

Definition red_channel (img : image) : ndarray := plane img 0.
Definition green_channel (img : image) : ndarray := plane img 1.
Definition blue_channel (img : image) : ndarray := plane img 2.

Definition shifted_red (img : image) (shift_amount : Z) : ndarray :=
  roll (red_channel img) shift_amount 1.

(** [np.roll(green_channel, -shift_amount // 2, axis=0)]; unary minus binds
    tighter than [//]. *)
Definition shifted_green (img : image) (shift_amount : Z) : ndarray :=
  roll (green_channel img) ((- shift_amount) / 2) 0.

Definition apply_refined_glitch_effect (img : image) (shift_amount : Z)
    (intensity : float) : image :=
  let blended_red :=
    blend_planes intensity (shifted_red img shift_amount) (red_channel img) in
  let blended_green :=
    blend_planes intensity (shifted_green img shift_amount) (green_channel img) in
  fromarray blended_red blended_green (blue_channel img).

(** The specification's wording of the green shift: [-shift_amount/2] rows
    with the division truncating towards zero. *)
Definition spec_shifted_green (img : image) (shift_amount : Z) : ndarray :=
  roll (green_channel img) (- (Z.quot shift_amount 2)) 0.

(** The specification's wording of the blend:
    [intensity*shifted + (1-intensity)*original], rounded to the nearest
    integer and saturated to the byte range. *)
Definition spec_blend (intensity : float) (shifted original : Z) : Z :=
  clip8 (round_nearest
           (to_Q intensity * inject_Z shifted
            + (1 - to_Q intensity) * inject_Z original)%Q).

(** The intensities at which blending a byte with itself gives the byte
    back: the binary64 sum [intensity * v + (1 - intensity) * v] then
    truncates to [v] for every [v] from 0 to 255. *)
Definition blend_fixes (intensity : float) : bool :=
  forallb (fun v => blend intensity v v =? v) (range 256).

(** ** The corner mask *)

Section CornerMask.

(** [ImageDraw.Draw(mask).rounded_rectangle((0, 0, w, h), radius, fill=255)]
    on a black single-channel image of size [w] by [h]: Pillow's drawing
    routine, not part of the program. *)
Variable rounded_rectangle : Z -> Z -> Z -> Z -> Z -> Z.

(** One pixel of [background.paste(source, mask=mask)]: Pillow's
    compositing routine, not part of the program. *)
Variable paste_pixel : pixel -> pixel -> Z -> pixel.

Definition round_corners (img : image) (radius : Z) : image :=
  let mask := rounded_rectangle (width img) (height img) radius in
  let rounded_image := Image_new (width img) (height img) in
  mkImage (width rounded_image) (height rounded_image)
    (fun x y => paste_pixel (pix rounded_image x y) (pix img x y) (mask x y)).

End CornerMask.

(** An array whose rows agree with its shape. *)
Definition shaped (a : ndarray) : Prop :=
  List.length (rows a) = Z.to_nat (shape0 a) /\
  forall r, In r (rows a) -> List.length r = Z.to_nat (shape1 a).

(** Every boosted channel of the downsampled image is a finite number:
    no [int(...)] of the renderer raises. *)
Definition boosts_defined (small : image) (boost : float) : Prop :=
  forall x y, 0 <= x < width small -> 0 <= y < height small ->
  forall i, boost_channel (channel i (pix small x y)) boost <> None.

(** ** Classes of binary64 numbers

    The number of binary digits of a mantissa. *)
Definition digits (p : positive) : Z := Zpos (digits2_pos p).

(** Classes of numbers: zero or a normal number (53-digit mantissa) whose
    exponent lies in a range. *)
Definition normal (lo hi : Z) (f : float) : Prop :=
  match f with
  | S754_finite _ m e => digits m = 53 /\ lo <= e <= hi
  | _ => False
  end.

Definition pos_normal (lo hi : Z) (f : float) : Prop :=
  match f with
  | S754_finite false m e => digits m = 53 /\ lo <= e <= hi
  | _ => False
  end.

Definition nonneg (lo hi : Z) (f : float) : Prop :=
  match f with
  | S754_zero _ => True
  | S754_finite false m e => digits m = 53 /\ lo <= e <= hi
  | _ => False
  end.

Definition zero_or_normal (lo hi : Z) (f : float) : Prop :=
  match f with
  | S754_zero _ => True
  | S754_finite _ m e => digits m = 53 /\ lo <= e <= hi
  | _ => False
  end.

(** The normal number of value [u * 2^e], for a [u] of at most 53 digits. *)
Definition mant (u : positive) : positive :=
  Z.to_pos (Zpos u * 2 ^ (53 - digits u)).

Definition fl (s : bool) (u : positive) (e : Z) : float :=
  S754_finite s (mant u) (e - (53 - digits u)).

(** ** Images used by the examples *)

(** A gradient whose channels all differ from pixel to pixel. *)
Definition gradient (w h : Z) : image :=
  mkImage w h (fun x y => ((10 * y + x) mod 256, (20 * y + x) mod 256, (30 * y + x) mod 256)).

Definition pixels_of (img : image) : list (list pixel) :=
  map (fun y => map (fun x => pix img x y) (range (width img)))
    (range (height img)).

(** ** The colour enhancer *)

Section ColorEnhancer.

(** The pixels of [ImageEnhance.Color(image).enhance(factor)]: Pillow
    blends the image with its grey version, a library routine that is not
    part of the program.  The result has the size of the image. *)
Variable color_blend : image -> float -> Z -> Z -> pixel.

Definition enhance_color_contrast (img : image) (enhancement_factor : float)
  : image :=
  mkImage (width img) (height img) (color_blend img enhancement_factor).

End ColorEnhancer.

(** ** The pipeline *)

Section Pipeline.

Variable resample_box : image -> Z -> Z -> Z -> Z -> pixel.
Variable rounded_rectangle : Z -> Z -> Z -> Z -> Z -> Z.
Variable paste_pixel : pixel -> pixel -> Z -> pixel.
Variable color_blend : image -> float -> Z -> Z -> pixel.

(** [retro_image_converter] between [Image.open] and [image.save]: from
    the decoded image to the image that is written. *)
Definition retro_image_converter (input : image) (orientation : string)
    (apply_crt apply_glitch color_enhance : bool) : option image :=
  lcd <- apply_lcd_pixel_effect resample_box input 10 (ratio 3 2) orientation ;;
  warped <- (if apply_crt then apply_crt_warp_effect lcd (ratio 1 10)
             else Some lcd) ;;
  let glitched :=
    if apply_glitch then apply_refined_glitch_effect warped 5 (ratio 4 5)
    else warped in
  let enhanced :=
    if color_enhance
    then enhance_color_contrast color_blend glitched (ratio 3 2)
    else glitched in
  Some (round_corners rounded_rectangle paste_pixel enhanced 100).

End Pipeline.

(** ** The output path *)

(** [s.rfind(c)]: the index of the last [c] of [s], or -1. *)
Fixpoint rfind_from (c : Ascii.ascii) (s : list Ascii.ascii) (i last : Z) : Z :=
  match s with
  | [] => last
  | a :: t => rfind_from c t (i + 1) (if Ascii.eqb a c then i else last)
  end.

Definition rfind (c : Ascii.ascii) (s : list Ascii.ascii) : Z :=
  rfind_from c s 0 (-1).

(** The slice [s[i:j]] for [0 <= i]. *)
Definition slice (s : list Ascii.ascii) (i j : Z) : list Ascii.ascii :=
  firstn (Z.to_nat (j - i)) (skipn (Z.to_nat i) s).

(** [os.path.splitext(p)] on a POSIX system: the extension starts at the
    last dot of the last component, unless only dots precede it there. *)
Definition splitext (p : list Ascii.ascii)
  : list Ascii.ascii * list Ascii.ascii :=
  let sepIndex := rfind "/" p in
  let dotIndex := rfind "." p in
  if (sepIndex <? dotIndex)
     && existsb (fun c => negb (Ascii.eqb c "."))
          (slice p (sepIndex + 1) dotIndex)
  then (firstn (Z.to_nat dotIndex) p, skipn (Z.to_nat dotIndex) p)
  else (p, []).

(** [output_path = f"{base}_retro{ext}"] *)
Definition output_path (input_path : list Ascii.ascii) : list Ascii.ascii :=
  let '(base, ext) := splitext input_path in
  (base ++ list_ascii_of_string "_retro" ++ ext)%list.

(** ** Signs *)

(** A number that is not negative: zero, a positive number, plus infinity,
    or a NaN. *)
Definition not_negative (f : float) : Prop :=
  match f with
  | S754_zero false | S754_finite false _ _ | S754_infinity false
  | S754_nan => True
  | _ => False
  end.

(** A finite number: neither an infinity nor a NaN. *)
Definition finite (f : float) : Prop :=
  match f with
  | S754_zero _ | S754_finite _ _ _ => True
  | S754_infinity _ | S754_nan => False
  end.

(** A float that is a zero of either sign or a NaN. *)
Definition zero_or_nan (f : float) : Prop :=
  match f with
  | S754_zero _ | S754_nan => True
  | _ => False
  end.

(** * Properties *)

#[local] Arguments Z.mul : simpl never.
#[local] Arguments Z.add : simpl never.
#[local] Arguments Z.sub : simpl never.
#[local] Arguments Z.div : simpl never.
#[local] Arguments Z.modulo : simpl never.
#[local] Arguments Z.pow : simpl never.

(** ** Loops and ranges *)

Lemma bind_Some {A B : Type} (m : option A) (k : A -> option B) (b : B) :
  bind m k = Some b -> exists a, m = Some a /\ k a = Some b.
Proof.
  destruct m as [a|]; simpl; intros H; [exists a; auto | discriminate].
Qed.

Lemma foldM_app {A S : Type} (f : S -> A -> option S) (l1 l2 : list A) (s : S) :
  foldM f (l1 ++ l2) s = bind (foldM f l1 s) (foldM f l2).
Proof.
  revert s; induction l1 as [|a l1 IH]; simpl; intros s; [reflexivity|].
  destruct (f s a); [apply IH | reflexivity].
Qed.

(** A property kept by every iteration that returns is kept by the loop. *)
Lemma foldM_preserves {A S : Type} (f : S -> A -> option S) (P : S -> Prop)
    (l : list A) :
  (forall s a s', In a l -> f s a = Some s' -> P s -> P s') ->
  forall s s', foldM f l s = Some s' -> P s -> P s'.
Proof.
  induction l as [|a l IH]; simpl; intros Hstep s s' Hrun Hs.
  - injection Hrun as <-; exact Hs.
  - destruct (f s a) as [s1|] eqn:E; [|discriminate].
    apply (IH (fun s0 a0 s0' Hin => Hstep s0 a0 s0' (or_intror Hin)) s1 s' Hrun).
    apply (Hstep s a s1 (or_introl eq_refl) E Hs).
Qed.

(** A loop whose iterations all return, under an invariant, returns. *)
Lemma foldM_returns {A S : Type} (f : S -> A -> option S) (P : S -> Prop)
    (l : list A) :
  (forall s a, In a l -> P s -> exists s', f s a = Some s' /\ P s') ->
  forall s, P s -> exists s', foldM f l s = Some s' /\ P s'.
Proof.
  induction l as [|a l IH]; simpl; intros Hstep s Hs.
  - exists s; auto.
  - destruct (Hstep s a (or_introl eq_refl) Hs) as [s1 [E Hs1]].
    rewrite E.
    apply IH; [|exact Hs1].
    intros s0 a0 Hin; apply Hstep; right; exact Hin.
Qed.

Lemma In_range (n k : Z) : In k (range n) <-> 0 <= k < n.
Proof.
  unfold range; rewrite in_map_iff; split.
  - intros [i [<- Hi]]; apply in_seq in Hi; lia.
  - intros Hk; exists (Z.to_nat k); split; [lia|].
    apply in_seq; lia.
Qed.

Lemma length_range (n : Z) : List.length (range n) = Z.to_nat n.
Proof. unfold range; rewrite length_map, length_seq; reflexivity. Qed.

Lemma nth_range (n : Z) (i : nat) (d : Z) :
  (i < Z.to_nat n)%nat -> nth i (range n) d = Z.of_nat i.
Proof.
  intros Hi; unfold range.
  rewrite (nth_indep _ d (Z.of_nat 0)) by (rewrite length_map, length_seq; exact Hi).
  rewrite map_nth, seq_nth by exact Hi; reflexivity.
Qed.

(** [range n] is the indices below [k], then [k], then indices above [k]. *)
Lemma range_split (n k : Z) :
  0 <= k < n ->
  exists later, range n = (range k ++ k :: later)%list /\
                forall j, In j later -> k < j < n.
Proof.
  intros Hk; unfold range.
  replace (Z.to_nat n) with (Z.to_nat k + S (Z.to_nat (n - k - 1)))%nat by lia.
  rewrite seq_app, map_app; simpl.
  exists (map Z.of_nat (seq (S (Z.to_nat k)) (Z.to_nat (n - k - 1)))); split.
  - f_equal; f_equal; lia.
  - intros j Hj; apply in_map_iff in Hj; destruct Hj as [i [<- Hi]].
    apply in_seq in Hi; lia.
Qed.

(** ** Pixel access *)

Lemma inside_true (w h x y : Z) :
  inside w h x y = true <-> (0 <= x < w /\ 0 <= y < h).
Proof.
  unfold inside; rewrite !andb_true_iff, !Z.leb_le, !Z.ltb_lt; tauto.
Qed.

Lemma getpixel_inside (img : image) (x y : Z) :
  0 <= x < width img -> 0 <= y < height img ->
  getpixel img x y = Some (pix img x y).
Proof.
  intros Hx Hy; unfold getpixel.
  destruct (Z.ltb_spec x 0); [lia|].
  destruct (Z.ltb_spec y 0); [lia|].
  destruct (inside (width img) (height img) x y) eqn:E; [reflexivity|].
  assert (inside (width img) (height img) x y = true) by (apply inside_true; auto).
  congruence.
Qed.

Lemma putpixel_inside (img : image) (x y : Z) (p : pixel) :
  0 <= x < width img -> 0 <= y < height img ->
  putpixel img x y p =
  Some (mkImage (width img) (height img)
          (fun u v =>
             if (u =? x) && (v =? y)
             then (clip8 (red p), clip8 (green p), clip8 (blue p))
             else pix img u v)).
Proof.
  intros Hx Hy; unfold putpixel.
  destruct (Z.ltb_spec x 0); [lia|].
  destruct (Z.ltb_spec y 0); [lia|].
  destruct (inside (width img) (height img) x y) eqn:E; [reflexivity|].
  assert (inside (width img) (height img) x y = true) by (apply inside_true; auto).
  congruence.
Qed.

Lemma putpixel_size (img img' : image) (x y : Z) (p : pixel) :
  putpixel img x y p = Some img' ->
  width img' = width img /\ height img' = height img.
Proof.
  unfold putpixel; destruct (inside _ _ _ _); [|discriminate].
  intros H; injection H as <-; simpl; auto.
Qed.

(** ** The LCD sub-pixel renderer *)

Ltac bind_inv H :=
  repeat match type of H with
         | bind _ _ = Some _ =>
             let a := fresh "v" in
             let E := fresh "E" in
             apply bind_Some in H; destruct H as [a [E H]]
         end.

Lemma lcd_cell_size (small : image) (ps : Z) (boost : float) (o : string)
    (c c' : image) (y x : Z) :
  lcd_cell small ps boost o c y x = Some c' ->
  width c' = width c /\ height c' = height c.
Proof.
  unfold lcd_cell; intros H; bind_inv H.
  destruct (String.eqb o "vertical"); [injection H as <-; simpl; auto|].
  destruct (String.eqb o "horizontal"); injection H as <-; simpl; auto.
Qed.

Lemma lcd_row_size (small : image) (ps : Z) (boost : float) (o : string)
    (c c' : image) (y : Z) :
  lcd_row small ps boost o c y = Some c' ->
  width c' = width c /\ height c' = height c.
Proof.
  unfold lcd_row; intros H.
  apply (foldM_preserves _ (fun s => width s = width c /\ height s = height c)
           _ (fun s a s' _ Hc Hs =>
                match lcd_cell_size _ _ _ _ _ _ _ _ Hc with
                | conj Hw Hh => conj (eq_trans Hw (proj1 Hs)) (eq_trans Hh (proj2 Hs))
                end) _ _ H); auto.
Qed.

(** A cell paints nothing to the left of or above its own block. *)
(** Case analysis on every integer comparison of the goal. *)
Ltac split_leb :=
  repeat (first
    [ match goal with
      | |- context [(?u <=? ?v)] => destruct (Z.leb_spec0 u v) as [?Hle | ?Hnle]
      end
    | match goal with
      | |- context [(?u <? ?v)] => destruct (Z.ltb_spec0 u v) as [?Hlt | ?Hnlt]
      end
    | match goal with
      | |- context [(?u =? ?v)] => destruct (Z.eqb_spec u v) as [?Heq | ?Hneq]
      end ]);
  cbn [andb orb negb].

Lemma lcd_cell_untouched (small : image) (ps : Z) (boost : float) (o : string)
    (c c' : image) (y' x' x y : Z) :
  0 < ps ->
  lcd_cell small ps boost o c y' x' = Some c' ->
  x < x' * ps \/ y < y' * ps ->
  pix c' x y = pix c x y.
Proof.
  intros Hps H Hout; unfold lcd_cell in H; bind_inv H.
  assert (Hs : 0 <= ps / 3) by (apply Z.div_pos; lia).
  destruct (String.eqb o "vertical").
  - injection H as <-; cbn [pix rectangle].
    split_leb; try reflexivity; lia.
  - destruct (String.eqb o "horizontal"); injection H as <-; [|reflexivity].
    cbn [pix rectangle]; split_leb; try reflexivity; lia.
Qed.

Lemma lcd_row_untouched (small : image) (ps : Z) (boost : float) (o : string)
    (c c' : image) (y' x y : Z) :
  0 < ps ->
  lcd_row small ps boost o c y' = Some c' ->
  y < y' * ps ->
  pix c' x y = pix c x y.
Proof.
  intros Hps H Hy; unfold lcd_row in H.
  apply (foldM_preserves _ (fun s => pix s x y = pix c x y) _
           (fun s a s' _ Hc Hs =>
              eq_trans (lcd_cell_untouched _ _ _ _ _ _ _ _ x y Hps Hc (or_intror Hy)) Hs)
           _ _ H); reflexivity.
Qed.

(** Inside its own block a cell leaves the three stripes, each channel
    clipped to a byte: the later rectangles overwrite the column (or row)
    they share with the earlier ones. *)
Lemma lcd_cell_paints (small : image) (ps : Z) (boost : float) (o : string)
    (c c' : image) (cy cx x y : Z) :
  0 < ps ->
  o = "vertical"%string \/ o = "horizontal"%string ->
  lcd_cell small ps boost o c cy cx = Some c' ->
  x / ps = cx -> y / ps = cy ->
  exists p r g b,
    getpixel small cx cy = Some p /\
    boost_channel (red p) boost = Some r /\
    boost_channel (green p) boost = Some g /\
    boost_channel (blue p) boost = Some b /\
    pix c' x y =
    stripe_pixel (stripe ps (stripe_offset o ps x y))
      (clip8 r, clip8 g, clip8 b).
Proof.
  intros Hps Ho H Hx Hy; unfold lcd_cell in H; bind_inv H.
  exists v, v0, v1, v2; repeat (split; [assumption|]).
  pose proof (Z.div_mod x ps ltac:(lia)) as Dx.
  pose proof (Z.mod_pos_bound x ps Hps) as Bx.
  pose proof (Z.div_mod y ps ltac:(lia)) as Dy.
  pose proof (Z.mod_pos_bound y ps Hps) as By.
  pose proof (Z.div_mod ps 3 ltac:(lia)) as Ds.
  pose proof (Z.mod_pos_bound ps 3 ltac:(lia)) as Bs.
  rewrite Hx in Dx; rewrite Hy in Dy.
  unfold stripe, stripe_offset, stripe_pixel.
  destruct Ho as [-> | ->]; cbn [String.eqb Ascii.eqb Bool.eqb] in *;
    injection H as <-; cbn [pix rectangle red green blue fst snd];
    set (s := ps / 3) in *; set (rx := x mod ps) in *; set (ry := y mod ps) in *;
    split_leb; try reflexivity; lia.
Qed.

Lemma lcd_unpack (resample_box : image -> Z -> Z -> Z -> Z -> pixel)
    (img : image) (ps : Z) (boost : float) (o : string) (out : image) :
  apply_lcd_pixel_effect resample_box img ps boost o = Some out ->
  let W := width img / ps in
  let H := height img / ps in
  let small := mkImage W H (resample_box img W H) in
  ps <> 0 /\ (W = width img \/ 1 <= W) /\ (H = height img \/ 1 <= H) /\
  foldM (lcd_row small ps boost o) (range H) (Image_new (W * ps) (H * ps))
  = Some out.
Proof.
  unfold apply_lcd_pixel_effect, resize; intros E.
  destruct (Z.eqb_spec ps 0) as [|Hps]; [discriminate|].
  destruct (Z.eqb_spec (width img / ps) (width img));
    destruct (Z.eqb_spec (height img / ps) (height img)); cbn [andb] in E;
    try (cbn in E; auto; fail);
    (destruct (Z.ltb_spec (width img / ps) 1); [discriminate|];
     destruct (Z.ltb_spec (height img / ps) 1); [discriminate|];
     cbn in E; auto).
Qed.

Lemma resize_fits (resample_box : image -> Z -> Z -> Z -> Z -> pixel)
    (img : image) (w h : Z) :
  1 <= w -> 1 <= h ->
  resize resample_box img w h = Some (mkImage w h (resample_box img w h)).
Proof.
  intros Hw Hh; unfold resize.
  destruct ((w =? width img) && (h =? height img)); [reflexivity|].
  destruct (Z.ltb_spec w 1); [lia|].
  destruct (Z.ltb_spec h 1); [lia | reflexivity].
Qed.

Lemma lcd_size (resample_box : image -> Z -> Z -> Z -> Z -> pixel)
    (img : image) (ps : Z) (boost : float) (o : string) (out : image) :
  apply_lcd_pixel_effect resample_box img ps boost o = Some out ->
  width out = width img / ps * ps /\ height out = height img / ps * ps.
Proof.
  intros E; apply lcd_unpack in E; destruct E as (_ & _ & _ & E).
  apply (foldM_preserves _
           (fun s => width s = width img / ps * ps /\
                     height s = height img / ps * ps) _
           (fun s a s' _ Hr Hs =>
              match lcd_row_size _ _ _ _ _ _ _ Hr with
              | conj Hw Hh => conj (eq_trans Hw (proj1 Hs)) (eq_trans Hh (proj2 Hs))
              end) _ _ E).
  split; reflexivity.
Qed.

Lemma lcd_cell_returns (small : image) (ps : Z) (boost : float) (o : string)
    (c : image) (y x : Z) :
  boosts_defined small boost ->
  0 <= x < width small -> 0 <= y < height small ->
  exists c', lcd_cell small ps boost o c y x = Some c'.
Proof.
  intros Hb Hx Hy; unfold lcd_cell.
  rewrite (getpixel_inside small x y Hx Hy); cbn [bind].
  pose proof (Hb x y Hx Hy 0) as H0.
  pose proof (Hb x y Hx Hy 1) as H1.
  pose proof (Hb x y Hx Hy 2) as H2.
  unfold channel in H0, H1, H2; simpl in H0, H1, H2.
  destruct (boost_channel (red (pix small x y)) boost); [|congruence].
  destruct (boost_channel (green (pix small x y)) boost); [|congruence].
  destruct (boost_channel (blue (pix small x y)) boost); [|congruence].
  cbn [bind].
  destruct (String.eqb o "vertical"); [eexists; reflexivity|].
  destruct (String.eqb o "horizontal"); eexists; reflexivity.
Qed.

Lemma lcd_returns (resample_box : image -> Z -> Z -> Z -> Z -> pixel)
    (img : image) (ps : Z) (boost : float) (o : string) :
  0 < ps -> ps <= width img -> ps <= height img ->
  boosts_defined
    (mkImage (width img / ps) (height img / ps)
       (resample_box img (width img / ps) (height img / ps))) boost ->
  exists out, apply_lcd_pixel_effect resample_box img ps boost o = Some out.
Proof.
  intros Hps Hw Hh Hb; unfold apply_lcd_pixel_effect.
  destruct (Z.eqb_spec ps 0); [lia|].
  assert (1 <= width img / ps) by (apply Z.div_le_lower_bound; lia).
  assert (1 <= height img / ps) by (apply Z.div_le_lower_bound; lia).
  rewrite resize_fits by assumption.
  cbn [orb bind width height].
  set (small := mkImage _ _ _) in *.
  destruct (foldM_returns (lcd_row small ps boost o) (fun _ => True)
              (range (height img / ps))) with (s := Image_new (width img / ps * ps) (height img / ps * ps))
    as [out [E _]]; [|exact I|exists out; exact E].
  intros s y Hy _; apply In_range in Hy.
  destruct (foldM_returns
              (fun canvas x => lcd_cell small ps boost o canvas y x)
              (fun _ => True) (range (width small))) with (s := s)
    as [s' [E _]]; [|exact I|exists s'; split; [exact E|exact I]].
  intros s0 x Hx _; apply In_range in Hx.
  destruct (lcd_cell_returns small ps boost o s0 y x Hb Hx Hy) as [c' Ec].
  exists c'; auto.
Qed.

Lemma div_block_bounds (ps n x : Z) :
  0 < ps -> 0 <= x < n * ps -> 0 <= x / ps < n.
Proof.
  intros Hps Hx; split.
  - apply Z.div_pos; lia.
  - apply Z.div_lt_upper_bound; lia.
Qed.

Lemma below_next_block (ps x j : Z) :
  0 < ps -> x / ps < j -> x < j * ps.
Proof.
  intros Hps Hj.
  pose proof (Z.div_mod x ps ltac:(lia)) as D.
  pose proof (Z.mod_pos_bound x ps Hps) as B.
  nia.
Qed.

(** What the two loops leave at a pixel is what the cell of its own block
    painted there, clipped to bytes: the cells painted later do not reach
    it. *)
Lemma lcd_pixel_from_own_cell (small : image) (ps : Z) (boost : float)
    (o : string) (canvas out : image) (x y : Z) :
  0 < ps ->
  o = "vertical"%string \/ o = "horizontal"%string ->
  foldM (lcd_row small ps boost o) (range (height small)) canvas = Some out ->
  0 <= x < width small * ps -> 0 <= y < height small * ps ->
  exists r g b,
    boost_channel (red (pix small (x / ps) (y / ps))) boost = Some r /\
    boost_channel (green (pix small (x / ps) (y / ps))) boost = Some g /\
    boost_channel (blue (pix small (x / ps) (y / ps))) boost = Some b /\
    pix out x y =
    stripe_pixel (stripe ps (stripe_offset o ps x y))
      (clip8 r, clip8 g, clip8 b).
Proof.
  intros Hps Ho E Hx Hy.
  pose proof (div_block_bounds ps _ x Hps Hx) as Bx.
  pose proof (div_block_bounds ps _ y Hps Hy) as By.
  destruct (range_split (height small) (y / ps) By) as [rows_after [Sy Ay]].
  rewrite Sy, foldM_app in E.
  apply bind_Some in E; destruct E as [c1 [_ E]]; cbn [foldM] in E.
  destruct (lcd_row small ps boost o c1 (y / ps)) as [c2|] eqn:Erow; [|discriminate].
  assert (Hout : pix out x y = pix c2 x y).
  { apply (foldM_preserves _ (fun s => pix s x y = pix c2 x y) _
             (fun s j s' Hj Hr Hs =>
                eq_trans (lcd_row_untouched _ _ _ _ _ _ j x y Hps Hr
                            (below_next_block ps y j Hps (proj1 (Ay j Hj)))) Hs)
             _ _ E); reflexivity. }
  unfold lcd_row in Erow.
  destruct (range_split (width small) (x / ps) Bx) as [cols_after [Sx Ax]].
  rewrite Sx, foldM_app in Erow.
  apply bind_Some in Erow; destruct Erow as [c3 [_ Erow]]; cbn [foldM] in Erow.
  destruct (lcd_cell small ps boost o c3 (y / ps) (x / ps)) as [c4|] eqn:Ecell;
    [|discriminate].
  assert (Hrow : pix c2 x y = pix c4 x y).
  { apply (foldM_preserves _ (fun s => pix s x y = pix c4 x y) _
             (fun s j s' Hj Hc Hs =>
                eq_trans (lcd_cell_untouched _ _ _ _ _ _ _ j x y Hps Hc
                            (or_introl (below_next_block ps x j Hps (proj1 (Ax j Hj))))) Hs)
             _ _ Erow); reflexivity. }
  destruct (lcd_cell_paints small ps boost o c3 c4 (y / ps) (x / ps) x y
              Hps Ho Ecell eq_refl eq_refl)
    as (p & r & g & b & Hp & Hr & Hg & Hb & Hpix).
  rewrite (getpixel_inside small _ _ Bx By) in Hp; injection Hp as <-.
  exists r, g, b; repeat (split; [assumption|]).
  rewrite Hout, Hrow; exact Hpix.
Qed.

Lemma lcd_cell_unknown_orientation (small : image) (ps : Z) (boost : float)
    (o : string) (c c' : image) (y x : Z) :
  o <> "vertical"%string -> o <> "horizontal"%string ->
  lcd_cell small ps boost o c y x = Some c' -> c' = c.
Proof.
  intros Hv Hh H; unfold lcd_cell in H; bind_inv H.
  apply String.eqb_neq in Hv, Hh; rewrite Hv, Hh in H.
  injection H as <-; reflexivity.
Qed.

Lemma boost_channel_Some (c : Z) (boost : float) (v : Z) :
  boost_channel c boost = Some v ->
  exists t, trunc (mul (of_int c) boost) = Some t /\ v = Z.min t 255.
Proof.
  unfold boost_channel; intros H; apply bind_Some in H.
  destruct H as [t [Ht H]]; injection H as <-; exists t; auto.
Qed.

(** Rounding keeps the sign. *)
Lemma round_aux_not_negative (M e : Z) (l : location) :
  not_negative (binary_round_aux prec emax false M e l).
Proof.
  unfold binary_round_aux.
  destruct (shr_fexp prec emax M e l) as [r1 e1].
  destruct (shr_fexp prec emax _ e1 loc_Exact) as [r2 e2].
  destruct (shr_m r2); [exact I | | exact I].
  destruct (e2 <=? emax - prec); exact I.
Qed.

Lemma of_int_not_negative (c : Z) : 0 <= c -> not_negative (of_int c).
Proof.
  intros Hc; destruct c as [|p|p]; try lia; [exact I|].
  unfold of_int, binary_normalize, binary_round.
  destruct (shl_align p 0 _) as [mz ez].
  apply round_aux_not_negative.
Qed.

Lemma mul_not_negative (a b : float) :
  not_negative a -> not_negative b -> not_negative (mul a b).
Proof.
  intros Ha Hb.
  destruct a as [[|]|[|]| |[|] ma ea]; simpl in Ha; try contradiction;
    destruct b as [[|]|[|]| |[|] mb eb]; simpl in Hb; try contradiction;
    try exact I.
  apply round_aux_not_negative.
Qed.

Lemma trunc_not_negative (f : float) (t : Z) :
  not_negative f -> trunc f = Some t -> 0 <= t.
Proof.
  intros Hf Ht.
  destruct f as [[|]|[|]| |[|] m e]; simpl in Hf; try contradiction;
    simpl in Ht; try discriminate; injection Ht as <-; try lia.
  destruct e as [|p|p]; try lia.
  apply Z.div_pos; lia.
Qed.

Lemma boost_channel_byte (c : Z) (boost : float) (r : Z) :
  0 <= c -> not_negative boost ->
  boost_channel c boost = Some r -> 0 <= r <= 255.
Proof.
  intros Hc Hb H; unfold boost_channel in H; apply bind_Some in H.
  destruct H as [t [Ht H]]; injection H as <-.
  pose proof (trunc_not_negative _ t
                (mul_not_negative _ _ (of_int_not_negative c Hc) Hb) Ht).
  lia.
Qed.

Lemma clip8_byte (c : Z) : channel_ok c -> clip8 c = c.
Proof. unfold channel_ok, clip8; lia. Qed.

(** C2 (as amended).  For a positive block size, a brightness multiplier
    that is not negative, either orientation and a box-downsampled image
    whose channels are bytes, every pixel of the renderer's output is
    zero outside the channel of its stripe, and the stripe's channel is
    [min(int(c * boost), 255)], where [c] is the channel of the pixel of
    the box-downsampled image that the block comes from and [int]
    truncates the binary64 product towards zero: the product is not
    rounded to the nearest integer. *)
Theorem lcd_stripe_pixels (resample_box : image -> Z -> Z -> Z -> Z -> pixel)
    (img : image) (ps : Z) (boost : float) (o : string) (out : image)
    (x y : Z) :
  0 < ps ->
  not_negative boost ->
  o = "vertical"%string \/ o = "horizontal"%string ->
  apply_lcd_pixel_effect resample_box img ps boost o = Some out ->
  0 <= x < width out -> 0 <= y < height out ->
  let src :=
    resample_box img (width img / ps) (height img / ps) (x / ps) (y / ps) in
  pixel_ok src ->
  exists tr tg tb,
    trunc (mul (of_int (red src)) boost) = Some tr /\
    trunc (mul (of_int (green src)) boost) = Some tg /\
    trunc (mul (of_int (blue src)) boost) = Some tb /\
    pix out x y =
    stripe_pixel (stripe ps (stripe_offset o ps x y))
      (Z.min tr 255, Z.min tg 255, Z.min tb 255).
Proof.
  intros Hps Hboost Ho E Hx Hy src (Sr & Sg & Sb).
  destruct (lcd_size _ _ _ _ _ _ E) as [Hw Hh].
  apply lcd_unpack in E; destruct E as (_ & _ & _ & E).
  rewrite Hw in Hx; rewrite Hh in Hy.
  set (small := mkImage _ _ _) in E.
  destruct (lcd_pixel_from_own_cell small ps boost o _ out x y Hps Ho E Hx Hy)
    as (r & g & b & Hr & Hg & Hb & Hpix).
  change (pix small (x / ps) (y / ps)) with src in Hr, Hg, Hb.
  unfold channel_ok in Sr, Sg, Sb.
  pose proof (boost_channel_byte _ _ _ (proj1 Sr) Hboost Hr) as Br.
  pose proof (boost_channel_byte _ _ _ (proj1 Sg) Hboost Hg) as Bg.
  pose proof (boost_channel_byte _ _ _ (proj1 Sb) Hboost Hb) as Bb.
  rewrite !clip8_byte in Hpix by assumption.
  apply boost_channel_Some in Hr, Hg, Hb.
  destruct Hr as [tr [Hr ->]], Hg as [tg [Hg ->]], Hb as [tb [Hb ->]].
  exists tr, tg, tb; auto.
Qed.

Lemma lcd_stripe_pixels_witness :
  exists out,
    apply_lcd_pixel_effect corner_box (solid 7 4 (1, 100, 200)) 3 (ratio 7 4)
      "vertical" = Some out /\
    exists tr tg tb,
      trunc (mul (of_int 1) (ratio 7 4)) = Some tr /\
      trunc (mul (of_int 100) (ratio 7 4)) = Some tg /\
      trunc (mul (of_int 200) (ratio 7 4)) = Some tb /\
      pix out 4 2 = (0, Z.min tg 255, 0).
Proof.
  destruct (apply_lcd_pixel_effect corner_box (solid 7 4 (1, 100, 200)) 3
              (ratio 7 4) "vertical") as [out|] eqn:E;
    [|vm_compute in E; discriminate].
  exists out; split; [reflexivity|].
  assert (Hw : width out = 6) by (apply (lcd_size _ _ _ _ _ _ E)).
  assert (Hh : height out = 3) by (apply (lcd_size _ _ _ _ _ _ E)).
  apply (lcd_stripe_pixels corner_box (solid 7 4 (1, 100, 200)) 3 (ratio 7 4)
           "vertical" out 4 2);
    [lia | exact I | left; reflexivity | exact E | lia | lia |].
  repeat split; vm_compute; discriminate.
Defined.

(** C2 (as stated) fails: a source channel 1 boosted by 1.75 is painted as
    [int(1.75) = 1], where rounding to the nearest integer gives 2. *)
Lemma lcd_stripe_round_counterexample :
  exists out,
    apply_lcd_pixel_effect corner_box (solid 3 3 (1, 1, 1)) 3 (ratio 7 4)
      "vertical" = Some out /\
    pix out 0 0 = (1, 0, 0) /\
    (to_Q (ratio 7 4) == 7 # 4)%Q /\
    spec_stripe_value (red (corner_box (solid 3 3 (1, 1, 1)) 1 1 0 0)) (ratio 7 4)
    = 2 /\
    red (pix out 0 0) <>
    spec_stripe_value (red (corner_box (solid 3 3 (1, 1, 1)) 1 1 0 0)) (ratio 7 4).
Proof.
  eexists; split; [vm_compute; reflexivity|].
  split; [vm_compute; reflexivity|].
  split; [vm_compute; reflexivity|].
  split; [vm_compute; reflexivity|].
  vm_compute; discriminate.
Qed.

(** C4.  For a positive block size [b], whatever image the renderer
    returns measures [(w // b) * b] by [(h // b) * b]; and it does return
    one as soon as the block fits in the image and every boosted channel
    is a finite number. *)
Theorem lcd_output_dimensions
    (resample_box : image -> Z -> Z -> Z -> Z -> pixel)
    (img : image) (b : Z) (boost : float) (o : string) :
  0 < b ->
  (forall out,
     apply_lcd_pixel_effect resample_box img b boost o = Some out ->
     width out = width img / b * b /\ height out = height img / b * b) /\
  (b <= width img -> b <= height img ->
   boosts_defined
     (mkImage (width img / b) (height img / b)
        (resample_box img (width img / b) (height img / b))) boost ->
   exists out,
     apply_lcd_pixel_effect resample_box img b boost o = Some out /\
     width out = width img / b * b /\ height out = height img / b * b).
Proof.
  intros Hb; split.
  - intros out E; exact (lcd_size _ _ _ _ _ _ E).
  - intros Hw Hh Hd.
    destruct (lcd_returns resample_box img b boost o Hb Hw Hh Hd) as [out E].
    exists out; split; [exact E | exact (lcd_size _ _ _ _ _ _ E)].
Qed.

Lemma lcd_output_dimensions_witness :
  exists out,
    apply_lcd_pixel_effect corner_box (solid 7 4 (1, 100, 200)) 3 (ratio 7 4)
      "vertical" = Some out /\
    width out = 6 /\ height out = 3.
Proof.
  destruct (lcd_output_dimensions corner_box (solid 7 4 (1, 100, 200)) 3
              (ratio 7 4) "vertical") as [_ H]; [lia|].
  apply H; [simpl; lia | simpl; lia|].
  intros x y _ _ i; unfold channel.
  destruct (i =? 0); [|destruct (i =? 1)]; vm_compute; discriminate.
Defined.

(** C10.  With a positive block size and an orientation that is neither
    ["vertical"] nor ["horizontal"], whatever image the renderer returns
    measures [(w // b) * b] by [(h // b) * b] and is black at every pixel;
    and it does return one as soon as the block fits in the image and
    every boosted channel is a finite number. *)
Theorem lcd_unknown_orientation_black
    (resample_box : image -> Z -> Z -> Z -> Z -> pixel)
    (img : image) (b : Z) (boost : float) (o : string) :
  0 < b ->
  o <> "vertical"%string -> o <> "horizontal"%string ->
  (forall out,
     apply_lcd_pixel_effect resample_box img b boost o = Some out ->
     width out = width img / b * b /\ height out = height img / b * b /\
     forall x y, pix out x y = (0, 0, 0)) /\
  (b <= width img -> b <= height img ->
   boosts_defined
     (mkImage (width img / b) (height img / b)
        (resample_box img (width img / b) (height img / b))) boost ->
   exists out, apply_lcd_pixel_effect resample_box img b boost o = Some out).
Proof.
  intros Hb Hv Hh; split.
  - intros out E.
    destruct (lcd_size _ _ _ _ _ _ E) as [Hw Hh'].
    split; [exact Hw|]; split; [exact Hh'|].
    apply lcd_unpack in E; destruct E as (_ & _ & _ & E).
    intros x y.
    apply (foldM_preserves _ (fun s => pix s x y = (0, 0, 0)) _
             (fun s j s' _ Hr Hs =>
                foldM_preserves _ (fun s0 => pix s0 x y = (0, 0, 0)) _
                  (fun s0 i s0' _ Hc Hs0 =>
                     eq_ind_r (fun c => pix c x y = (0, 0, 0)) Hs0
                       (lcd_cell_unknown_orientation _ _ _ _ _ _ _ _ Hv Hh Hc))
                  _ _ Hr Hs)
             _ _ E); reflexivity.
  - intros Hw Hh' Hd; exact (lcd_returns resample_box img b boost o Hb Hw Hh' Hd).
Qed.

Lemma lcd_unknown_orientation_black_witness :
  exists out,
    apply_lcd_pixel_effect corner_box (solid 7 4 (1, 100, 200)) 2 (ratio 3 2)
      "diagonal" = Some out /\
    width out = 6 /\ height out = 4 /\ pix out 5 3 = (0, 0, 0).
Proof.
  destruct (lcd_unknown_orientation_black corner_box (solid 7 4 (1, 100, 200)) 2
              (ratio 3 2) "diagonal") as [Hp Hr];
    [lia | discriminate | discriminate |].
  destruct Hr as [out E]; [simpl; lia | simpl; lia | |].
  - intros x y _ _ i; unfold channel.
    destruct (i =? 0); [|destruct (i =? 1)]; vm_compute; discriminate.
  - exists out; split; [exact E|].
    destruct (Hp out E) as (Hw & Hh & Hblack).
    split; [exact Hw|]; split; [exact Hh | apply Hblack].
Defined.

(** ** Arrays *)

Lemma nth_zip_with {A B C : Type} (f : A -> B -> C) (l : list A) (l' : list B)
    (i : nat) (a : A) (b : B) (c : C) :
  (i < List.length l)%nat -> (i < List.length l')%nat ->
  nth i (zip_with f l l') c = f (nth i l a) (nth i l' b).
Proof.
  revert l' i; induction l as [|x l IH]; intros [|y l'] [|i]; simpl;
    intros H H'; try lia; [reflexivity|].
  apply IH; lia.
Qed.

Lemma length_zip_with {A B C : Type} (f : A -> B -> C) (l : list A)
    (l' : list B) :
  List.length l = List.length l' ->
  List.length (zip_with f l l') = List.length l.
Proof.
  revert l'; induction l as [|x l IH]; intros [|y l']; simpl; intros H;
    try congruence.
  f_equal; apply IH; congruence.
Qed.

Lemma length_roll1 {A : Type} (shift : Z) (l : list A) :
  List.length (roll1 shift l) = List.length l.
Proof.
  unfold roll1; rewrite length_app, length_skipn, length_firstn; lia.
Qed.

(** The index that a circular shift by [shift] reads: [(i - shift) % n]. *)
Lemma roll_index (shift n i : Z) :
  0 <= i < n ->
  let offset := shift mod n in
  (i - shift) mod n = if i <? offset then n - offset + i else i - offset.
Proof.
  intros Hi offset.
  pose proof (Z.mod_pos_bound shift n ltac:(lia)) as B.
  pose proof (Z.div_mod shift n ltac:(lia)) as D.
  fold offset in B, D.
  destruct (Z.ltb_spec i offset).
  - replace (i - shift) with (n - offset + i + (- (shift / n) - 1) * n) by lia.
    rewrite Z_mod_plus_full; apply Z.mod_small; lia.
  - replace (i - shift) with (i - offset + (- (shift / n)) * n) by lia.
    rewrite Z_mod_plus_full; apply Z.mod_small; lia.
Qed.

(** [np.roll] moves the element at index [(i - shift) % n] to index [i]. *)
Lemma nth_roll1 {A : Type} (shift : Z) (l : list A) (i : Z) (d : A) :
  0 <= i < Z.of_nat (List.length l) ->
  nth (Z.to_nat i) (roll1 shift l) d =
  nth (Z.to_nat ((i - shift) mod Z.of_nat (List.length l))) l d.
Proof.
  intros Hi; unfold roll1.
  set (n := Z.of_nat (List.length l)) in *.
  destruct (Z.eqb_spec n 0) as [|Hn]; [lia|].
  rewrite (roll_index shift n i Hi).
  pose proof (Z.mod_pos_bound shift n ltac:(lia)) as B.
  set (offset := shift mod n) in *.
  destruct (Z.ltb_spec i offset).
  - rewrite app_nth1 by (rewrite length_skipn; lia).
    rewrite nth_skipn; f_equal; lia.
  - rewrite app_nth2 by (rewrite length_skipn; lia).
    rewrite length_skipn, nth_firstn.
    destruct (Nat.ltb_spec (Z.to_nat i - (List.length l - Z.to_nat (n - offset)))
                (Z.to_nat (n - offset))); [f_equal; lia | lia].
Qed.

Lemma shaped_plane (img : image) (c : Z) : shaped (plane img c).
Proof.
  unfold shaped, plane; simpl; split.
  - rewrite length_map, length_range; reflexivity.
  - intros r Hr; apply in_map_iff in Hr; destruct Hr as [y [<- _]].
    rewrite length_map, length_range; reflexivity.
Qed.

Lemma shaped_roll (a : ndarray) (shift axis : Z) :
  shaped a -> shaped (roll a shift axis).
Proof.
  intros [H0 H1]; unfold shaped, roll; simpl.
  destruct (axis =? 0); split.
  - rewrite length_roll1; exact H0.
  - intros r Hr; unfold roll1 in Hr; apply in_app_or in Hr.
    apply H1; rewrite <- (firstn_skipn (Z.to_nat
      (Z.of_nat (List.length (rows a)) -
       shift mod (if Z.of_nat (List.length (rows a)) =? 0 then 1
                  else Z.of_nat (List.length (rows a))))) (rows a)).
    apply in_or_app; tauto.
  - rewrite length_map; exact H0.
  - intros r Hr; apply in_map_iff in Hr; destruct Hr as [r0 [<- Hr0]].
    rewrite length_roll1; apply H1; exact Hr0.
Qed.

Lemma at2_plane (img : image) (c x y : Z) :
  0 <= x < width img -> 0 <= y < height img ->
  at2 (plane img c) y x = channel c (pix img x y).
Proof.
  intros Hx Hy; unfold at2, plane; simpl.
  rewrite (nth_indep _ [] (map (fun x0 => channel c (pix img x0 0)) (range (width img))))
    by (rewrite length_map, length_range; lia).
  rewrite (map_nth (fun y0 => map (fun x0 => channel c (pix img x0 y0)) (range (width img)))
             (range (height img)) 0 (Z.to_nat y)).
  rewrite nth_range by lia.
  rewrite (nth_indep _ 0 (channel c (pix img 0 (Z.of_nat (Z.to_nat y)))))
    by (rewrite length_map, length_range; lia).
  rewrite (map_nth (fun x0 => channel c (pix img x0 (Z.of_nat (Z.to_nat y))))
             (range (width img)) 0 (Z.to_nat x)).
  rewrite nth_range by lia.
  rewrite !Z2Nat.id by lia; reflexivity.
Qed.

Lemma nth_row_length (a : ndarray) (y : Z) :
  shaped a -> 0 <= y < shape0 a ->
  List.length (nth (Z.to_nat y) (rows a) []) = Z.to_nat (shape1 a).
Proof.
  intros [H0 H1] Hy; apply H1, nth_In; lia.
Qed.

Lemma at2_roll_rows (a : ndarray) (shift x y : Z) :
  shaped a -> 0 <= y < shape0 a ->
  at2 (roll a shift 0) y x = at2 a ((y - shift) mod shape0 a) x.
Proof.
  intros [H0 H1] Hy; unfold at2, roll; simpl.
  rewrite nth_roll1 by lia.
  rewrite H0, Z2Nat.id by lia; reflexivity.
Qed.

Lemma at2_roll_columns (a : ndarray) (shift x y : Z) :
  shaped a -> 0 <= y < shape0 a -> 0 <= x < shape1 a ->
  at2 (roll a shift 1) y x = at2 a y ((x - shift) mod shape1 a).
Proof.
  intros Ha Hy Hx; unfold at2, roll; simpl.
  pose proof (nth_row_length a y Ha Hy) as Hlen.
  destruct Ha as [H0 H1].
  rewrite (nth_indep _ [] (roll1 shift [])) by (rewrite length_map; lia).
  rewrite (map_nth (roll1 shift) (rows a) [] (Z.to_nat y)).
  rewrite nth_roll1 by lia.
  rewrite Hlen, Z2Nat.id by lia; reflexivity.
Qed.

Lemma at2_blend_planes (intensity : float) (s o : ndarray) (x y : Z) :
  shaped s -> shaped o -> shape0 s = shape0 o -> shape1 s = shape1 o ->
  0 <= y < shape0 o -> 0 <= x < shape1 o ->
  at2 (blend_planes intensity s o) y x = blend intensity (at2 s y x) (at2 o y x).
Proof.
  intros Hs Ho E0 E1 Hy Hx; unfold at2, blend_planes; simpl.
  pose proof (nth_row_length s y Hs ltac:(lia)) as Ls.
  pose proof (nth_row_length o y Ho Hy) as Lo.
  destruct Hs as [Hs0 _], Ho as [Ho0 _].
  rewrite (nth_zip_with _ _ _ _ [] [] []) by lia.
  apply nth_zip_with; lia.
Qed.

(** ** The channel-shift filter *)

(** Every pixel of the filter's output, in terms of the input's pixels. *)
Lemma glitch_pixel (img : image) (shift_amount : Z) (intensity : float)
    (x y : Z) :
  0 <= x < width img -> 0 <= y < height img ->
  pix (apply_refined_glitch_effect img shift_amount intensity) x y =
  (blend intensity
     (red (pix img ((x - shift_amount) mod width img) y))
     (red (pix img x y)),
   blend intensity
     (green (pix img x ((y - (- shift_amount) / 2) mod height img)))
     (green (pix img x y)),
   blue (pix img x y)).
Proof.
  intros Hx Hy.
  pose proof (Z.mod_pos_bound (x - shift_amount) (width img) ltac:(lia)) as Bx.
  pose proof (Z.mod_pos_bound (y - (- shift_amount) / 2) (height img) ltac:(lia))
    as By.
  unfold apply_refined_glitch_effect, fromarray, shifted_red, shifted_green,
    red_channel, green_channel, blue_channel; cbn [pix].
  rewrite !at2_blend_planes
    by (try apply shaped_roll; try apply shaped_plane; try reflexivity; assumption).
  rewrite at2_roll_columns by (try apply shaped_plane; assumption).
  rewrite at2_roll_rows by (try apply shaped_plane; assumption).
  cbn [shape0 shape1 plane].
  rewrite !at2_plane by assumption.
  reflexivity.
Qed.

Lemma floor_half_opp (s : Z) : (- s) / 2 = - ((s + 1) / 2).
Proof. Z.to_euclidean_division_equations; lia. Qed.

Lemma floor_is_trunc_half (s : Z) :
  s <= 0 \/ Z.even s = true -> (- s) / 2 = - (Z.quot s 2).
Proof.
  intros [Hs | Hs].
  - replace s with (- (- s)) at 2 by lia.
    rewrite Z.quot_opp_l by lia.
    rewrite Z.quot_div_nonneg by lia; lia.
  - apply Z.even_spec in Hs; destruct Hs as [k ->].
    rewrite (Z.mul_comm 2 k), Z.quot_mul by lia.
    replace (- (k * 2)) with ((- k) * 2) by lia.
    rewrite Z.div_mul by lia; reflexivity.
Qed.

(** C1 (as amended).  The green plane is rolled along the rows by
    [(-shift_amount) // 2] with Python's floor division: the row [y] of the
    shifted plane is the row [(y - (-shift_amount) // 2) % height] of the
    green plane.  The amount is [-((shift_amount + 1) // 2)], which is -3
    rows for a shift amount of 5, and it is the truncated quotient of the
    specification when the shift amount is even or not positive. *)
Theorem glitch_green_shift (img : image) (shift_amount x y : Z) :
  0 <= x < width img -> 0 <= y < height img ->
  shifted_green img shift_amount
  = roll (green_channel img) ((- shift_amount) / 2) 0 /\
  at2 (shifted_green img shift_amount) y x
  = green (pix img x ((y - (- shift_amount) / 2) mod height img)) /\
  (- shift_amount) / 2 = - ((shift_amount + 1) / 2) /\
  (shift_amount <= 0 \/ Z.even shift_amount = true ->
   shifted_green img shift_amount = spec_shifted_green img shift_amount).
Proof.
  intros Hx Hy; split; [reflexivity|]; split; [|split].
  - pose proof (Z.mod_pos_bound (y - (- shift_amount) / 2) (height img) ltac:(lia)).
    unfold shifted_green, green_channel.
    rewrite at2_roll_rows by (try apply shaped_plane; assumption).
    cbn [shape0 plane]; rewrite at2_plane by assumption; reflexivity.
  - apply floor_half_opp.
  - intros Hs; unfold shifted_green, spec_shifted_green.
    rewrite (floor_is_trunc_half shift_amount Hs); reflexivity.
Qed.

Lemma glitch_green_shift_witness :
  at2 (shifted_green (gradient 4 5) 5) 0 1 = green (pix (gradient 4 5) 1 3) /\
  (- 5) / 2 = - 3.
Proof.
  destruct (glitch_green_shift (gradient 4 5) 5 1 0) as (_ & H & H' & _);
    [simpl; lia | simpl; lia |].
  split; [exact H | exact H'].
Defined.

(** C1 (as stated) fails: for a shift amount of 5 the green plane of a
    five-row image is rolled by -3 rows, not by the -2 rows that a
    division truncating towards zero gives. *)
Lemma glitch_green_shift_counterexample :
  rows (shifted_green (gradient 4 5) 5) =
  rows (roll (green_channel (gradient 4 5)) (- 3) 0) /\
  rows (spec_shifted_green (gradient 4 5) 5) =
  rows (roll (green_channel (gradient 4 5)) (- 2) 0) /\
  rows (shifted_green (gradient 4 5) 5) <>
  rows (spec_shifted_green (gradient 4 5) 5).
Proof.
  split; [reflexivity|]; split; [reflexivity|].
  vm_compute; discriminate.
Qed.

(** C3 (as amended).  Each red and green value of the output is
    [intensity*shifted + (1-intensity)*original] computed in binary64 and
    converted by the truncating cast of [astype(np.uint8)]: the sum is cut
    towards zero, not rounded to the nearest integer, and nothing
    saturates.  The shifted red value comes from the column
    [(x - shift_amount) % width], the shifted green value from the row
    [(y - (-shift_amount) // 2) % height]. *)
Theorem glitch_blend_pixels (img : image) (shift_amount : Z)
    (intensity : float) (x y : Z) :
  0 <= x < width img -> 0 <= y < height img ->
  let out := apply_refined_glitch_effect img shift_amount intensity in
  let shifted_r := red (pix img ((x - shift_amount) mod width img) y) in
  let shifted_g :=
    green (pix img x ((y - (- shift_amount) / 2) mod height img)) in
  red (pix out x y) =
  to_uint8 (add (mul intensity (of_int shifted_r))
              (mul (sub (of_int 1) intensity) (of_int (red (pix img x y))))) /\
  green (pix out x y) =
  to_uint8 (add (mul intensity (of_int shifted_g))
              (mul (sub (of_int 1) intensity) (of_int (green (pix img x y))))).
Proof.
  intros Hx Hy out shifted_r shifted_g; unfold out.
  rewrite (glitch_pixel img shift_amount intensity x y Hx Hy).
  split; reflexivity.
Qed.

Lemma glitch_blend_pixels_witness :
  red (pix (apply_refined_glitch_effect (gradient 2 1) 1 (ratio 3 4)) 0 0) =
  to_uint8 (add (mul (ratio 3 4) (of_int 1))
              (mul (sub (of_int 1) (ratio 3 4)) (of_int 0))).
Proof.
  apply (glitch_blend_pixels (gradient 2 1) 1 (ratio 3 4) 0 0);
    simpl; lia.
Defined.

(** C3 (as stated) fails: with intensity 0.75, a shifted value 1 and an
    original value 0 the output is [int(0.75) = 0], where rounding to the
    nearest integer gives 1. *)
Lemma glitch_blend_round_counterexample :
  red (pix (gradient 2 1) ((0 - 1) mod 2) 0) = 1 /\
  red (pix (gradient 2 1) 0 0) = 0 /\
  (to_Q (ratio 3 4) == 3 # 4)%Q /\
  red (pix (apply_refined_glitch_effect (gradient 2 1) 1 (ratio 3 4)) 0 0) = 0 /\
  spec_blend (ratio 3 4) 1 0 = 1 /\
  red (pix (apply_refined_glitch_effect (gradient 2 1) 1 (ratio 3 4)) 0 0) <>
  spec_blend (ratio 3 4) 1 0.
Proof.
  repeat split; try (vm_compute; reflexivity).
  vm_compute; discriminate.
Qed.

Lemma blend_fixes_byte (intensity : float) (v : Z) :
  blend_fixes intensity = true -> 0 <= v <= 255 -> blend intensity v v = v.
Proof.
  unfold blend_fixes; intros H Hv.
  rewrite forallb_forall in H.
  apply Z.eqb_eq, H, In_range; lia.
Qed.

Lemma image_ok_gradient (w h : Z) : image_ok (gradient w h).
Proof.
  intros x y _ _; unfold pixel_ok, channel_ok, gradient, red, green, blue; simpl.
  pose proof (Z.mod_pos_bound (10 * y + x) 256 ltac:(lia)).
  pose proof (Z.mod_pos_bound (20 * y + x) 256 ltac:(lia)).
  pose proof (Z.mod_pos_bound (30 * y + x) 256 ltac:(lia)).
  lia.
Qed.

(** C5 (as amended).  With a shift amount of 0 the output has the size of
    the input, its blue channel is the input's at every intensity, and it
    is the input pixel for pixel at every intensity at which the binary64
    blend of a byte with itself truncates back to that byte
    ([blend_fixes]); 0, 0.5, the default 0.8 and 1 are such intensities.
    At the others the truncating cast loses one unit of red and green. *)
Theorem glitch_zero_shift (img : image) (intensity : float) :
  image_ok img ->
  (forall x y, 0 <= x < width img -> 0 <= y < height img ->
     blue (pix (apply_refined_glitch_effect img 0 intensity) x y)
     = blue (pix img x y)) /\
  (blend_fixes intensity = true ->
   same_image (apply_refined_glitch_effect img 0 intensity) img) /\
  blend_fixes zero = true /\ blend_fixes (ratio 1 2) = true /\
  blend_fixes (ratio 4 5) = true /\ blend_fixes one = true.
Proof.
  intros Hok; split; [|split].
  - intros x y Hx Hy; rewrite (glitch_pixel img 0 intensity x y Hx Hy); reflexivity.
  - intros Hfix; split; [reflexivity|]; split; [reflexivity|].
    intros x y Hx Hy; cbn [width height apply_refined_glitch_effect fromarray
                             blend_planes red_channel plane shape0 shape1] in Hx, Hy.
    rewrite (glitch_pixel img 0 intensity x y Hx Hy).
    destruct (Hok x y Hx Hy) as (Hr & Hg & _).
    replace ((x - 0) mod width img) with x by (rewrite Z.mod_small; lia).
    replace ((y - - 0 / 2) mod height img) with y
      by (change (- 0 / 2) with 0; rewrite Z.mod_small; lia).
    rewrite !blend_fixes_byte by assumption.
    destruct (pix img x y) as [[r g] b]; reflexivity.
  - repeat split; vm_compute; reflexivity.
Qed.

Lemma glitch_zero_shift_witness :
  same_image (apply_refined_glitch_effect (gradient 4 5) 0 (ratio 4 5))
    (gradient 4 5).
Proof.
  destruct (glitch_zero_shift (gradient 4 5) (ratio 4 5)) as (_ & H & _);
    [apply image_ok_gradient|].
  apply H; vm_compute; reflexivity.
Defined.

(** C5 (as stated) fails: at intensity 0.3 and shift amount 0 the blend
    of the value 3 with itself is 2.9999999999999996 in binary64, which
    the cast truncates to 2. *)
Lemma glitch_zero_shift_counterexample :
  pix (solid 2 2 (3, 3, 3)) 0 0 = (3, 3, 3) /\
  pix (apply_refined_glitch_effect (solid 2 2 (3, 3, 3)) 0 (ratio 3 10)) 0 0
  = (2, 2, 3) /\
  ~ same_image (apply_refined_glitch_effect (solid 2 2 (3, 3, 3)) 0 (ratio 3 10))
      (solid 2 2 (3, 3, 3)).
Proof.
  split; [reflexivity|]; split; [vm_compute; reflexivity|].
  intros (_ & _ & H).
  specialize (H 0 0 ltac:(simpl; lia) ltac:(simpl; lia)).
  vm_compute in H; discriminate.
Qed.

(** C7.  The blue channel of every pixel of the output is the blue
    channel of the same pixel of the input, whatever the shift amount and
    the intensity. *)
Theorem glitch_blue_unchanged (img : image) (shift_amount : Z)
    (intensity : float) (x y : Z) :
  0 <= x < width img -> 0 <= y < height img ->
  blue (pix (apply_refined_glitch_effect img shift_amount intensity) x y)
  = blue (pix img x y).
Proof.
  intros Hx Hy; rewrite (glitch_pixel img shift_amount intensity x y Hx Hy).
  reflexivity.
Qed.

Lemma glitch_blue_unchanged_witness :
  blue (pix (apply_refined_glitch_effect (gradient 4 5) 5 (ratio 4 5)) 3 4)
  = blue (pix (gradient 4 5) 3 4).
Proof.
  apply (glitch_blue_unchanged (gradient 4 5) 5 (ratio 4 5) 3 4); simpl; lia.
Defined.

(** ** Binary64 arithmetic *)

Lemma digits2_log2 (p : positive) :
  Zpos (digits2_pos p) = Z.log2 (Zpos p) + 1.
Proof.
  induction p as [p IH | p IH |]; simpl; try reflexivity.
  - rewrite Pos2Z.inj_succ. 
    assert (digits2_pos p = Pos.size p) as ->. { clear. induction p; simpl; congruence. } lia.
  - rewrite Pos2Z.inj_succ. 
    assert (digits2_pos p = Pos.size p) as ->. { clear. induction p; simpl; congruence. } lia.
Qed.

Lemma digits_bounds (p : positive) (d : Z) :
  Zpos (digits2_pos p) = d <-> 2 ^ (d - 1) <= Zpos p < 2 ^ d.
Proof.
  rewrite digits2_log2. split.
  - intros <-. replace (Z.log2 (Z.pos p) + 1 - 1) with (Z.log2 (Z.pos p)) by lia.
    pose proof (Z.log2_spec (Zpos p) ltac:(lia)). rewrite <- Z.add_1_r in H. exact H.
  - intros H. assert (0 <= d - 1).
    { destruct (Z.le_gt_cases 1 d) as [|Hd]; [lia|].
      assert (2 ^ d <= 1); [|lia].
      destruct (Z.eq_dec d 0) as [-> | Hn]; [rewrite Z.pow_0_r; lia|].
      rewrite Z.pow_neg_r by lia; lia. }
    assert (Z.log2 (Zpos p) = d - 1) as ->; [|lia].
    apply Z.log2_unique; [lia|].
    replace (Z.succ (d - 1)) with d by lia; exact H.
Qed.

Lemma iter_pos_nat {A} (f : A -> A) (p : positive) (x : A) :
  iter_pos f p x = Nat.iter (Pos.to_nat p) f x.
Proof.
  revert x; induction p as [p IH | p IH |]; intros x; cbn [iter_pos].
  - rewrite !IH, Pos2Nat.inj_xI.
    replace (S (2 * Pos.to_nat p)) with (Pos.to_nat p + S (Pos.to_nat p))%nat by lia.
    rewrite Nat.iter_add, Nat.iter_succ_r; reflexivity.
  - rewrite !IH, Pos2Nat.inj_xO.
    replace (2 * Pos.to_nat p)%nat with (Pos.to_nat p + Pos.to_nat p)%nat by lia.
    rewrite Nat.iter_add; reflexivity.
  - reflexivity.
Qed.

(** Shifting a mantissa right. *)
Lemma shr_m_shr_1 (r : shr_record) :
  0 <= shr_m r -> shr_m (shr_1 r) = shr_m r / 2.
Proof.
  destruct r as [m b s]; simpl; intros Hm.
  destruct m as [|[p|p|]|p]; simpl; try reflexivity; try lia.
  - rewrite Pos2Z.inj_xI. apply Z.div_unique with 1; lia.
  - rewrite Pos2Z.inj_xO. apply Z.div_unique with 0; lia.
Qed.

Lemma shr_m_iter (n : nat) (r : shr_record) :
  0 <= shr_m r -> shr_m (Nat.iter n shr_1 r) = shr_m r / 2 ^ Z.of_nat n.
Proof.
  intros Hm; induction n as [|n IH].
  - simpl; rewrite Z.div_1_r; reflexivity.
  - rewrite Nat.iter_succ, shr_m_shr_1.
    + rewrite IH, Nat2Z.inj_succ, Z.pow_succ_r by lia.
      rewrite Z.div_div by lia. f_equal; lia.
    + rewrite IH. apply Z.div_pos; lia.
Qed.

(** Exact shifts keep the location exact. *)
Lemma shr_1_double (t : Z) :
  0 <= t ->
  shr_1 (Build_shr_record (2 * t) false false) = Build_shr_record t false false.
Proof. destruct t; simpl; intros; try reflexivity; lia. Qed.

Lemma shr_exact_iter (n : nat) (q : Z) :
  0 <= q ->
  Nat.iter n shr_1 (Build_shr_record (q * 2 ^ Z.of_nat n) false false)
  = Build_shr_record q false false.
Proof.
  intros Hq; induction n as [|n IH].
  - simpl. f_equal; lia.
  - rewrite Nat.iter_succ_r.
    replace (q * 2 ^ Z.of_nat (S n)) with (2 * (q * 2 ^ Z.of_nat n))
      by (rewrite Nat2Z.inj_succ, Z.pow_succ_r by lia; lia).
    rewrite shr_1_double by (apply Z.mul_nonneg_nonneg; lia).
    exact IH.
Qed.

Lemma fexp_normal (d : Z) : -1021 <= d -> fexp prec emax d = d - 53.
Proof. unfold fexp, emin, prec, emax; lia. Qed.

(** [shr] by a nonnegative amount. *)
Lemma shr_nat (r : shr_record) (e n : Z) :
  0 <= n -> shr r e n = (Nat.iter (Z.to_nat n) shr_1 r, e + n).
Proof.
  intros Hn; unfold shr; destruct n as [|p|p]; try lia.
  - simpl; f_equal; lia.
  - rewrite iter_pos_nat; reflexivity.
Qed.

(** Rounding a mantissa that is a 53-digit number shifted left. *)
Lemma round_aux_exact (s : bool) (q : positive) (n e : Z) :
  digits q = 53 -> 0 <= n -> -1074 <= e + n <= 971 ->
  binary_round_aux prec emax s (Zpos q * 2 ^ n) e loc_Exact
  = S754_finite s q (e + n).
Proof.
  intros Hq Hn He.
  assert (Hd : Zdigits2 (Zpos q * 2 ^ n) = 53 + n).
  { assert (0 < 2 ^ n) by (apply Z.pow_pos_nonneg; lia).
    destruct (Zpos q * 2 ^ n) as [|m|m] eqn:E; try lia.
    unfold Zdigits2. apply digits_bounds. rewrite <- E.
    apply digits_bounds in Hq.
    replace (53 + n - 1) with (52 + n) by lia.
    rewrite !Z.pow_add_r by lia. simpl (53 - 1) in Hq. nia. }
  unfold binary_round_aux, shr_fexp.
  rewrite Hd. unfold shr_record_of_loc.
  replace (fexp prec emax (53 + n + e) - e) with n by (unfold fexp, emin, prec, emax; lia).
  rewrite shr_nat by lia.
  replace (2 ^ n) with (2 ^ Z.of_nat (Z.to_nat n)) by (f_equal; lia).
  rewrite shr_exact_iter by lia.
  cbn [shr_m loc_of_shr_record round_nearest_even].
  unfold Zdigits2. fold (digits q). rewrite Hq.
  replace (fexp prec emax (53 + (e + n)) - (e + n)) with 0 by (unfold fexp, emin, prec, emax; lia).
  cbn [shr shr_m].
  destruct (Z.leb_spec (e + n) (emax - prec)); [reflexivity|].
  unfold emax, prec in *; lia.
Qed.

Lemma shr_m_of_loc (m : Z) (l : location) : shr_m (shr_record_of_loc m l) = m.
Proof. destruct l as [|[| |]]; reflexivity. Qed.

Lemma round_nearest_even_range (m : Z) (l : location) :
  m <= round_nearest_even m l <= m + 1.
Proof.
  destruct l as [|[| |]]; simpl; try lia.
  destruct (Z.even m); lia.
Qed.

Lemma Zdigits2_bounds (m d : Z) :
  0 < m -> 2 ^ (d - 1) <= m < 2 ^ d -> Zdigits2 m = d.
Proof.
  intros Hm H; destruct m as [|p|p]; try lia.
  unfold Zdigits2; apply digits_bounds; exact H.
Qed.

(** Rounding any mantissa of at least 53 digits in the normal range gives a
    normal number; the exponent moves up by the digits dropped, and by one
    more when the rounding carries. *)
Lemma round_aux_normal (s : bool) (M : positive) (e : Z) (l : location) :
  53 <= digits M -> -1074 <= e + digits M - 53 <= 970 ->
  exists m' e',
    binary_round_aux prec emax s (Zpos M) e l = S754_finite s m' e' /\
    digits m' = 53 /\
    e + digits M - 53 <= e' <= e + digits M - 52.
Proof.
  intros Hd He.
  set (n := digits M - 53).
  assert (HM : 2 ^ (digits M - 1) <= Zpos M < 2 ^ digits M)
    by (apply digits_bounds; reflexivity).
  unfold binary_round_aux, shr_fexp.
  change (Zdigits2 (Zpos M)) with (digits M).
  replace (fexp prec emax (digits M + e) - e) with n
    by (unfold fexp, emin, prec, emax, n; lia).
  rewrite shr_nat by (unfold n; lia).
  set (r1 := Nat.iter (Z.to_nat n) shr_1 (shr_record_of_loc (Zpos M) l)).
  assert (H1 : shr_m r1 = Zpos M / 2 ^ n).
  { unfold r1; rewrite shr_m_iter by (rewrite shr_m_of_loc; lia).
    rewrite shr_m_of_loc, Z2Nat.id by (unfold n; lia); reflexivity. }
  assert (B1 : 2 ^ 52 <= shr_m r1 < 2 ^ 53).
  { rewrite H1.
    assert (0 < 2 ^ n) by (apply Z.pow_pos_nonneg; unfold n; lia).
    assert (HM' : 2 ^ 52 * 2 ^ n <= Zpos M < 2 ^ 53 * 2 ^ n).
    { rewrite <- !Z.pow_add_r by (unfold n; lia).
      replace (52 + n) with (digits M - 1) by (unfold n; lia).
      replace (53 + n) with (digits M) by (unfold n; lia).
      exact HM. }
    split.
    - apply Z.div_le_lower_bound; lia.
    - apply Z.div_lt_upper_bound; lia. }
  pose proof (round_nearest_even_range (shr_m r1) (loc_of_shr_record r1)) as B2.
  set (m2 := round_nearest_even (shr_m r1) (loc_of_shr_record r1)) in *.
  destruct (Z.eq_dec m2 (2 ^ 53)) as [E2 | N2].
  - rewrite E2.
    replace (fexp prec emax (Zdigits2 (2 ^ 53) + (e + n)) - (e + n)) with 1
      by (change (Zdigits2 (2 ^ 53)) with 54; unfold fexp, emin, prec, emax, n; lia).
    exists (2 ^ 52)%positive, (e + n + 1); split; [|split].
    + cbn -[Z.add Z.sub Z.leb].
      destruct (Z.leb_spec (e + n + 1) (emax - prec)); [reflexivity|].
      unfold emax, prec, n in *; lia.
    + reflexivity.
    + unfold n; lia.
  - assert (Hm2 : Zdigits2 m2 = 53) by (apply Zdigits2_bounds; lia).
    rewrite Hm2.
    replace (fexp prec emax (53 + (e + n)) - (e + n)) with 0
      by (unfold fexp, emin, prec, emax, n; lia).
    destruct m2 as [|p2|p2] eqn:Em2; try lia.
    exists p2, (e + n); split; [|split].
    + cbn -[Z.add Z.sub Z.leb].
      destruct (Z.leb_spec (e + n) (emax - prec)); [reflexivity|].
      unfold emax, prec, n in *; lia.
    + exact Hm2.
    + unfold n; lia.
Qed.

Lemma digits_range (M : positive) (a b : Z) :
  0 <= a -> 2 ^ a <= Zpos M < 2 ^ b -> a + 1 <= digits M <= b.
Proof.
  intros Ha [H1 H2]; unfold digits; rewrite digits2_log2.
  apply Z.log2_le_pow2 in H1; [|lia].
  apply Z.log2_lt_pow2 in H2; [|lia].
  lia.
Qed.

Lemma digits_53 (m : positive) : digits m = 53 -> 2 ^ 52 <= Zpos m < 2 ^ 53.
Proof. intros H; apply digits_bounds in H; exact H. Qed.

Lemma pos_normal_nonneg (lo hi : Z) (f : float) :
  pos_normal lo hi f -> nonneg lo hi f.
Proof. destruct f as [| | |[|] m e]; simpl; auto. Qed.

Lemma mul_normal (s1 s2 : bool) (m1 m2 : positive) (e1 e2 : Z) :
  digits m1 = 53 -> digits m2 = 53 ->
  -500 <= e1 <= 400 -> -500 <= e2 <= 400 ->
  exists m e,
    mul (S754_finite s1 m1 e1) (S754_finite s2 m2 e2)
    = S754_finite (xorb s1 s2) m e /\
    digits m = 53 /\ e1 + e2 + 52 <= e <= e1 + e2 + 54.
Proof.
  intros D1 D2 E1 E2; apply digits_53 in D1, D2.
  unfold mul, SFmul.
  assert (Hd : 105 <= digits (m1 * m2) <= 106).
  { apply (digits_range (m1 * m2) 104 106); [lia|].
    rewrite Pos2Z.inj_mul.
    change (2 ^ 104) with (2 ^ 52 * 2 ^ 52); change (2 ^ 106) with (2 ^ 53 * 2 ^ 53).
    nia. }
  destruct (round_aux_normal (xorb s1 s2) (m1 * m2) (e1 + e2) loc_Exact)
    as (m & e & Hr & Hm & He); [lia | lia |].
  exists m, e; split; [exact Hr|]; split; [exact Hm | lia].
Qed.

Lemma pow2_nonneg (lo hi : Z) (f : float) :
  -500 <= lo -> hi <= 400 ->
  zero_or_normal lo hi f -> nonneg (2 * lo + 52) (2 * hi + 54) (pow2 f).
Proof.
  intros Hlo Hhi Hf; unfold pow2.
  destruct f as [s| | |s m e]; simpl in Hf; try contradiction.
  - destruct s; exact I.
  - destruct Hf as [Hm He].
    destruct (mul_normal s s m m e e Hm Hm ltac:(lia) ltac:(lia))
      as (m' & e' & -> & Hm' & He').
    rewrite xorb_nilpotent; simpl; split; [exact Hm' | lia].
Qed.

Lemma pow2_pos (lo hi : Z) (f : float) :
  -500 <= lo -> hi <= 400 ->
  normal lo hi f -> pos_normal (2 * lo + 52) (2 * hi + 54) (pow2 f).
Proof.
  intros Hlo Hhi Hf; unfold pow2.
  destruct f as [s| | |s m e]; simpl in Hf; try contradiction.
  destruct Hf as [Hm He].
  destruct (mul_normal s s m m e e Hm Hm ltac:(lia) ltac:(lia))
    as (m' & e' & -> & Hm' & He').
  rewrite xorb_nilpotent; simpl; split; [exact Hm' | lia].
Qed.

Lemma iter_xO_Z (m d : positive) :
  Zpos (Pos.iter xO m d) = Zpos m * 2 ^ Zpos d.
Proof.
  induction d as [|d IH] using Pos.peano_ind.
  - simpl; lia.
  - rewrite Pos.iter_succ, Pos2Z.inj_xO, IH, Pos2Z.inj_succ, Z.pow_succ_r by lia.
    lia.
Qed.

Lemma shl_align_Z (m : positive) (e ez : Z) :
  ez <= e ->
  Zpos (fst (shl_align m e ez)) = Zpos m * 2 ^ (e - ez) /\
  snd (shl_align m e ez) = ez.
Proof.
  intros H; unfold shl_align.
  destruct (ez - e) as [|d|d] eqn:E; simpl; try lia.
  - replace (e - ez) with 0 by lia; split; lia.
  - rewrite iter_xO_Z; replace (e - ez) with (Zpos d) by lia; split; lia.
Qed.

Lemma binary_round_big (s : bool) (S : positive) (e : Z) :
  53 <= digits S -> -1021 <= digits S + e ->
  binary_round prec emax s S e
  = binary_round_aux prec emax s (Zpos S) e loc_Exact.
Proof.
  intros Hd He; unfold binary_round.
  change (Zpos (digits2_pos S)) with (digits S).
  rewrite fexp_normal by lia.
  unfold shl_align.
  destruct (digits S + e - 53 - e) as [|d|d] eqn:E; try lia; reflexivity.
Qed.

Lemma add_pos_normal (lo hi : Z) (m1 m2 : positive) (e1 e2 : Z) :
  digits m1 = 53 -> digits m2 = 53 ->
  -500 <= lo -> hi <= 400 -> lo <= e1 <= hi -> lo <= e2 <= hi ->
  pos_normal lo (hi + 2)
    (add (S754_finite false m1 e1) (S754_finite false m2 e2)).
Proof.
  intros D1 D2 Hlo Hhi E1 E2; apply digits_53 in D1, D2.
  unfold add, SFadd; cbn [cond_Zopp].
  set (ez := Z.min e1 e2).
  destruct (shl_align_Z m1 e1 ez ltac:(unfold ez; lia)) as [A1 _].
  destruct (shl_align_Z m2 e2 ez ltac:(unfold ez; lia)) as [A2 _].
  set (M1 := fst (shl_align m1 e1 ez)) in *.
  set (M2 := fst (shl_align m2 e2 ez)) in *.
  change (Zpos M1 + Zpos M2) with (Zpos (M1 + M2)).
  unfold binary_normalize.
  set (emx := Z.max e1 e2).
  assert (HS : 2 ^ (52 + (emx - ez)) <= Zpos (M1 + M2) < 2 ^ (54 + (emx - ez))).
  { rewrite Pos2Z.inj_add, A1, A2, !Z.pow_add_r by (unfold emx, ez; lia).
    change (2 ^ 54) with (2 * 2 ^ 53).
    destruct (Z.le_gt_cases e1 e2).
    - replace ez with e1 by (unfold ez; lia); replace emx with e2 by (unfold emx; lia).
      rewrite Z.sub_diag, Z.pow_0_r.
      assert (0 < 2 ^ (e2 - e1)) by (apply Z.pow_pos_nonneg; lia).
      nia.
    - replace ez with e2 by (unfold ez; lia); replace emx with e1 by (unfold emx; lia).
      rewrite Z.sub_diag, Z.pow_0_r.
      assert (0 < 2 ^ (e1 - e2)) by (apply Z.pow_pos_nonneg; lia).
      nia. }
  apply digits_range in HS; [|unfold emx, ez; lia].
  rewrite binary_round_big by (unfold emx, ez in *; lia).
  destruct (round_aux_normal false (M1 + M2) ez loc_Exact)
    as (m & e & -> & Hm & He); [unfold emx, ez in *; lia | unfold emx, ez in *; lia|].
  simpl; split; [exact Hm | unfold emx, ez in *; lia].
Qed.

Lemma add_nonneg (lo hi : Z) (a b : float) :
  -500 <= lo -> hi <= 400 ->
  nonneg lo hi a -> nonneg lo hi b -> nonneg lo (hi + 2) (add a b).
Proof.
  intros Hlo Hhi Ha Hb.
  destruct a as [sa| | |[|] ma ea]; simpl in Ha; try contradiction;
    destruct b as [sb| | |[|] mb eb]; simpl in Hb; try contradiction.
  - destruct sa, sb; exact I.
  - simpl; destruct Hb; split; [assumption | lia].
  - simpl; destruct Ha; split; [assumption | lia].
  - destruct Ha as [Ma Ea], Hb as [Mb Eb].
    apply pos_normal_nonneg, add_pos_normal; assumption.
Qed.

Lemma add_pos (lo hi : Z) (a b : float) :
  -500 <= lo -> hi <= 400 ->
  pos_normal lo hi a -> pos_normal lo hi b -> pos_normal lo (hi + 2) (add a b).
Proof.
  intros Hlo Hhi Ha Hb.
  destruct a as [sa| | |[|] ma ea]; simpl in Ha; try contradiction;
    destruct b as [sb| | |[|] mb eb]; simpl in Hb; try contradiction.
  destruct Ha as [Ma Ea], Hb as [Mb Eb].
  apply add_pos_normal; assumption.
Qed.

Lemma div_normal (s1 s2 : bool) (m1 m2 : positive) (e1 e2 : Z) :
  digits m1 = 53 -> digits m2 = 53 ->
  -400 <= e1 <= 400 -> -400 <= e2 <= 400 ->
  exists m e,
    div (S754_finite s1 m1 e1) (S754_finite s2 m2 e2)
    = S754_finite (xorb s1 s2) m e /\
    digits m = 53 /\ e1 - e2 - 53 <= e <= e1 - e2 - 51.
Proof.
  intros D1 D2 E1 E2.
  unfold div, SFdiv, SFdiv_core_binary.
  change (Zdigits2 (Zpos m1)) with (digits m1).
  change (Zdigits2 (Zpos m2)) with (digits m2).
  rewrite D1, D2.
  replace (Z.min (fexp prec emax (53 + e1 - (53 + e2))) (e1 - e2))
    with (e1 - e2 - 53) by (unfold fexp, emin, prec, emax; lia).
  replace (e1 - e2 - (e1 - e2 - 53)) with 53 by lia.
  cbv iota.
  rewrite Z.shiftl_mul_pow2 by lia.
  apply digits_53 in D1, D2.
  pose proof (Z_div_mod (Zpos m1 * 2 ^ 53) (Zpos m2) ltac:(lia)) as Hdm.
  destruct (Z.div_eucl (Zpos m1 * 2 ^ 53) (Zpos m2)) as [q r].
  destruct Hdm as [Hq Hr].
  assert (Bq : 2 ^ 52 <= q < 2 ^ 54).
  { change (2 ^ 54) with (2 * 2 ^ 53) in *. nia. }
  destruct q as [|qp|qp]; try lia.
  assert (Hd : 53 <= digits qp <= 54)
    by (apply (digits_range qp 52 54); [lia | exact Bq]).
  destruct (round_aux_normal (xorb s1 s2) qp (e1 - e2 - 53) (new_location (Zpos m2) r))
    as (m & e & -> & Hm & He); [lia | lia |].
  exists m, e; split; [reflexivity|]; split; [exact Hm | lia].
Qed.

Lemma div_nonneg (lo1 hi1 lo2 hi2 : Z) (a b : float) :
  -400 <= lo1 -> hi1 <= 400 -> -400 <= lo2 -> hi2 <= 400 ->
  nonneg lo1 hi1 a -> pos_normal lo2 hi2 b ->
  nonneg (lo1 - hi2 - 53) (hi1 - lo2 - 51) (div a b).
Proof.
  intros L1 H1 L2 H2 Ha Hb.
  destruct b as [sb| | |[|] mb eb]; simpl in Hb; try contradiction.
  destruct Hb as [Mb Eb].
  destruct a as [sa| | |[|] ma ea]; simpl in Ha; try contradiction.
  - destruct sa; exact I.
  - destruct Ha as [Ma Ea].
    destruct (div_normal false false ma mb ea eb Ma Mb ltac:(lia) ltac:(lia))
      as (m & e & -> & Hm & He).
    simpl; split; [exact Hm | lia].
Qed.

Lemma sqrt_normal (m : positive) (e : Z) :
  digits m = 53 -> -400 <= e <= 400 ->
  exists m' e',
    sqrt (S754_finite false m e) = S754_finite false m' e' /\
    digits m' = 53 /\ e / 2 - 26 <= e' <= e / 2 - 25.
Proof.
  intros Dm He.
  unfold sqrt, SFsqrt, SFsqrt_core_binary.
  change (Zdigits2 (Zpos m)) with (digits m).
  rewrite Dm, !Z.div2_div.
  assert (E1 : (53 + e + 1) / 2 = e / 2 + 27)
    by (Z.to_euclidean_division_equations; lia).
  rewrite E1.
  replace (Z.min (fexp prec emax (e / 2 + 27)) (e / 2)) with (e / 2 - 26)
    by (unfold fexp, emin, prec, emax; Z.to_euclidean_division_equations; lia).
  set (s := e - 2 * (e / 2 - 26)).
  assert (Hs : s = 52 \/ s = 53)
    by (unfold s; Z.to_euclidean_division_equations; lia).
  apply digits_53 in Dm.
  assert (Hm' : match s with
                | Zpos _ => Z.shiftl (Zpos m) s
                | Z0 => Zpos m
                | Zneg _ => Z0
                end = Zpos m * 2 ^ s).
  { destruct Hs as [-> | ->]; rewrite Z.shiftl_mul_pow2 by lia; reflexivity. }
  rewrite Hm'.
  pose proof (Z.sqrtrem_sqrt (Zpos m * 2 ^ s)) as Hq.
  pose proof (Z.sqrt_spec (Zpos m * 2 ^ s) ltac:(destruct Hs as [-> | ->]; lia)) as Hsq.
  destruct (Z.sqrtrem (Zpos m * 2 ^ s)) as [q r]; cbn [fst] in Hq; subst q.
  set (q := Z.sqrt (Zpos m * 2 ^ s)) in *.
  assert (Bq : 2 ^ 52 <= q < 2 ^ 53).
  { unfold Z.succ in Hsq.
    destruct Hs as [-> | ->]; split; try nia. }
  destruct q as [|qp|qp] eqn:Eq; try lia.
  assert (Hd : digits qp = 53) by (apply digits_bounds; exact Bq).
  destruct (round_aux_normal false qp (e / 2 - 26)
              (if r =? 0 then loc_Exact
               else loc_Inexact (if r <=? Zpos qp then Lt else Gt)))
    as (m' & e' & -> & Hm2 & He'); [lia | rewrite Hd; lia |].
  exists m', e'; split; [reflexivity|]; split; [exact Hm2 | lia].
Qed.

Lemma sqrt_nonneg (lo hi : Z) (a : float) :
  -400 <= lo -> hi <= 400 ->
  nonneg lo hi a -> nonneg (lo / 2 - 26) (hi / 2 - 25) (sqrt a).
Proof.
  intros Hlo Hhi Ha.
  destruct a as [sa| | |[|] ma ea]; simpl in Ha; try contradiction.
  - exact I.
  - destruct Ha as [Ma Ea].
    destruct (sqrt_normal ma ea Ma ltac:(lia)) as (m & e & -> & Hm & He).
    simpl; split; [exact Hm|].
    assert (lo / 2 <= ea / 2) by (apply Z.div_le_mono; lia).
    assert (ea / 2 <= hi / 2) by (apply Z.div_le_mono; lia).
    lia.
Qed.

Lemma sqrt_pos (lo hi : Z) (a : float) :
  -400 <= lo -> hi <= 400 ->
  pos_normal lo hi a -> pos_normal (lo / 2 - 26) (hi / 2 - 25) (sqrt a).
Proof.
  intros Hlo Hhi Ha.
  destruct a as [sa| | |[|] ma ea]; simpl in Ha; try contradiction.
  destruct Ha as [Ma Ea].
  destruct (sqrt_normal ma ea Ma ltac:(lia)) as (m & e & -> & Hm & He).
  simpl; split; [exact Hm|].
  assert (lo / 2 <= ea / 2) by (apply Z.div_le_mono; lia).
  assert (ea / 2 <= hi / 2) by (apply Z.div_le_mono; lia).
  lia.
Qed.

Lemma digits_pos (u : positive) : 1 <= digits u.
Proof. unfold digits; lia. Qed.

Lemma mant_Z (u : positive) :
  digits u <= 53 -> Zpos (mant u) = Zpos u * 2 ^ (53 - digits u).
Proof.
  intros H; unfold mant; rewrite Z2Pos.id; [reflexivity|].
  apply Z.mul_pos_pos; [lia | apply Z.pow_pos_nonneg; lia].
Qed.

Lemma digits_mant (u : positive) : digits u <= 53 -> digits (mant u) = 53.
Proof.
  intros H; apply digits_bounds; rewrite mant_Z by exact H.
  assert (Hu : 2 ^ (digits u - 1) <= Zpos u < 2 ^ digits u)
    by (apply digits_bounds; reflexivity).
  pose proof (digits_pos u).
  assert (0 < 2 ^ (53 - digits u)) by (apply Z.pow_pos_nonneg; lia).
  replace (2 ^ (53 - 1)) with (2 ^ (digits u - 1) * 2 ^ (53 - digits u))
    by (rewrite <- Z.pow_add_r by lia; f_equal; lia).
  replace (2 ^ 53) with (2 ^ digits u * 2 ^ (53 - digits u))
    by (rewrite <- Z.pow_add_r by lia; f_equal; lia).
  nia.
Qed.

Lemma digits_shift (u : positive) (t : Z) (M : positive) :
  0 <= t -> Zpos M = Zpos u * 2 ^ t -> digits M = digits u + t.
Proof.
  intros Ht HM; apply digits_bounds; rewrite HM.
  assert (Hu : 2 ^ (digits u - 1) <= Zpos u < 2 ^ digits u)
    by (apply digits_bounds; reflexivity).
  pose proof (digits_pos u).
  assert (0 < 2 ^ t) by (apply Z.pow_pos_nonneg; lia).
  replace (digits u + t - 1) with (digits u - 1 + t) by lia.
  rewrite !Z.pow_add_r by lia; nia.
Qed.

Lemma binary_round_exact (s : bool) (u : positive) (t e : Z) (M : positive) :
  digits u <= 53 -> 0 <= t -> -1000 <= e + t <= 900 ->
  Zpos M = Zpos u * 2 ^ t ->
  binary_round prec emax s M e = fl s u (e + t).
Proof.
  intros Hu Ht He HM.
  pose proof (digits_pos u) as Hu1.
  pose proof (digits_shift u t M Ht HM) as HdM.
  pose proof (mant_Z u Hu) as Hmant.
  pose proof (digits_mant u Hu) as Hdm.
  unfold binary_round, fl.
  change (Zpos (digits2_pos M)) with (digits M).
  rewrite fexp_normal by lia.
  destruct (Z.le_gt_cases (digits M) 53) as [Hle | Hgt].
  - destruct (shl_align_Z M e (digits M + e - 53) ltac:(lia)) as [A1 A2].
    destruct (shl_align M e (digits M + e - 53)) as [mz ez]; cbn [fst snd] in A1, A2.
    subst ez.
    assert (Emz : mz = mant u).
    { apply Pos2Z.inj; rewrite A1, Hmant, HM, <- Z.mul_assoc, <- Z.pow_add_r by lia.
      do 2 f_equal; lia. }
    rewrite Emz.
    replace (Zpos (mant u)) with (Zpos (mant u) * 2 ^ 0) by (rewrite Z.pow_0_r; lia).
    rewrite round_aux_exact by lia.
    f_equal; lia.
  - unfold shl_align.
    destruct (digits M + e - 53 - e) as [|d|d] eqn:E; try lia.
    replace (Zpos M) with (Zpos (mant u) * 2 ^ (digits M - 53))
      by (rewrite Hmant, HM, <- Z.mul_assoc, <- Z.pow_add_r by lia; do 2 f_equal; lia).
    rewrite round_aux_exact by lia.
    f_equal; lia.
Qed.

Lemma normalize_exact (s : bool) (u : positive) (t e : Z) :
  digits u <= 53 -> 0 <= t -> -1000 <= e + t <= 900 ->
  binary_normalize prec emax (cond_Zopp s (Zpos u * 2 ^ t)) e false
  = fl s u (e + t).
Proof.
  intros Hu Ht He.
  assert (Hp : 0 < Zpos u * 2 ^ t)
    by (apply Z.mul_pos_pos; [lia | apply Z.pow_pos_nonneg; lia]).
  destruct (Zpos u * 2 ^ t) as [|M|M] eqn:EM; try lia.
  destruct s; cbn [cond_Zopp Z.opp binary_normalize];
    apply binary_round_exact; auto.
Qed.

Lemma of_int_pos (p : positive) :
  digits p <= 53 -> of_int (Zpos p) = fl false p 0.
Proof.
  intros Hp; unfold of_int.
  change (Zpos p) with (cond_Zopp false (Zpos p)).
  replace (Zpos p) with (Zpos p * 2 ^ 0) by (rewrite Z.pow_0_r; lia).
  rewrite normalize_exact by lia; reflexivity.
Qed.

Lemma trunc_fl (p : positive) :
  digits p <= 53 -> trunc (fl false p 0) = Some (Zpos p).
Proof.
  intros Hp; unfold trunc, fl; cbn [cond_Zopp].
  pose proof (mant_Z p Hp) as Hm.
  pose proof (digits_pos p).
  destruct (0 - (53 - digits p)) as [|k|k] eqn:E; try lia.
  - rewrite Hm; replace (53 - digits p) with 0 by lia.
    rewrite Z.pow_0_r; f_equal; lia.
  - rewrite Hm; replace (Zpos k) with (53 - digits p) by lia.
    rewrite Z.div_mul; [reflexivity|].
    apply Z.pow_nonzero; lia.
Qed.

Lemma fl_double (s : bool) (u : positive) (a : Z) :
  digits u <= 52 -> fl s (u~0) (a - 1) = fl s u a.
Proof.
  intros Hu; unfold fl, mant.
  assert (Hd : digits (u~0) = digits u + 1)
    by (unfold digits; cbn [digits2_pos]; lia).
  rewrite Hd, Pos2Z.inj_xO.
  f_equal; [|lia].
  f_equal.
  replace (53 - digits u) with (Z.succ (53 - (digits u + 1))) by lia.
  rewrite Z.pow_succ_r by lia; lia.
Qed.

Lemma add_finite (s1 s2 : bool) (m1 m2 : positive) (e1 e2 : Z) :
  add (S754_finite s1 m1 e1) (S754_finite s2 m2 e2) =
  binary_normalize prec emax
    (cond_Zopp s1 (Zpos m1 * 2 ^ (e1 - Z.min e1 e2))
     + cond_Zopp s2 (Zpos m2 * 2 ^ (e2 - Z.min e1 e2)))
    (Z.min e1 e2) false.
Proof.
  unfold add, SFadd.
  destruct (shl_align_Z m1 e1 (Z.min e1 e2) ltac:(lia)) as [-> _].
  destruct (shl_align_Z m2 e2 (Z.min e1 e2) ltac:(lia)) as [-> _].
  reflexivity.
Qed.

Lemma sub_finite (s1 s2 : bool) (m1 m2 : positive) (e1 e2 : Z) :
  sub (S754_finite s1 m1 e1) (S754_finite s2 m2 e2) =
  binary_normalize prec emax
    (cond_Zopp s1 (Zpos m1 * 2 ^ (e1 - Z.min e1 e2))
     - cond_Zopp s2 (Zpos m2 * 2 ^ (e2 - Z.min e1 e2)))
    (Z.min e1 e2) false.
Proof.
  unfold sub, SFsub.
  destruct (shl_align_Z m1 e1 (Z.min e1 e2) ltac:(lia)) as [-> _].
  destruct (shl_align_Z m2 e2 (Z.min e1 e2) ltac:(lia)) as [-> _].
  reflexivity.
Qed.

Lemma fl_aligned (u : positive) (a ez : Z) :
  digits u <= 53 -> ez <= a - (53 - digits u) ->
  Zpos (mant u) * 2 ^ (a - (53 - digits u) - ez) = Zpos u * 2 ^ (a - ez).
Proof.
  intros Hu Hez; rewrite mant_Z by exact Hu.
  pose proof (digits_pos u).
  rewrite <- Z.mul_assoc, <- Z.pow_add_r by lia.
  do 2 f_equal; lia.
Qed.

Lemma cond_Zopp_mul (s : bool) (a b : Z) :
  cond_Zopp s a * b = cond_Zopp s (a * b).
Proof. destruct s; simpl; lia. Qed.

(** Sums and differences of two numbers on the same grid [2^a], when the
    result has at most 53 digits. *)
Lemma add_fl (s1 s2 s : bool) (u1 u2 k : positive) (a : Z) :
  digits u1 <= 53 -> digits u2 <= 53 -> digits k <= 53 ->
  -900 <= a <= 900 ->
  cond_Zopp s1 (Zpos u1) + cond_Zopp s2 (Zpos u2) = cond_Zopp s (Zpos k) ->
  add (fl s1 u1 a) (fl s2 u2 a) = fl s k a.
Proof.
  intros H1 H2 Hk Ha Hsum; unfold fl at 1 2; rewrite add_finite.
  set (ez := Z.min (a - (53 - digits u1)) (a - (53 - digits u2))).
  rewrite !fl_aligned by (unfold ez; lia).
  rewrite <- !cond_Zopp_mul, <- Z.mul_add_distr_r, Hsum, cond_Zopp_mul.
  pose proof (digits_pos u1); pose proof (digits_pos u2).
  rewrite normalize_exact by (unfold ez; lia).
  f_equal; lia.
Qed.

Lemma add_fl_zero (s1 s2 : bool) (u1 u2 : positive) (a : Z) :
  digits u1 <= 53 -> digits u2 <= 53 ->
  cond_Zopp s1 (Zpos u1) + cond_Zopp s2 (Zpos u2) = 0 ->
  add (fl s1 u1 a) (fl s2 u2 a) = S754_zero false.
Proof.
  intros H1 H2 Hsum; unfold fl; rewrite add_finite.
  set (ez := Z.min (a - (53 - digits u1)) (a - (53 - digits u2))).
  rewrite !fl_aligned by (unfold ez; lia).
  rewrite <- !cond_Zopp_mul, <- Z.mul_add_distr_r, Hsum; reflexivity.
Qed.

Lemma sub_fl (s1 s2 s : bool) (u1 u2 k : positive) (a : Z) :
  digits u1 <= 53 -> digits u2 <= 53 -> digits k <= 53 ->
  -900 <= a <= 900 ->
  cond_Zopp s1 (Zpos u1) - cond_Zopp s2 (Zpos u2) = cond_Zopp s (Zpos k) ->
  sub (fl s1 u1 a) (fl s2 u2 a) = fl s k a.
Proof.
  intros H1 H2 Hk Ha Hsum; unfold fl at 1 2; rewrite sub_finite.
  set (ez := Z.min (a - (53 - digits u1)) (a - (53 - digits u2))).
  rewrite !fl_aligned by (unfold ez; lia).
  rewrite <- !cond_Zopp_mul, <- Z.mul_sub_distr_r, Hsum, cond_Zopp_mul.
  pose proof (digits_pos u1); pose proof (digits_pos u2).
  rewrite normalize_exact by (unfold ez; lia).
  f_equal; lia.
Qed.

Lemma sub_fl_zero (s1 s2 : bool) (u1 u2 : positive) (a : Z) :
  digits u1 <= 53 -> digits u2 <= 53 ->
  cond_Zopp s1 (Zpos u1) - cond_Zopp s2 (Zpos u2) = 0 ->
  sub (fl s1 u1 a) (fl s2 u2 a) = S754_zero false.
Proof.
  intros H1 H2 Hsum; unfold fl; rewrite sub_finite.
  set (ez := Z.min (a - (53 - digits u1)) (a - (53 - digits u2))).
  rewrite !fl_aligned by (unfold ez; lia).
  rewrite <- !cond_Zopp_mul, <- Z.mul_sub_distr_r, Hsum; reflexivity.
Qed.

(** Division by a power of two only moves the exponent. *)
Lemma div_by_pow2 (s : bool) (m : positive) (e e2 : Z) :
  digits m = 53 -> -400 <= e <= 400 -> -400 <= e2 <= 400 ->
  div (S754_finite s m e) (S754_finite false (2 ^ 52)%positive e2)
  = S754_finite s m (e - e2 - 52).
Proof.
  intros Dm He He2.
  unfold div, SFdiv, SFdiv_core_binary.
  change (Zdigits2 (Zpos m)) with (digits m).
  change (Zdigits2 (Zpos (2 ^ 52))) with 53.
  rewrite Dm.
  replace (Z.min (fexp prec emax (53 + e - (53 + e2))) (e - e2))
    with (e - e2 - 53) by (unfold fexp, emin, prec, emax; lia).
  replace (e - e2 - (e - e2 - 53)) with 53 by lia.
  cbv iota.
  rewrite Z.shiftl_mul_pow2 by lia.
  pose proof (Z_div_mod (Zpos m * 2 ^ 53) (Zpos (2 ^ 52)) ltac:(lia)) as Hdm.
  destruct (Z.div_eucl (Zpos m * 2 ^ 53) (Zpos (2 ^ 52))) as [q r].
  destruct Hdm as [Hq Hr].
  change (Zpos (2 ^ 52)) with 4503599627370496 in *.
  change (2 ^ 53) with 9007199254740992 in *.
  assert (q = Zpos m * 2 ^ 1 /\ r = 0) as [-> ->] by (rewrite Z.pow_1_r; lia).
  change (new_location 4503599627370496 0) with loc_Exact.
  rewrite xorb_false_r, round_aux_exact by lia.
  f_equal; lia.
Qed.

Lemma digits_below (p : positive) (b : Z) :
  0 <= b -> Zpos p < 2 ^ b -> digits p <= b.
Proof.
  intros Hb Hp.
  apply (digits_range p 0 b); [lia|].
  rewrite Z.pow_0_r; lia.
Qed.

Lemma fl_normal (s : bool) (u : positive) (a : Z) :
  digits u <= 53 -> normal (a - 52) a (fl s u a).
Proof.
  intros Hu; unfold fl, normal; split; [apply digits_mant; exact Hu|].
  pose proof (digits_pos u); lia.
Qed.

Lemma of_int_two : of_int 2 = S754_finite false (2 ^ 52)%positive (-51).
Proof. reflexivity. Qed.

Lemma one_eq : one = S754_finite false (2 ^ 52)%positive (-52).
Proof. reflexivity. Qed.

Lemma center_fl (n : positive) :
  digits n <= 53 -> center (Zpos n) = fl false n (-1).
Proof.
  intros Hn; unfold center.
  rewrite of_int_pos, of_int_two by exact Hn.
  unfold fl; pose proof (digits_pos n).
  rewrite div_by_pow2 by (try apply digits_mant; lia).
  f_equal; lia.
Qed.

Lemma div_one_fl (s : bool) (k : positive) :
  digits k <= 53 -> div (fl s k (-1)) one = fl s k (-1).
Proof.
  intros Hk; rewrite one_eq; unfold fl; pose proof (digits_pos k).
  rewrite div_by_pow2 by (try apply digits_mant; lia).
  f_equal; lia.
Qed.

(** The offset [x - n / 2] of a coordinate from the centre is computed
    exactly: it is zero, or the number [(2 x - n) / 2]. *)
Lemma offset_form (n x : Z) :
  0 <= x < n -> n <= 2 ^ 52 ->
  (2 * x = n /\ sub (of_int x) (center n) = S754_zero false) \/
  (exists s k,
     digits k <= 53 /\ cond_Zopp s (Zpos k) = 2 * x - n /\
     sub (of_int x) (center n) = fl s k (-1)).
Proof.
  intros Hx Hn.
  destruct n as [|pn|pn]; try lia.
  assert (Dn : digits pn <= 53)
    by (apply digits_below; [lia | change (2 ^ 53) with (2 * 2 ^ 52); lia]).
  rewrite center_fl by exact Dn.
  destruct x as [|px|px]; try lia.
  - right; exists true, pn; split; [exact Dn|]; split; [simpl; lia | reflexivity].
  - assert (Dx : digits px <= 52) by (apply digits_below; lia).
    assert (Dx2 : digits (px~0) <= 53)
      by (unfold digits in *; cbn [digits2_pos]; lia).
    rewrite of_int_pos by lia.
    rewrite <- (fl_double false px 0) by exact Dx.
    change (0 - 1) with (-1).
    destruct (Z.eq_dec (2 * Zpos px) (Zpos pn)) as [E | E].
    + left; split; [exact E|].
      apply sub_fl_zero; try assumption.
      cbn [cond_Zopp]; lia.
    + right.
      exists (2 * Zpos px <? Zpos pn), (Z.to_pos (Z.abs (2 * Zpos px - Zpos pn))).
      assert (Hk : Zpos (Z.to_pos (Z.abs (2 * Zpos px - Zpos pn)))
                   = Z.abs (2 * Zpos px - Zpos pn))
        by (apply Z2Pos.id; lia).
      assert (Dk : digits (Z.to_pos (Z.abs (2 * Zpos px - Zpos pn))) <= 53).
      { apply digits_below; [lia|]; rewrite Hk.
        change (2 ^ 53) with (2 * 2 ^ 52); lia. }
      assert (Hc : cond_Zopp (2 * Zpos px <? Zpos pn)
                     (Zpos (Z.to_pos (Z.abs (2 * Zpos px - Zpos pn))))
                   = 2 * Zpos px - Zpos pn).
      { rewrite Hk; destruct (Z.ltb_spec (2 * Zpos px) (Zpos pn)); simpl; lia. }
      split; [exact Dk|]; split; [exact Hc|].
      apply sub_fl; try assumption; try lia.
      rewrite Hc; cbn [cond_Zopp]; lia.
Qed.

Lemma of_int_as_half (x : positive) :
  digits x <= 52 -> of_int (Zpos x) = fl false (x~0) (-1).
Proof.
  intros Dx; rewrite of_int_pos by lia.
  rewrite <- (fl_double false x 0) by exact Dx; reflexivity.
Qed.

(** With a distortion factor of one the source coordinate is the
    destination coordinate. *)
Lemma source_coord_one (n x : Z) :
  0 <= x < n -> n <= 2 ^ 52 -> source_coord n one x = of_int x.
Proof.
  intros Hx Hn; unfold source_coord.
  destruct (offset_form n x Hx Hn) as [[E ->] | (s & k & Dk & Hc & ->)].
  - change (div (S754_zero false) one) with (S754_zero false).
    destruct n as [|pn|pn]; try lia.
    destruct x as [|px|px]; try lia.
    assert (pn = px~0)%positive as -> by lia.
    assert (Dx : digits px <= 52) by (apply digits_below; lia).
    rewrite center_fl by (unfold digits in *; cbn [digits2_pos]; lia).
    rewrite of_int_as_half by exact Dx; reflexivity.
  - rewrite div_one_fl by exact Dk.
    destruct n as [|pn|pn]; try lia.
    assert (Dn : digits pn <= 53)
      by (apply digits_below; [lia | change (2 ^ 53) with (2 * 2 ^ 52); lia]).
    rewrite center_fl by exact Dn.
    destruct x as [|px|px]; try lia.
    + apply add_fl_zero; try assumption.
      cbn [cond_Zopp]; lia.
    + assert (Dx : digits px <= 52) by (apply digits_below; lia).
      rewrite of_int_as_half by exact Dx.
      apply add_fl; try assumption; try lia.
      * unfold digits in *; cbn [digits2_pos]; lia.
      * cbn [cond_Zopp]; lia.
Qed.

Lemma trunc_of_int (x : Z) : 0 <= x < 2 ^ 53 -> trunc (of_int x) = Some x.
Proof.
  intros Hx; destruct x as [|px|px]; try lia; [reflexivity|].
  assert (Dx : digits px <= 53) by (apply digits_below; lia).
  rewrite of_int_pos by exact Dx; apply trunc_fl; exact Dx.
Qed.

Lemma sub_of_int_self (x : Z) :
  0 <= x < 2 ^ 53 -> sub (of_int x) (of_int x) = S754_zero false.
Proof.
  intros Hx; destruct x as [|px|px]; try lia; [reflexivity|].
  assert (Dx : digits px <= 53) by (apply digits_below; lia).
  rewrite of_int_pos by exact Dx.
  apply sub_fl_zero; try assumption; lia.
Qed.

Lemma normal_zero_or_normal (lo hi : Z) (f : float) :
  normal lo hi f -> zero_or_normal lo hi f.
Proof. destruct f; simpl; auto. Qed.

Lemma nonneg_zero_or_normal (lo hi : Z) (f : float) :
  nonneg lo hi f -> zero_or_normal lo hi f.
Proof. destruct f as [| | |[|] m e]; simpl; tauto. Qed.

Lemma normal_weaken (lo hi lo' hi' : Z) (f : float) :
  lo' <= lo -> hi <= hi' -> normal lo hi f -> normal lo' hi' f.
Proof. destruct f; simpl; auto; intros ? ? [? ?]; split; [assumption | lia]. Qed.

Lemma nonneg_weaken (lo hi lo' hi' : Z) (f : float) :
  lo' <= lo -> hi <= hi' -> nonneg lo hi f -> nonneg lo' hi' f.
Proof.
  destruct f as [| | |[|] m e]; simpl; auto; intros ? ? [? ?];
    split; [assumption | lia].
Qed.

Lemma pos_normal_weaken (lo hi lo' hi' : Z) (f : float) :
  lo' <= lo -> hi <= hi' -> pos_normal lo hi f -> pos_normal lo' hi' f.
Proof.
  destruct f as [| | |[|] m e]; simpl; auto; intros ? ? [? ?];
    split; [assumption | lia].
Qed.

Lemma offset_class (n x : Z) :
  0 <= x < n -> n <= 2 ^ 52 ->
  zero_or_normal (-60) 0 (sub (of_int x) (center n)).
Proof.
  intros Hx Hn.
  destruct (offset_form n x Hx Hn) as [[_ ->] | (s & k & Dk & _ & ->)];
    [exact I|].
  apply normal_zero_or_normal, (normal_weaken (-1 - 52) (-1)); try lia.
  apply fl_normal; exact Dk.
Qed.

Lemma center_class (n : Z) :
  0 < n <= 2 ^ 52 -> pos_normal (-60) 0 (center n).
Proof.
  intros Hn; destruct n as [|pn|pn]; try lia.
  assert (Dn : digits pn <= 53)
    by (apply digits_below; [lia | change (2 ^ 53) with (2 * 2 ^ 52); lia]).
  rewrite center_fl by exact Dn.
  pose proof (fl_normal false pn (-1) Dn) as H.
  unfold fl in *; simpl in *; destruct H; split; [assumption | lia].
Qed.

(** At strength zero the distortion factor is exactly one: the squared
    ratio of distances is a finite number, so its product with zero is
    zero. *)
Lemma distortion_zero (w h x y : Z) :
  0 <= x < w -> 0 <= y < h -> w <= 2 ^ 52 -> h <= 2 ^ 52 ->
  distortion w h zero x y = one.
Proof.
  intros Hx Hy Hw Hh; unfold distortion, max_distance.
  assert (Px : nonneg (-68) 54 (pow2 (sub (of_int x) (center w))))
    by (apply (pow2_nonneg (-60) 0); [lia | lia | apply offset_class; assumption]).
  assert (Py : nonneg (-68) 54 (pow2 (sub (of_int y) (center h))))
    by (apply (pow2_nonneg (-60) 0); [lia | lia | apply offset_class; assumption]).
  pose proof (add_nonneg (-68) 54 _ _ ltac:(lia) ltac:(lia) Px Py) as Sxy.
  assert (Dist : nonneg (-60) 3
                   (sqrt (add (pow2 (sub (of_int x) (center w)))
                              (pow2 (sub (of_int y) (center h))))))
    by (exact (sqrt_nonneg (-68) (54 + 2) _ ltac:(lia) ltac:(lia) Sxy)).
  assert (Nw : normal (-60) 0 (center w)).
  { pose proof (center_class w ltac:(lia)) as Cw.
    destruct (center w) as [| | |[|] m e]; simpl in *; auto; contradiction. }
  assert (Nh : normal (-60) 0 (center h)).
  { pose proof (center_class h ltac:(lia)) as Ch.
    destruct (center h) as [| | |[|] m e]; simpl in *; auto; contradiction. }
  assert (Qw : pos_normal (-68) 54 (pow2 (center w)))
    by (apply (pow2_pos (-60) 0); [lia | lia | exact Nw]).
  assert (Qh : pos_normal (-68) 54 (pow2 (center h)))
    by (apply (pow2_pos (-60) 0); [lia | lia | exact Nh]).
  pose proof (add_pos (-68) 54 _ _ ltac:(lia) ltac:(lia) Qw Qh) as Sc.
  assert (Maxd : pos_normal (-60) 3 (sqrt (add (pow2 (center w)) (pow2 (center h)))))
    by (exact (sqrt_pos (-68) (54 + 2) _ ltac:(lia) ltac:(lia) Sc)).
  pose proof (div_nonneg (-60) 3 (-60) 3 _ _ ltac:(lia) ltac:(lia) ltac:(lia)
                ltac:(lia) Dist Maxd) as Ratio.
  apply nonneg_zero_or_normal in Ratio.
  pose proof (pow2_nonneg (-60 - 3 - 53) (3 - -60 - 51) _ ltac:(lia) ltac:(lia) Ratio) as Sq.
  set (t := pow2 (div _ _)) in *.
  destruct t as [st| | |[|] mt et]; simpl in Sq; try contradiction; reflexivity.
Qed.

Lemma mul_one_normal (s : bool) (m : positive) (e : Z) :
  digits m = 53 -> -400 <= e <= 400 ->
  mul one (S754_finite s m e) = S754_finite s m e.
Proof.
  intros Dm He; rewrite one_eq; unfold mul, SFmul.
  replace (Zpos (2 ^ 52 * m)) with (Zpos m * 2 ^ 52) by lia.
  rewrite round_aux_exact by lia.
  cbn [xorb]; f_equal; lia.
Qed.

(** Interpolating with both fractions zero returns the first corner. *)
Lemma bilinear_zero (p00 p10 p01 p11 : Z) :
  0 <= p00 < 2 ^ 53 -> 0 <= p10 < 2 ^ 53 ->
  0 <= p01 < 2 ^ 53 -> 0 <= p11 < 2 ^ 53 ->
  bilinear (S754_zero false) (S754_zero false) p00 p10 p01 p11 = Some p00.
Proof.
  intros H00 H10 H01 H11; unfold bilinear.
  change (sub (of_int 1) (S754_zero false)) with one.
  change (mul one one) with one.
  change (mul (S754_zero false) one) with (S754_zero false).
  change (mul one (S754_zero false)) with (S754_zero false).
  change (mul (S754_zero false) (S754_zero false)) with (S754_zero false).
  assert (Hz : forall p, 0 <= p < 2 ^ 53 ->
                 mul (S754_zero false) (of_int p) = S754_zero false).
  { intros p Hp; destruct p as [|pp|pp]; try lia; [reflexivity|].
    rewrite of_int_pos by (apply digits_below; lia); reflexivity. }
  rewrite !Hz by assumption.
  assert (H1 : mul one (of_int p00) = of_int p00).
  { destruct p00 as [|pp|pp]; try lia; [reflexivity|].
    assert (Dp : digits pp <= 53) by (apply digits_below; lia).
    rewrite of_int_pos by exact Dp.
    pose proof (digits_pos pp).
    unfold fl; apply mul_one_normal; [apply digits_mant; exact Dp | lia]. }
  rewrite H1.
  assert (H2 : add (of_int p00) (S754_zero false) = of_int p00).
  { destruct p00 as [|pp|pp]; try lia; [reflexivity|].
    rewrite of_int_pos by (apply digits_below; lia); reflexivity. }
  rewrite !H2.
  apply trunc_of_int; exact H00.
Qed.

(** ** The radial warp *)

Lemma clamp_next_bounds (v n : Z) : 0 <= v < n -> 0 <= clamp_next v n < n.
Proof. unfold clamp_next; lia. Qed.

Lemma warp_pixel_size (original : image) (strength : float)
    (warped warped' : image) (y x : Z) :
  warp_pixel original strength warped y x = Some warped' ->
  width warped' = width warped /\ height warped' = height warped.
Proof.
  unfold warp_pixel; intros H; bind_inv H.
  destruct (inside _ _ _ _).
  - bind_inv H; exact (putpixel_size _ _ _ _ _ H).
  - injection H as <-; auto.
Qed.

Lemma warp_size (img : image) (strength : float) (out : image) :
  apply_crt_warp_effect img strength = Some out ->
  width out = width img /\ height out = height img.
Proof.
  unfold apply_crt_warp_effect; intros E.
  apply (foldM_preserves _
           (fun s => width s = width img /\ height s = height img) _
           (fun s y s' _ Hr Hs =>
              foldM_preserves _
                (fun s0 => width s0 = width img /\ height s0 = height img) _
                (fun s0 x s0' _ Hp Hs0 =>
                   match warp_pixel_size _ _ _ _ _ _ Hp with
                   | conj Hw Hh =>
                       conj (eq_trans Hw (proj1 Hs0)) (eq_trans Hh (proj2 Hs0))
                   end)
                _ _ Hr Hs)
           _ _ E).
  split; reflexivity.
Qed.

(** C9.  When the check [0 <= x0 < width and 0 <= y0 < height] passes,
    the clamped neighbours [x1] and [y1] are inside the image as well, the
    four reads at [(x0, y0)], [(x1, y0)], [(x0, y1)] and [(x1, y1)] return
    the pixels at exactly these coordinates, and so the body of the loop
    is the three interpolations followed by the write: no read is out of
    range. *)
Theorem warp_reads_in_bounds (original : image) (strength : float)
    (warped : image) (x y x0 y0 : Z) :
  let w := width original in
  let h := height original in
  let dist := distortion w h strength x y in
  let src_x := source_coord w dist x in
  let src_y := source_coord h dist y in
  let x1 := clamp_next x0 w in
  let y1 := clamp_next y0 h in
  let a := sub src_x (of_int x0) in
  let b := sub src_y (of_int y0) in
  trunc src_x = Some x0 -> trunc src_y = Some y0 ->
  inside w h x0 y0 = true ->
  (0 <= x1 < w /\ 0 <= y1 < h) /\
  getpixel original x0 y0 = Some (pix original x0 y0) /\
  getpixel original x1 y0 = Some (pix original x1 y0) /\
  getpixel original x0 y1 = Some (pix original x0 y1) /\
  getpixel original x1 y1 = Some (pix original x1 y1) /\
  warp_pixel original strength warped y x =
  (r <- bilinear a b (red (pix original x0 y0)) (red (pix original x1 y0))
         (red (pix original x0 y1)) (red (pix original x1 y1)) ;;
   g <- bilinear a b (green (pix original x0 y0)) (green (pix original x1 y0))
         (green (pix original x0 y1)) (green (pix original x1 y1)) ;;
   b' <- bilinear a b (blue (pix original x0 y0)) (blue (pix original x1 y0))
          (blue (pix original x0 y1)) (blue (pix original x1 y1)) ;;
   putpixel warped x y (r, g, b')).
Proof.
  intros w h dist src_x src_y x1 y1 a b Hx0 Hy0 Hin.
  pose proof (proj1 (inside_true w h x0 y0) Hin) as [Bx By].
  pose proof (clamp_next_bounds x0 w Bx) as Bx1.
  pose proof (clamp_next_bounds y0 h By) as By1.
  fold x1 in Bx1; fold y1 in By1.
  assert (R00 := getpixel_inside original x0 y0 Bx By).
  assert (R10 := getpixel_inside original x1 y0 Bx1 By).
  assert (R01 := getpixel_inside original x0 y1 Bx By1).
  assert (R11 := getpixel_inside original x1 y1 Bx1 By1).
  split; [split; assumption|].
  repeat (split; [assumption|]).
  unfold warp_pixel.
  fold w h; fold dist; fold src_x src_y.
  rewrite Hx0, Hy0; cbn [bind].
  fold x1 y1; rewrite Hin, R00, R10, R01, R11; reflexivity.
Qed.

Lemma warp_reads_in_bounds_witness :
  getpixel (gradient 4 5) (clamp_next 3 4) (clamp_next 4 5)
  = Some (pix (gradient 4 5) 3 4).
Proof.
  destruct (warp_reads_in_bounds (gradient 4 5) zero (gradient 4 5) 3 4 3 4)
    as (_ & _ & _ & _ & H & _);
    [vm_compute; reflexivity | vm_compute; reflexivity | reflexivity |].
  exact H.
Defined.

(** ** The radial warp at strength zero *)

(** At strength zero the body of the loop copies the source pixel at the
    destination coordinate. *)
Lemma warp_pixel_zero (img warped : image) (x y : Z) :
  image_ok img ->
  width img <= 2 ^ 52 -> height img <= 2 ^ 52 ->
  0 <= x < width img -> 0 <= y < height img ->
  width warped = width img -> height warped = height img ->
  warp_pixel img zero warped y x =
  Some (mkImage (width img) (height img)
          (fun u v => if (u =? x) && (v =? y) then pix img x y
                      else pix warped u v)).
Proof.
  intros Hok Hw Hh Hx Hy Ew Eh; unfold warp_pixel.
  rewrite (distortion_zero _ _ x y Hx Hy Hw Hh).
  rewrite !source_coord_one by assumption.
  assert (P52 : 2 ^ 52 < 2 ^ 53) by reflexivity.
  rewrite !trunc_of_int by lia; cbn [bind].
  rewrite !sub_of_int_self by lia.
  assert (Hin : inside (width img) (height img) x y = true)
    by (apply inside_true; auto).
  rewrite Hin.
  pose proof (clamp_next_bounds x (width img) Hx) as Bx1.
  pose proof (clamp_next_bounds y (height img) Hy) as By1.
  rewrite !getpixel_inside by assumption; cbn [bind].
  assert (Byte : forall u v c, 0 <= u < width img -> 0 <= v < height img ->
                   0 <= channel c (pix img u v) < 2 ^ 53).
  { intros u v c Hu Hv; destruct (Hok u v Hu Hv) as (Hr & Hg & Hb).
    unfold channel_ok in *; assert (255 < 2 ^ 53) by reflexivity.
    unfold channel; destruct (c =? 0); [lia|]; destruct (c =? 1); lia. }
  rewrite (bilinear_zero (red _) (red _) (red _) (red _))
    by (apply (Byte _ _ 0); assumption).
  rewrite (bilinear_zero (green _) (green _) (green _) (green _))
    by (apply (Byte _ _ 1); assumption).
  rewrite (bilinear_zero (blue _) (blue _) (blue _) (blue _))
    by (apply (Byte _ _ 2); assumption).
  cbn [bind].
  rewrite putpixel_inside by lia.
  destruct (Hok x y Hx Hy) as (Hr & Hg & Hb).
  cbn [red green blue fst snd].
  rewrite !clip8_byte by assumption.
  rewrite Ew, Eh.
  destruct (pix img x y) as [[r g] b]; reflexivity.
Qed.

(** A row of the loop at strength zero copies the source pixels of the
    columns it visits. *)
Lemma warp_cells_zero (img : image) (y : Z) (cols : list Z) :
  image_ok img ->
  width img <= 2 ^ 52 -> height img <= 2 ^ 52 ->
  0 <= y < height img ->
  (forall x, In x cols -> 0 <= x < width img) ->
  forall warped,
    width warped = width img -> height warped = height img ->
    exists warped',
      foldM (fun canvas x => warp_pixel img zero canvas y x) cols warped
      = Some warped' /\
      width warped' = width img /\ height warped' = height img /\
      forall u v,
        pix warped' u v =
        if (v =? y) && existsb (Z.eqb u) cols then pix img u v
        else pix warped u v.
Proof.
  intros Hok Hw Hh Hy; induction cols as [|x cols IH]; intros Hcols warped Ew Eh.
  - exists warped; cbn [foldM existsb]; repeat (split; [auto|]).
    intros u v; rewrite andb_false_r; reflexivity.
  - cbn [foldM].
    rewrite (warp_pixel_zero img warped x y Hok Hw Hh
               (Hcols x (or_introl eq_refl)) Hy Ew Eh).
    destruct (IH (fun x0 Hx0 => Hcols x0 (or_intror Hx0))
                (mkImage (width img) (height img)
                   (fun u v => if (u =? x) && (v =? y) then pix img x y
                               else pix warped u v))
                eq_refl eq_refl) as (warped' & E & Ew' & Eh' & Hpix).
    exists warped'; split; [exact E|]; split; [exact Ew'|]; split; [exact Eh'|].
    intros u v; rewrite Hpix; cbn [pix existsb].
    destruct (Z.eqb_spec v y) as [-> | Nv]; cbn [andb].
    + destruct (existsb (Z.eqb u) cols); [rewrite orb_true_r; reflexivity|].
      rewrite orb_false_r.
      destruct (Z.eqb_spec x u) as [-> | Nx].
      * rewrite !Z.eqb_refl; reflexivity.
      * destruct (Z.eqb_spec u x); [congruence | reflexivity].
    + rewrite andb_false_r; reflexivity.
Qed.

Lemma existsb_range (n u : Z) :
  existsb (Z.eqb u) (range n) = (0 <=? u) && (u <? n).
Proof.
  destruct (existsb (Z.eqb u) (range n)) eqn:E.
  - apply existsb_exists in E; destruct E as [k [Hk Ek]].
    apply Z.eqb_eq in Ek; subst k; apply In_range in Hk.
    symmetry; apply andb_true_iff; split; [apply Z.leb_le | apply Z.ltb_lt]; lia.
  - destruct (Z.leb_spec 0 u); [|reflexivity].
    destruct (Z.ltb_spec u n); [|reflexivity].
    assert (existsb (Z.eqb u) (range n) = true); [|congruence].
    apply existsb_exists; exists u; split; [apply In_range; lia | apply Z.eqb_refl].
Qed.

Lemma warp_rows_zero (img : image) (rows_ : list Z) :
  image_ok img ->
  width img <= 2 ^ 52 -> height img <= 2 ^ 52 ->
  (forall y, In y rows_ -> 0 <= y < height img) ->
  forall warped,
    width warped = width img -> height warped = height img ->
    exists warped',
      foldM (warp_row img zero) rows_ warped = Some warped' /\
      width warped' = width img /\ height warped' = height img /\
      forall u v,
        pix warped' u v =
        if existsb (Z.eqb v) rows_ && ((0 <=? u) && (u <? width img))
        then pix img u v
        else pix warped u v.
Proof.
  intros Hok Hw Hh; induction rows_ as [|y rows_ IH]; intros Hrows warped Ew Eh.
  - exists warped; cbn [foldM existsb andb]; auto.
  - cbn [foldM]; unfold warp_row at 1.
    destruct (warp_cells_zero img y (range (width img)) Hok Hw Hh
                (Hrows y (or_introl eq_refl))
                (fun x Hx => proj1 (In_range _ _) Hx) warped Ew Eh)
      as (w1 & E1 & Ew1 & Eh1 & P1).
    rewrite E1.
    destruct (IH (fun y0 Hy0 => Hrows y0 (or_intror Hy0)) w1 Ew1 Eh1)
      as (warped' & E & Ew' & Eh' & Hpix).
    exists warped'; split; [exact E|]; split; [exact Ew'|]; split; [exact Eh'|].
    intros u v; rewrite Hpix, P1, existsb_range; cbn [existsb].
    destruct (existsb (Z.eqb v) rows_); cbn [andb orb].
    + rewrite orb_true_r; cbn [andb].
      destruct ((0 <=? u) && (u <? width img)); [reflexivity|].
      rewrite andb_false_r; reflexivity.
    + rewrite orb_false_r; reflexivity.
Qed.

(** C6.  For every 8-bit RGB image (of a width and height up to 2^52;
    Pillow's own limit is 2^31), the radial warp with strength 0 returns an
    image, and that image is the input: the distortion factor is exactly
    one, the source coordinate is the destination coordinate, both
    interpolation fractions are zero, and each output pixel is the input
    pixel at the same place. *)
Theorem warp_zero_strength_identity (img : image) :
  image_ok img ->
  width img <= 2 ^ 52 -> height img <= 2 ^ 52 ->
  of_int 0 = zero /\
  (forall x y, 0 <= x < width img -> 0 <= y < height img ->
     distortion (width img) (height img) zero x y = one /\
     source_coord (width img) one x = of_int x /\
     source_coord (height img) one y = of_int y) /\
  exists out,
    apply_crt_warp_effect img zero = Some out /\ same_image out img.
Proof.
  intros Hok Hw Hh; split; [reflexivity|]; split.
  - intros x y Hx Hy; split; [apply distortion_zero; assumption|].
    split; apply source_coord_one; assumption.
  - unfold apply_crt_warp_effect.
    destruct (warp_rows_zero img (range (height img)) Hok Hw Hh
                (fun y Hy => proj1 (In_range _ _) Hy)
                (Image_new (width img) (height img)) eq_refl eq_refl)
      as (out & E & Ew & Eh & Hpix).
    exists out; split; [exact E|].
    split; [exact Ew|]; split; [exact Eh|].
    intros x y Hx Hy; rewrite Hpix, existsb_range.
    rewrite Ew in Hx; rewrite Eh in Hy.
    destruct (Z.leb_spec 0 y); [|lia].
    destruct (Z.ltb_spec y (height img)); [|lia].
    destruct (Z.leb_spec 0 x); [|lia].
    destruct (Z.ltb_spec x (width img)); [|lia].
    reflexivity.
Qed.

Lemma warp_zero_strength_identity_witness :
  exists out,
    apply_crt_warp_effect (gradient 4 5) zero = Some out /\
    same_image out (gradient 4 5).
Proof.
  destruct (warp_zero_strength_identity (gradient 4 5)) as (_ & _ & H);
    [apply image_ok_gradient | vm_compute; discriminate
     | vm_compute; discriminate |].
  exact H.
Defined.

(** ** Sizes *)

(** C8.  The radial warp (whenever it returns an image, which it does at
    strength zero), the channel-shift filter and the corner mask (whatever
    Pillow's rounded-rectangle and paste routines compute) give an image
    of the width and height of their input. *)
Theorem filters_preserve_size (img : image) :
  (forall strength out,
     apply_crt_warp_effect img strength = Some out ->
     width out = width img /\ height out = height img) /\
  (image_ok img -> width img <= 2 ^ 52 -> height img <= 2 ^ 52 ->
   exists out,
     apply_crt_warp_effect img zero = Some out /\
     width out = width img /\ height out = height img) /\
  (forall shift_amount intensity,
     width (apply_refined_glitch_effect img shift_amount intensity) = width img /\
     height (apply_refined_glitch_effect img shift_amount intensity) = height img) /\
  (forall rounded_rectangle paste_pixel radius,
     width (round_corners rounded_rectangle paste_pixel img radius) = width img /\
     height (round_corners rounded_rectangle paste_pixel img radius) = height img).
Proof.
  split; [|split; [|split]].
  - intros strength out E; exact (warp_size img strength out E).
  - intros Hok Hw Hh; unfold apply_crt_warp_effect.
    destruct (warp_rows_zero img (range (height img)) Hok Hw Hh
                (fun y Hy => proj1 (In_range _ _) Hy)
                (Image_new (width img) (height img)) eq_refl eq_refl)
      as (out & E & Ew & Eh & _).
    exists out; auto.
  - intros shift_amount intensity; split; reflexivity.
  - intros rounded_rectangle paste_pixel radius; split; reflexivity.
Qed.

(** * Further properties of the filters, the pipeline and the output path *)

(** ** More binary64 facts *)

Lemma mul_zero_of_int (p : Z) :
  0 <= p < 2 ^ 53 -> mul zero (of_int p) = zero.
Proof.
  intros Hp; destruct p as [|pp|pp]; try lia; [reflexivity|].
  rewrite of_int_pos by (apply digits_below; lia); reflexivity.
Qed.

Lemma mul_one_of_int (p : Z) :
  0 <= p < 2 ^ 53 -> mul one (of_int p) = of_int p.
Proof.
  intros Hp; destruct p as [|pp|pp]; try lia; [reflexivity|].
  assert (Dp : digits pp <= 53) by (apply digits_below; lia).
  rewrite of_int_pos by exact Dp.
  pose proof (digits_pos pp).
  unfold fl; apply mul_one_normal; [apply digits_mant; exact Dp | lia].
Qed.

Lemma add_of_int_zero (p : Z) :
  0 <= p < 2 ^ 53 -> add (of_int p) zero = of_int p /\ add zero (of_int p) = of_int p.
Proof.
  intros Hp; destruct p as [|pp|pp]; try lia; [split; reflexivity|].
  rewrite of_int_pos by (apply digits_below; lia); split; reflexivity.
Qed.

Lemma to_uint8_of_int (p : Z) : 0 <= p <= 255 -> to_uint8 (of_int p) = p.
Proof.
  intros Hp; unfold to_uint8.
  assert (255 < 2 ^ 53) by reflexivity.
  rewrite trunc_of_int by lia.
  apply Z.mod_small; lia.
Qed.

(** Blending at intensity 0 keeps the original value, at intensity 1 it
    takes the shifted one. *)
Lemma blend_zero (s o : Z) : 0 <= s <= 255 -> 0 <= o <= 255 -> blend zero s o = o.
Proof.
  intros Hs Ho; unfold blend.
  assert (255 < 2 ^ 53) by reflexivity.
  rewrite mul_zero_of_int by lia.
  change (sub (of_int 1) zero) with one.
  rewrite mul_one_of_int by lia.
  rewrite (proj2 (add_of_int_zero o ltac:(lia))).
  apply to_uint8_of_int; exact Ho.
Qed.

Lemma blend_one (s o : Z) : 0 <= s <= 255 -> 0 <= o <= 255 -> blend one s o = s.
Proof.
  intros Hs Ho; unfold blend.
  assert (255 < 2 ^ 53) by reflexivity.
  rewrite mul_one_of_int by lia.
  change (sub (of_int 1) one) with zero.
  rewrite mul_zero_of_int by lia.
  rewrite (proj1 (add_of_int_zero s ltac:(lia))).
  apply to_uint8_of_int; exact Hs.
Qed.

(** ** The channel-shift filter, further properties *)

(** X1.  At intensity 0 the filter returns an 8-bit image unchanged,
    whatever the shift amount: the blend keeps the original plane. *)
Theorem glitch_zero_intensity (img : image) (shift_amount : Z) :
  image_ok img ->
  same_image (apply_refined_glitch_effect img shift_amount zero) img.
Proof.
  intros Hok; split; [reflexivity|]; split; [reflexivity|].
  intros x y Hx Hy.
  cbn [width height apply_refined_glitch_effect fromarray blend_planes
         red_channel plane shape0 shape1] in Hx, Hy.
  rewrite (glitch_pixel img shift_amount zero x y Hx Hy).
  pose proof (Z.mod_pos_bound (x - shift_amount) (width img) ltac:(lia)) as Bx.
  pose proof (Z.mod_pos_bound (y - (- shift_amount) / 2) (height img) ltac:(lia))
    as By.
  destruct (Hok x y Hx Hy) as (Hr & Hg & _).
  destruct (Hok _ y Bx Hy) as (Hr' & _ & _).
  destruct (Hok x _ Hx By) as (_ & Hg' & _).
  rewrite !blend_zero by assumption.
  destruct (pix img x y) as [[r g] b]; reflexivity.
Qed.

Lemma glitch_zero_intensity_witness :
  same_image (apply_refined_glitch_effect (gradient 4 5) 5 zero) (gradient 4 5).
Proof.
  apply (glitch_zero_intensity (gradient 4 5) 5), image_ok_gradient.
Defined.

(** X2.  At intensity 1 the filter is the pure shift of an 8-bit image:
    the red value of a pixel comes from [shift_amount] columns to the left
    and its green value from [(-shift_amount) // 2] rows above, both
    with wrap-around, and the blue value stays. *)
Theorem glitch_full_intensity (img : image) (shift_amount x y : Z) :
  image_ok img ->
  0 <= x < width img -> 0 <= y < height img ->
  pix (apply_refined_glitch_effect img shift_amount one) x y =
  (red (pix img ((x - shift_amount) mod width img) y),
   green (pix img x ((y - (- shift_amount) / 2) mod height img)),
   blue (pix img x y)).
Proof.
  intros Hok Hx Hy.
  rewrite (glitch_pixel img shift_amount one x y Hx Hy).
  pose proof (Z.mod_pos_bound (x - shift_amount) (width img) ltac:(lia)) as Bx.
  pose proof (Z.mod_pos_bound (y - (- shift_amount) / 2) (height img) ltac:(lia))
    as By.
  destruct (Hok x y Hx Hy) as (Hr & Hg & _).
  destruct (Hok _ y Bx Hy) as (Hr' & _ & _).
  destruct (Hok x _ Hx By) as (_ & Hg' & _).
  rewrite !blend_one by assumption; reflexivity.
Qed.

Lemma glitch_full_intensity_witness :
  pix (apply_refined_glitch_effect (gradient 4 5) 5 one) 0 0 =
  (red (pix (gradient 4 5) 3 0), green (pix (gradient 4 5) 0 3),
   blue (pix (gradient 4 5) 0 0)).
Proof.
  apply (glitch_full_intensity (gradient 4 5) 5 0 0);
    [apply image_ok_gradient | simpl; lia | simpl; lia].
Defined.

(** X3.  The filter is periodic in the shift amount: adding a multiple of
    [2 * width * height] to it changes nothing, at any intensity. *)
Theorem glitch_shift_periodic (img : image) (shift_amount k : Z)
    (intensity : float) :
  same_image
    (apply_refined_glitch_effect img
       (shift_amount + 2 * width img * height img * k) intensity)
    (apply_refined_glitch_effect img shift_amount intensity).
Proof.
  split; [reflexivity|]; split; [reflexivity|].
  intros x y Hx Hy.
  cbn [width height apply_refined_glitch_effect fromarray blend_planes
         red_channel plane shape0 shape1] in Hx, Hy.
  rewrite !glitch_pixel by assumption.
  set (w := width img) in *; set (h := height img) in *.
  replace (x - (shift_amount + 2 * w * h * k))
    with (x - shift_amount + (- (2 * h * k)) * w) by lia.
  rewrite Z_mod_plus_full.
  replace (- (shift_amount + 2 * w * h * k))
    with (- shift_amount + (- (w * h * k)) * 2) by lia.
  rewrite Z.div_add by lia.
  replace (y - ((- shift_amount) / 2 + - (w * h * k)))
    with (y - (- shift_amount) / 2 + (w * k) * h) by lia.
  rewrite Z_mod_plus_full; reflexivity.
Qed.

(** ** The LCD sub-pixel renderer, further properties *)

(** Every pixel of the output, from the cell of its own block: the
    stripe's boosted channel, clipped to a byte. *)
Lemma lcd_out_pixel (resample_box : image -> Z -> Z -> Z -> Z -> pixel)
    (img : image) (ps : Z) (boost : float) (o : string) (out : image)
    (x y : Z) :
  0 < ps ->
  o = "vertical"%string \/ o = "horizontal"%string ->
  apply_lcd_pixel_effect resample_box img ps boost o = Some out ->
  0 <= x < width img / ps * ps -> 0 <= y < height img / ps * ps ->
  let src :=
    resample_box img (width img / ps) (height img / ps) (x / ps) (y / ps) in
  exists r g b,
    boost_channel (red src) boost = Some r /\
    boost_channel (green src) boost = Some g /\
    boost_channel (blue src) boost = Some b /\
    pix out x y =
    stripe_pixel (stripe ps (stripe_offset o ps x y))
      (clip8 r, clip8 g, clip8 b).
Proof.
  intros Hps Ho E Hx Hy src.
  apply lcd_unpack in E; destruct E as (_ & _ & _ & E).
  set (small := mkImage _ _ _) in E.
  exact (lcd_pixel_from_own_cell small ps boost o _ out x y Hps Ho E Hx Hy).
Qed.

Lemma lcd_unknown_black (resample_box : image -> Z -> Z -> Z -> Z -> pixel)
    (img : image) (ps : Z) (boost : float) (o : string) (out : image) :
  o <> "vertical"%string -> o <> "horizontal"%string ->
  apply_lcd_pixel_effect resample_box img ps boost o = Some out ->
  forall x y, pix out x y = (0, 0, 0).
Proof.
  intros Hv Hh E x y.
  apply lcd_unpack in E; destruct E as (_ & _ & _ & E).
  apply (foldM_preserves _ (fun s => pix s x y = (0, 0, 0)) _
           (fun s j s' _ Hr Hs =>
              foldM_preserves _ (fun s0 => pix s0 x y = (0, 0, 0)) _
                (fun s0 i s0' _ Hc Hs0 =>
                   eq_ind_r (fun c => pix c x y = (0, 0, 0)) Hs0
                     (lcd_cell_unknown_orientation _ _ _ _ _ _ _ _ Hv Hh Hc))
                _ _ Hr Hs)
           _ _ E); reflexivity.
Qed.

Lemma orientation_cases (o : string) :
  (o = "vertical"%string \/ o = "horizontal"%string) \/
  (o <> "vertical"%string /\ o <> "horizontal"%string).
Proof.
  destruct (String.eqb_spec o "vertical"); [left; left; assumption|].
  destruct (String.eqb_spec o "horizontal"); [left; right; assumption|].
  right; split; assumption.
Qed.

Lemma stripe_range (ps off : Z) : 0 <= stripe ps off <= 2.
Proof.
  unfold stripe; destruct (off <? ps / 3); [lia|].
  destruct (off <? 2 * (ps / 3)); lia.
Qed.

Lemma stripe_small_block (ps off : Z) :
  0 < ps < 3 -> 0 <= off -> stripe ps off = 2.
Proof.
  intros Hps Hoff; unfold stripe.
  replace (ps / 3) with 0 by (symmetry; apply Z.div_small; lia).
  destruct (Z.ltb_spec off 0); [lia|].
  destruct (Z.ltb_spec off (2 * 0)); [lia | reflexivity].
Qed.

Lemma stripe_offset_bounds (o : string) (ps x y : Z) :
  0 < ps -> 0 <= stripe_offset o ps x y < ps.
Proof.
  intros Hps; unfold stripe_offset.
  destruct (String.eqb o "vertical"); apply Z.mod_pos_bound; exact Hps.
Qed.

(** X4.  With a block size of 1 or 2 a third of the block is zero pixels
    wide, so the red and green stripes vanish: for a brightness
    multiplier that is not negative and a source pixel whose channels are
    bytes, every pixel of the output shows the boosted blue channel of
    its source pixel and nothing else. *)
Theorem lcd_small_block_blue_only
    (resample_box : image -> Z -> Z -> Z -> Z -> pixel)
    (img : image) (ps : Z) (boost : float) (o : string) (out : image)
    (x y : Z) :
  0 < ps < 3 ->
  not_negative boost ->
  o = "vertical"%string \/ o = "horizontal"%string ->
  apply_lcd_pixel_effect resample_box img ps boost o = Some out ->
  0 <= x < width out -> 0 <= y < height out ->
  let src :=
    resample_box img (width img / ps) (height img / ps) (x / ps) (y / ps) in
  pixel_ok src ->
  exists b,
    boost_channel (blue src) boost = Some b /\ pix out x y = (0, 0, b).
Proof.
  intros Hps Hboost Ho E Hx Hy src (_ & _ & Sb).
  destruct (lcd_size _ _ _ _ _ _ E) as [Hw Hh].
  rewrite Hw in Hx; rewrite Hh in Hy.
  destruct (lcd_out_pixel resample_box img ps boost o out x y
              ltac:(lia) Ho E Hx Hy) as (r & g & b & _ & _ & Hb & Hpix).
  exists b; split; [exact Hb|].
  pose proof (boost_channel_byte _ _ _ (proj1 Sb) Hboost Hb) as Bb.
  rewrite Hpix, stripe_small_block;
    [|exact Hps | apply stripe_offset_bounds; lia].
  rewrite (clip8_byte b) by exact Bb; reflexivity.
Qed.

Lemma lcd_small_block_blue_only_witness :
  exists out b,
    apply_lcd_pixel_effect corner_box (solid 7 4 (1, 100, 200)) 2 (ratio 3 2)
      "vertical" = Some out /\
    boost_channel 200 (ratio 3 2) = Some b /\ pix out 0 0 = (0, 0, b).
Proof.
  destruct (apply_lcd_pixel_effect corner_box (solid 7 4 (1, 100, 200)) 2
              (ratio 3 2) "vertical") as [out|] eqn:E;
    [|vm_compute in E; discriminate].
  assert (Hw : width out = 6) by (apply (lcd_size _ _ _ _ _ _ E)).
  assert (Hh : height out = 4) by (apply (lcd_size _ _ _ _ _ _ E)).
  destruct (lcd_small_block_blue_only corner_box (solid 7 4 (1, 100, 200)) 2
              (ratio 3 2) "vertical" out 0 0) as (b & Hb & Hpix);
    [lia | exact I | left; reflexivity | exact E | lia | lia | |].
  - repeat split; vm_compute; discriminate.
  - exists out, b; auto.
Defined.

Lemma boost_channel_zero (c r : Z) : boost_channel c zero = Some r -> r = 0.
Proof.
  unfold boost_channel; intros H; apply bind_Some in H.
  destruct H as [t [Ht H]]; injection H as <-.
  destruct (of_int c) as [s|s| |s m e]; simpl in Ht; try discriminate;
    injection Ht as <-; reflexivity.
Qed.

(** X5.  A brightness multiplier of 0 gives a black image: whatever image
    the renderer returns is black at every pixel, in every orientation. *)
Theorem lcd_zero_brightness_black
    (resample_box : image -> Z -> Z -> Z -> Z -> pixel)
    (img : image) (ps : Z) (o : string) (out : image) (x y : Z) :
  0 < ps ->
  apply_lcd_pixel_effect resample_box img ps zero o = Some out ->
  0 <= x < width out -> 0 <= y < height out ->
  pix out x y = (0, 0, 0).
Proof.
  intros Hps E Hx Hy.
  destruct (orientation_cases o) as [Ho | [Hv Hh]].
  - destruct (lcd_size _ _ _ _ _ _ E) as [Hw Hh].
    rewrite Hw in Hx; rewrite Hh in Hy.
    destruct (lcd_out_pixel resample_box img ps zero o out x y Hps Ho E Hx Hy)
      as (r & g & b & Hr & Hg & Hb & Hpix).
    apply boost_channel_zero in Hr, Hg, Hb; subst r g b.
    rewrite Hpix; unfold stripe_pixel.
    destruct (_ =? 0); [reflexivity|]; destruct (_ =? 1); reflexivity.
  - exact (lcd_unknown_black resample_box img ps zero o out Hv Hh E x y).
Qed.

Lemma lcd_zero_brightness_black_witness :
  exists out,
    apply_lcd_pixel_effect corner_box (solid 7 4 (1, 100, 200)) 3 zero
      "horizontal" = Some out /\
    pix out 5 2 = (0, 0, 0).
Proof.
  destruct (apply_lcd_pixel_effect corner_box (solid 7 4 (1, 100, 200)) 3 zero
              "horizontal") as [out|] eqn:E;
    [|vm_compute in E; discriminate].
  assert (Hw : width out = 6) by (apply (lcd_size _ _ _ _ _ _ E)).
  assert (Hh : height out = 3) by (apply (lcd_size _ _ _ _ _ _ E)).
  exists out; split; [reflexivity|].
  apply (lcd_zero_brightness_black corner_box (solid 7 4 (1, 100, 200)) 3
           "horizontal" out 5 2); [lia | exact E | lia | lia].
Defined.

Lemma mul_normal_one (s : bool) (m : positive) (e : Z) :
  digits m = 53 -> -400 <= e <= 400 ->
  mul (S754_finite s m e) one = S754_finite s m e.
Proof.
  intros Dm He; rewrite one_eq; unfold mul, SFmul.
  rewrite Pos2Z.inj_mul.
  change (Zpos (2 ^ 52)) with (2 ^ 52).
  rewrite round_aux_exact by lia.
  rewrite xorb_false_r; f_equal; lia.
Qed.

Lemma boost_channel_one (c : Z) :
  0 <= c <= 255 -> boost_channel c one = Some c.
Proof.
  intros Hc; unfold boost_channel.
  assert (255 < 2 ^ 53) by reflexivity.
  assert (E : mul (of_int c) one = of_int c).
  { destruct c as [|pp|pp]; try lia; [reflexivity|].
    assert (Dp : digits pp <= 53) by (apply digits_below; lia).
    rewrite of_int_pos by exact Dp.
    pose proof (digits_pos pp).
    unfold fl; apply mul_normal_one; [apply digits_mant; exact Dp | lia]. }
  rewrite E, trunc_of_int by lia; cbn [bind].
  f_equal; lia.
Qed.

(** X6.  At a brightness multiplier of 1 the stripes carry the source
    values unchanged: a pixel of the output shows, in the channel of its
    stripe, exactly that channel of its 8-bit source pixel. *)
Theorem lcd_unit_brightness
    (resample_box : image -> Z -> Z -> Z -> Z -> pixel)
    (img : image) (ps : Z) (o : string) (out : image) (x y : Z) :
  0 < ps ->
  o = "vertical"%string \/ o = "horizontal"%string ->
  apply_lcd_pixel_effect resample_box img ps one o = Some out ->
  0 <= x < width out -> 0 <= y < height out ->
  let src :=
    resample_box img (width img / ps) (height img / ps) (x / ps) (y / ps) in
  pixel_ok src ->
  pix out x y = stripe_pixel (stripe ps (stripe_offset o ps x y)) src.
Proof.
  intros Hps Ho E Hx Hy src (Hr & Hg & Hb).
  destruct (lcd_size _ _ _ _ _ _ E) as [Hw Hh].
  rewrite Hw in Hx; rewrite Hh in Hy.
  destruct (lcd_out_pixel resample_box img ps one o out x y Hps Ho E Hx Hy)
    as (r & g & b & Er & Eg & Eb & Hpix).
  fold src in Er, Eg, Eb.
  rewrite boost_channel_one in Er, Eg, Eb by assumption.
  injection Er as <-; injection Eg as <-; injection Eb as <-.
  rewrite Hpix, !clip8_byte by assumption; reflexivity.
Qed.

Lemma lcd_unit_brightness_witness :
  exists out,
    apply_lcd_pixel_effect corner_box (solid 7 4 (1, 100, 200)) 3 one
      "vertical" = Some out /\
    pix out 4 2 = (0, 100, 0).
Proof.
  destruct (apply_lcd_pixel_effect corner_box (solid 7 4 (1, 100, 200)) 3 one
              "vertical") as [out|] eqn:E;
    [|vm_compute in E; discriminate].
  assert (Hw : width out = 6) by (apply (lcd_size _ _ _ _ _ _ E)).
  assert (Hh : height out = 3) by (apply (lcd_size _ _ _ _ _ _ E)).
  exists out; split; [reflexivity|].
  apply (lcd_unit_brightness corner_box (solid 7 4 (1, 100, 200)) 3
           "vertical" out 4 2);
    [lia | left; reflexivity | exact E | lia | lia |].
  repeat split; vm_compute; discriminate.
Defined.

(** X7.  The renderer keeps the channel range: for a brightness
    multiplier that is not negative and a box filter that returns bytes,
    every channel of every pixel of the output lies between 0 and 255,
    in every orientation. *)
Theorem lcd_output_bytes
    (resample_box : image -> Z -> Z -> Z -> Z -> pixel)
    (img : image) (ps : Z) (boost : float) (o : string) (out : image) :
  0 < ps ->
  not_negative boost ->
  (forall u v, 0 <= u < width img / ps -> 0 <= v < height img / ps ->
     pixel_ok (resample_box img (width img / ps) (height img / ps) u v)) ->
  apply_lcd_pixel_effect resample_box img ps boost o = Some out ->
  image_ok out.
Proof.
  intros Hps Hb Hsrc E x y Hx Hy.
  destruct (orientation_cases o) as [Ho | [Hv Hh]].
  - destruct (lcd_size _ _ _ _ _ _ E) as [Hw Hh].
    rewrite Hw in Hx; rewrite Hh in Hy.
    destruct (lcd_out_pixel resample_box img ps boost o out x y Hps Ho E Hx Hy)
      as (r & g & b & Hr & Hg & Hbl & Hpix).
    destruct (Hsrc (x / ps) (y / ps) (div_block_bounds ps _ x Hps Hx)
                (div_block_bounds ps _ y Hps Hy)) as (Sr & Sg & Sb).
    unfold channel_ok in Sr, Sg, Sb.
    apply boost_channel_byte in Hr, Hg, Hbl; try assumption; try lia.
    rewrite Hpix, !clip8_byte by assumption.
    unfold stripe_pixel, pixel_ok, channel_ok.
    destruct (_ =? 0); [cbn [red green blue fst snd]; lia|].
    destruct (_ =? 1); cbn [red green blue fst snd]; lia.
  - rewrite (lcd_unknown_black resample_box img ps boost o out Hv Hh E x y).
    unfold pixel_ok, channel_ok; cbn [red green blue fst snd]; lia.
Qed.

Lemma lcd_output_bytes_witness :
  exists out,
    apply_lcd_pixel_effect corner_box (solid 7 4 (1, 100, 200)) 3 (ratio 3 2)
      "vertical" = Some out /\
    image_ok out.
Proof.
  destruct (apply_lcd_pixel_effect corner_box (solid 7 4 (1, 100, 200)) 3
              (ratio 3 2) "vertical") as [out|] eqn:E;
    [|vm_compute in E; discriminate].
  exists out; split; [reflexivity|].
  apply (lcd_output_bytes corner_box (solid 7 4 (1, 100, 200)) 3 (ratio 3 2)
           "vertical" out); [lia | exact I | | exact E].
  intros u v _ _; repeat split; vm_compute; discriminate.
Defined.

Lemma block_coordinate (ps b i : Z) :
  0 < ps -> 0 <= i < ps -> (b * ps + i) / ps = b /\ (b * ps + i) mod ps = i.
Proof.
  intros Hps Hi; split.
  - rewrite Z.add_comm, Z.div_add by lia.
    rewrite Z.div_small by lia; lia.
  - rewrite Z.add_comm, Z.mod_add by lia.
    apply Z.mod_small; lia.
Qed.

(** X8.  The two orientations are transposes of each other inside every
    block: the pixel at offset [(i, j)] of a block of the vertical
    rendering is the pixel at offset [(j, i)] of the same block of the
    horizontal rendering. *)
Theorem lcd_orientations_transposed
    (resample_box : image -> Z -> Z -> Z -> Z -> pixel)
    (img : image) (ps : Z) (boost : float) (outv outh : image)
    (bx by_ i j : Z) :
  0 < ps ->
  apply_lcd_pixel_effect resample_box img ps boost "vertical" = Some outv ->
  apply_lcd_pixel_effect resample_box img ps boost "horizontal" = Some outh ->
  0 <= bx < width img / ps -> 0 <= by_ < height img / ps ->
  0 <= i < ps -> 0 <= j < ps ->
  pix outv (bx * ps + i) (by_ * ps + j) = pix outh (bx * ps + j) (by_ * ps + i).
Proof.
  intros Hps Ev Eh Hbx Hby Hi Hj.
  destruct (block_coordinate ps bx i Hps Hi) as [Dxi Mxi].
  destruct (block_coordinate ps bx j Hps Hj) as [Dxj Mxj].
  destruct (block_coordinate ps by_ i Hps Hi) as [Dyi Myi].
  destruct (block_coordinate ps by_ j Hps Hj) as [Dyj Myj].
  destruct (lcd_out_pixel resample_box img ps boost "vertical" outv
              (bx * ps + i) (by_ * ps + j) Hps (or_introl eq_refl) Ev
              ltac:(nia) ltac:(nia))
    as (r & g & b & Hr & Hg & Hb & Hpv).
  destruct (lcd_out_pixel resample_box img ps boost "horizontal" outh
              (bx * ps + j) (by_ * ps + i) Hps (or_intror eq_refl) Eh
              ltac:(nia) ltac:(nia))
    as (r' & g' & b' & Hr' & Hg' & Hb' & Hph).
  rewrite Dxi, Dyj in Hr, Hg, Hb; rewrite Dxj, Dyi in Hr', Hg', Hb'.
  rewrite Hr in Hr'; rewrite Hg in Hg'; rewrite Hb in Hb'.
  injection Hr' as <-; injection Hg' as <-; injection Hb' as <-.
  rewrite Hpv, Hph; unfold stripe_offset; cbn [String.eqb Ascii.eqb Bool.eqb].
  rewrite Mxi, Myi; reflexivity.
Qed.

Lemma lcd_orientations_transposed_witness :
  exists outv outh,
    apply_lcd_pixel_effect corner_box (solid 7 4 (1, 100, 200)) 3 (ratio 3 2)
      "vertical" = Some outv /\
    apply_lcd_pixel_effect corner_box (solid 7 4 (1, 100, 200)) 3 (ratio 3 2)
      "horizontal" = Some outh /\
    pix outv (1 * 3 + 2) (0 * 3 + 1) = pix outh (1 * 3 + 1) (0 * 3 + 2).
Proof.
  destruct (apply_lcd_pixel_effect corner_box (solid 7 4 (1, 100, 200)) 3
              (ratio 3 2) "vertical") as [outv|] eqn:Ev;
    [|vm_compute in Ev; discriminate].
  destruct (apply_lcd_pixel_effect corner_box (solid 7 4 (1, 100, 200)) 3
              (ratio 3 2) "horizontal") as [outh|] eqn:Eh;
    [|vm_compute in Eh; discriminate].
  exists outv, outh; split; [reflexivity|]; split; [reflexivity|].
  apply (lcd_orientations_transposed corner_box (solid 7 4 (1, 100, 200)) 3
           (ratio 3 2) outv outh 1 0 2 1);
    [lia | exact Ev | exact Eh | vm_compute; split; congruence
     | vm_compute; split; congruence | lia | lia].
Defined.

(** A loop that returns has run every iteration to its end. *)
Lemma foldM_visits {A S : Type} (f : S -> A -> option S) (l : list A)
    (s s' : S) (a : A) :
  foldM f l s = Some s' -> In a l -> exists s1 s2, f s1 a = Some s2.
Proof.
  revert s; induction l as [|b l IH]; simpl; intros s E Hin; [contradiction|].
  destruct (f s b) as [s1|] eqn:Eb; [|discriminate].
  destruct Hin as [-> | Hin]; [exists s, s1; exact Eb|].
  exact (IH s1 E Hin).
Qed.

(** X9.  What a returned image tells: when the renderer returns an image
    for an RGB image that has a pixel, the block size is not zero, the
    downsampled image has at least one pixel in each direction, and every
    boosted channel of the downsampled image is a finite number (no
    [int(...)] raised). *)
Theorem lcd_returns_only_if
    (resample_box : image -> Z -> Z -> Z -> Z -> pixel)
    (img : image) (ps : Z) (boost : float) (o : string) (out : image) :
  0 < width img -> 0 < height img ->
  apply_lcd_pixel_effect resample_box img ps boost o = Some out ->
  ps <> 0 /\ 1 <= width img / ps /\ 1 <= height img / ps /\
  boosts_defined
    (mkImage (width img / ps) (height img / ps)
       (resample_box img (width img / ps) (height img / ps))) boost.
Proof.
  intros Hw Hh E; apply lcd_unpack in E; destruct E as (Hps & HW & HH & E).
  split; [exact Hps|]; split; [lia|]; split; [lia|].
  set (small := mkImage _ _ _) in *.
  intros x y Hx Hy i.
  destruct (foldM_visits _ _ _ _ y E (proj2 (In_range _ _) Hy)) as (s1 & s2 & Er).
  unfold lcd_row in Er.
  destruct (foldM_visits _ _ _ _ x Er (proj2 (In_range _ _) Hx)) as (c1 & c2 & Ec).
  unfold lcd_cell in Ec; bind_inv Ec.
  rewrite (getpixel_inside small x y Hx Hy) in E0; injection E0 as <-.
  subst small; cbn [pix] in *.
  unfold channel; destruct (i =? 0); [congruence|].
  destruct (i =? 1); congruence.
Qed.

Lemma lcd_returns_only_if_witness :
  exists out,
    apply_lcd_pixel_effect corner_box (solid 7 4 (1, 100, 200)) 2
      (ratio 3 2) "vertical" = Some out /\
    boosts_defined
      (mkImage (width (solid 7 4 (1, 100, 200)) / 2)
         (height (solid 7 4 (1, 100, 200)) / 2)
         (corner_box (solid 7 4 (1, 100, 200))
            (width (solid 7 4 (1, 100, 200)) / 2)
            (height (solid 7 4 (1, 100, 200)) / 2))) (ratio 3 2).
Proof.
  destruct (apply_lcd_pixel_effect corner_box (solid 7 4 (1, 100, 200)) 2
              (ratio 3 2) "vertical") as [out|] eqn:E;
    [|vm_compute in E; discriminate].
  exists out; split; [reflexivity|].
  apply (lcd_returns_only_if corner_box (solid 7 4 (1, 100, 200)) 2
           (ratio 3 2) "vertical" out); [simpl; lia | simpl; lia | exact E].
Defined.

(** Without a first stage there is no image: a block size that is zero or
    negative, or larger than a side of an image that has a pixel. *)
Lemma lcd_no_image
    (resample_box : image -> Z -> Z -> Z -> Z -> pixel)
    (img : image) (ps : Z) (boost : float) (o : string) :
  0 < width img -> 0 < height img ->
  ps <= 0 \/ width img < ps \/ height img < ps ->
  apply_lcd_pixel_effect resample_box img ps boost o = None.
Proof.
  intros Hw Hh Hps; unfold apply_lcd_pixel_effect, resize.
  destruct (Z.eqb_spec ps 0) as [|Hn]; [reflexivity|].
  assert (Hsmall : width img / ps < 1 \/ height img / ps < 1).
  { destruct Hps as [Hneg | [Hbig | Hbig]].
    - left.
      assert (width img / ps <= 0); [|lia].
      Z.to_euclidean_division_equations; nia.
    - left; rewrite Z.div_small by lia; lia.
    - right; rewrite Z.div_small by lia; lia. }
  destruct (Z.eqb_spec (width img / ps) (width img));
    destruct (Z.eqb_spec (height img / ps) (height img)); cbn [andb];
    [lia | | |];
    (destruct (Z.ltb_spec (width img / ps) 1); [reflexivity|];
     destruct (Z.ltb_spec (height img / ps) 1); [reflexivity | lia]).
Qed.

(** X10.  For an image that has a pixel, the renderer gives no image when
    the block size is zero or negative, or larger than the width or the
    height of the image: [// 0] raises, and Pillow refuses to resize to
    an empty image. *)
Theorem lcd_rejects_block
    (resample_box : image -> Z -> Z -> Z -> Z -> pixel)
    (img : image) (ps : Z) (boost : float) (o : string) :
  0 < width img -> 0 < height img ->
  ps <= 0 \/ width img < ps \/ height img < ps ->
  apply_lcd_pixel_effect resample_box img ps boost o = None.
Proof.
  intros Hw Hh Hps; apply lcd_no_image; assumption.
Qed.

Lemma lcd_rejects_block_witness :
  apply_lcd_pixel_effect corner_box (solid 7 4 (1, 100, 200)) 5 (ratio 3 2)
    "vertical" = None.
Proof.
  apply (lcd_rejects_block corner_box (solid 7 4 (1, 100, 200)) 5 (ratio 3 2)
           "vertical"); simpl; lia.
Defined.

(** ** The radial warp, further properties *)

(** An iteration of the loop writes at most its own destination pixel. *)
Lemma warp_pixel_frame (img : image) (strength : float) (c c' : image)
    (x y u v : Z) :
  warp_pixel img strength c y x = Some c' ->
  0 <= x -> 0 <= y -> u <> x \/ v <> y ->
  pix c' u v = pix c u v.
Proof.
  unfold warp_pixel; intros H Hx Hy Hne; bind_inv H.
  destruct (inside _ _ _ _); [|injection H as <-; reflexivity].
  bind_inv H; unfold putpixel in H.
  destruct (Z.ltb_spec x 0); [lia|].
  destruct (Z.ltb_spec y 0); [lia|].
  destruct (inside _ _ x y); [|discriminate].
  injection H as <-; cbn [pix].
  destruct (Z.eqb_spec u x); destruct (Z.eqb_spec v y); cbn [andb];
    try reflexivity; lia.
Qed.

(** What an iteration of the loop leaves at its destination pixel. *)
Lemma warp_pixel_cases (img : image) (strength : float) (c c' : image)
    (x y : Z) :
  warp_pixel img strength c y x = Some c' ->
  0 <= x -> 0 <= y ->
  let w := width img in
  let h := height img in
  let dist := distortion w h strength x y in
  let src_x := source_coord w dist x in
  let src_y := source_coord h dist y in
  exists x0 y0,
    trunc src_x = Some x0 /\ trunc src_y = Some y0 /\
    let x1 := clamp_next x0 w in
    let y1 := clamp_next y0 h in
    let a := sub src_x (of_int x0) in
    let b := sub src_y (of_int y0) in
    if inside w h x0 y0 then
      exists r g b',
        bilinear a b (red (pix img x0 y0)) (red (pix img x1 y0))
          (red (pix img x0 y1)) (red (pix img x1 y1)) = Some r /\
        bilinear a b (green (pix img x0 y0)) (green (pix img x1 y0))
          (green (pix img x0 y1)) (green (pix img x1 y1)) = Some g /\
        bilinear a b (blue (pix img x0 y0)) (blue (pix img x1 y0))
          (blue (pix img x0 y1)) (blue (pix img x1 y1)) = Some b' /\
        pix c' x y = (clip8 r, clip8 g, clip8 b')
    else pix c' x y = pix c x y.
Proof.
  intros H Hx Hy w h dist src_x src_y; unfold warp_pixel in H.
  fold w h in H; fold dist in H; fold src_x src_y in H.
  apply bind_Some in H; destruct H as [x0 [Ex0 H]].
  apply bind_Some in H; destruct H as [y0 [Ey0 H]].
  exists x0, y0; split; [exact Ex0|]; split; [exact Ey0|].
  cbv zeta.
  destruct (inside w h x0 y0) eqn:Hin; [|injection H as <-; reflexivity].
  pose proof (proj1 (inside_true w h x0 y0) Hin) as [Bx By].
  pose proof (clamp_next_bounds x0 w Bx) as Bx1.
  pose proof (clamp_next_bounds y0 h By) as By1.
  rewrite !getpixel_inside in H by assumption; cbn [bind] in H.
  apply bind_Some in H; destruct H as [r [Er H]].
  apply bind_Some in H; destruct H as [g [Eg H]].
  apply bind_Some in H; destruct H as [b' [Eb H]].
  exists r, g, b'; repeat (split; [assumption|]).
  unfold putpixel in H.
  destruct (Z.ltb_spec x 0); [lia|].
  destruct (Z.ltb_spec y 0); [lia|].
  destruct (inside _ _ x y); [|discriminate].
  injection H as <-; cbn [pix red green blue fst snd].
  rewrite !Z.eqb_refl; reflexivity.
Qed.

(** Every pixel of the warp's output is what the iteration for that pixel
    left on a canvas that was still black there. *)
Lemma warp_output_from_own_iteration (img : image) (strength : float)
    (out : image) (x y : Z) :
  apply_crt_warp_effect img strength = Some out ->
  0 <= x < width img -> 0 <= y < height img ->
  exists c c',
    pix c x y = (0, 0, 0) /\
    warp_pixel img strength c y x = Some c' /\
    pix out x y = pix c' x y.
Proof.
  unfold apply_crt_warp_effect; intros E Hx Hy.
  destruct (range_split (height img) y Hy) as [rows_after [Sy Ay]].
  rewrite Sy, foldM_app in E.
  apply bind_Some in E; destruct E as [c1 [E1 E]]; cbn [foldM] in E.
  destruct (warp_row img strength c1 y) as [c2|] eqn:Erow; [|discriminate].
  assert (Frame_row : forall j s s', 0 <= j -> j <> y ->
            warp_row img strength s j = Some s' -> pix s' x y = pix s x y).
  { intros j s s' Hj Hne Hr; unfold warp_row in Hr.
    apply (foldM_preserves _ (fun s0 => pix s0 x y = pix s x y) (range (width img))
             (fun s0 i s0' Hi Hp Hs0 =>
                eq_trans (warp_pixel_frame _ _ _ _ i j x y Hp
                            (proj1 (proj1 (In_range _ _) Hi)) Hj
                            (or_intror (not_eq_sym Hne))) Hs0)
             _ _ Hr); reflexivity. }
  assert (H1 : pix c1 x y = (0, 0, 0)).
  { apply (foldM_preserves _ (fun s => pix s x y = (0, 0, 0)) (range y)
             (fun s j s' Hj Hr Hs =>
                eq_trans (Frame_row j s s'
                            (proj1 (proj1 (In_range _ _) Hj))
                            ltac:(apply In_range in Hj; lia) Hr) Hs)
             _ _ E1); reflexivity. }
  assert (Hout : pix out x y = pix c2 x y).
  { apply (foldM_preserves _ (fun s => pix s x y = pix c2 x y) rows_after
             (fun s j s' Hj Hr Hs =>
                eq_trans (Frame_row j s s' ltac:(specialize (Ay j Hj); lia)
                            ltac:(specialize (Ay j Hj); lia) Hr) Hs)
             _ _ E); reflexivity. }
  unfold warp_row in Erow.
  destruct (range_split (width img) x Hx) as [cols_after [Sx Ax]].
  rewrite Sx, foldM_app in Erow.
  apply bind_Some in Erow; destruct Erow as [c3 [E3 Erow]]; cbn [foldM] in Erow.
  destruct (warp_pixel img strength c3 y x) as [c4|] eqn:Ecell; [|discriminate].
  assert (Frame_cell : forall i s s', 0 <= i -> i <> x ->
            warp_pixel img strength s y i = Some s' -> pix s' x y = pix s x y).
  { intros i s s' Hi Hne Hp.
    apply (warp_pixel_frame _ _ _ _ i y x y Hp Hi (proj1 Hy)); left; lia. }
  assert (H3 : pix c3 x y = (0, 0, 0)).
  { rewrite <- H1.
    apply (foldM_preserves _ (fun s => pix s x y = pix c1 x y) (range x)
             (fun s i s' Hi Hp Hs =>
                eq_trans (Frame_cell i s s'
                            (proj1 (proj1 (In_range _ _) Hi))
                            ltac:(apply In_range in Hi; lia) Hp) Hs)
             _ _ E3); reflexivity. }
  assert (H4 : pix c2 x y = pix c4 x y).
  { apply (foldM_preserves _ (fun s => pix s x y = pix c4 x y) cols_after
             (fun s i s' Hi Hp Hs =>
                eq_trans (Frame_cell i s s' ltac:(specialize (Ax i Hi); lia)
                            ltac:(specialize (Ax i Hi); lia) Hp) Hs)
             _ _ Erow); reflexivity. }
  exists c3, c4; split; [exact H3|]; split; [exact Ecell|].
  rewrite Hout; exact H4.
Qed.



Lemma clip8_range (v : Z) : channel_ok (clip8 v).
Proof. unfold channel_ok, clip8; lia. Qed.

(** X12.  The warp keeps the channel range: whatever the input image and
    the strength, every channel of every pixel of the image it returns
    lies between 0 and 255. *)
Theorem warp_output_bytes (img : image) (strength : float) (out : image) :
  apply_crt_warp_effect img strength = Some out -> image_ok out.
Proof.
  intros E x y Hx Hy.
  destruct (warp_size img strength out E) as [Ew Eh].
  rewrite Ew in Hx; rewrite Eh in Hy.
  destruct (warp_output_from_own_iteration img strength out x y E Hx Hy)
    as (c & c' & Hc & Ep & Hout).
  destruct (warp_pixel_cases img strength c c' x y Ep (proj1 Hx) (proj1 Hy))
    as (x0 & y0 & _ & _ & Hcase).
  cbv zeta in Hcase; rewrite Hout.
  destruct (inside _ _ x0 y0).
  - destruct Hcase as (r & g & b' & _ & _ & _ & ->).
    repeat split; apply clip8_range.
  - rewrite Hcase, Hc; repeat split; cbv; congruence.
Qed.

Lemma warp_output_bytes_witness :
  exists out,
    apply_crt_warp_effect (gradient 4 5) (ratio 1 10) = Some out /\ image_ok out.
Proof.
  destruct (apply_crt_warp_effect (gradient 4 5) (ratio 1 10)) as [out|] eqn:E;
    [|vm_compute in E; discriminate].
  exists out; split; [reflexivity|].
  exact (warp_output_bytes (gradient 4 5) (ratio 1 10) out E).
Defined.

Lemma range_nonpositive (n : Z) : n <= 0 -> range n = [].
Proof.
  intros Hn; unfold range.
  replace (Z.to_nat n) with 0%nat by lia; reflexivity.
Qed.

Lemma range_positive (n : Z) : 0 < n -> exists later, range n = 0 :: later.
Proof.
  intros Hn; destruct (range_split n 0 ltac:(lia)) as [later [E _]].
  exists later; exact E.
Qed.

Lemma foldM_id {A S : Type} (f : S -> A -> option S) (l : list A) (s : S) :
  (forall s0 a, In a l -> f s0 a = Some s0) -> foldM f l s = Some s.
Proof.
  induction l as [|a l IH]; simpl; intros H; [reflexivity|].
  rewrite (H s a (or_introl eq_refl)); apply IH.
  intros s0 a0 Ha; apply H; right; exact Ha.
Qed.

(** X13.  An empty image (of width or height zero) goes through the warp
    untouched, whatever the strength: the loops have nothing to do and
    the new empty image is returned. *)
Theorem warp_empty_image (img : image) (strength : float) :
  width img = 0 \/ height img = 0 ->
  apply_crt_warp_effect img strength
  = Some (Image_new (width img) (height img)).
Proof.
  intros Hempty; unfold apply_crt_warp_effect.
  apply foldM_id; intros s y Hy.
  destruct Hempty as [Hw | Hh].
  - unfold warp_row; rewrite (range_nonpositive (width img)) by lia.
    reflexivity.
  - rewrite (range_nonpositive (height img)) in Hy by lia; contradiction.
Qed.

Lemma warp_empty_image_witness :
  apply_crt_warp_effect (solid 0 3 (1, 2, 3)) (ratio 1 10)
  = Some (Image_new 0 3).
Proof.
  apply (warp_empty_image (solid 0 3 (1, 2, 3)) (ratio 1 10)); left.
  reflexivity.
Defined.

(** X14.  A NaN strength makes the warp raise on every image that has a
    pixel: the distortion and the source coordinate are NaN and
    [int(src_x)] fails at the first pixel. *)
Theorem warp_nan_strength_raises (img : image) :
  0 < width img -> 0 < height img ->
  apply_crt_warp_effect img S754_nan = None.
Proof.
  intros Hw Hh; unfold apply_crt_warp_effect.
  destruct (range_positive _ Hh) as [ys ->]; cbn [foldM].
  unfold warp_row at 1.
  destruct (range_positive _ Hw) as [xs ->]; cbn [foldM].
  assert (E : warp_pixel img S754_nan (Image_new (width img) (height img)) 0 0
              = None).
  { unfold warp_pixel, source_coord, distortion.
    change (mul S754_nan ?t) with S754_nan.
    change (add (of_int 1) S754_nan) with S754_nan.
    assert (Hd : forall d, div d S754_nan = S754_nan) by (intros [| | |]; reflexivity).
    assert (Ha : forall c, add c S754_nan = S754_nan) by (intros [| | |]; reflexivity).
    rewrite !Hd, !Ha; reflexivity. }
  rewrite E; reflexivity.
Qed.

Lemma warp_nan_strength_raises_witness :
  apply_crt_warp_effect (gradient 4 5) S754_nan = None.
Proof.
  apply (warp_nan_strength_raises (gradient 4 5)); simpl; lia.
Defined.

(** The largest distance from the centre is a positive normal number. *)
Lemma max_distance_class (w h : Z) :
  0 < w <= 2 ^ 52 -> 0 < h <= 2 ^ 52 ->
  pos_normal (-60) 3 (max_distance w h).
Proof.
  intros Hw Hh; unfold max_distance.
  assert (Nw : normal (-60) 0 (center w)).
  { pose proof (center_class w Hw) as Cw.
    destruct (center w) as [| | |[|] m e]; simpl in *; auto; contradiction. }
  assert (Nh : normal (-60) 0 (center h)).
  { pose proof (center_class h Hh) as Ch.
    destruct (center h) as [| | |[|] m e]; simpl in *; auto; contradiction. }
  assert (Qw : pos_normal (-68) 54 (pow2 (center w)))
    by (apply (pow2_pos (-60) 0); [lia | lia | exact Nw]).
  assert (Qh : pos_normal (-68) 54 (pow2 (center h)))
    by (apply (pow2_pos (-60) 0); [lia | lia | exact Nh]).
  pose proof (add_pos (-68) 54 _ _ ltac:(lia) ltac:(lia) Qw Qh) as Sc.
  exact (sqrt_pos (-68) (54 + 2) _ ltac:(lia) ltac:(lia) Sc).
Qed.

(** At the centre of an image of even sides the distortion factor is one
    for every finite strength: the distance from the centre is zero. *)
Lemma distortion_centre (cx cy : Z) (strength : float) :
  0 < cx -> 0 < cy -> 2 * cx <= 2 ^ 52 -> 2 * cy <= 2 ^ 52 ->
  finite strength ->
  distortion (2 * cx) (2 * cy) strength cx cy = one.
Proof.
  intros Hcx Hcy Hw Hh Hs; unfold distortion.
  assert (Off : forall c, 0 < c -> 2 * c <= 2 ^ 52 ->
                  sub (of_int c) (center (2 * c)) = S754_zero false).
  { intros c Hc Hn.
    destruct (offset_form (2 * c) c ltac:(lia) Hn)
      as [[_ E] | (s & k & _ & Hk & _)]; [exact E|].
    destruct s; simpl in Hk; lia. }
  rewrite (Off cx Hcx Hw), (Off cy Hcy Hh).
  change (pow2 (S754_zero false)) with (S754_zero false).
  change (add (S754_zero false) (S754_zero false)) with (S754_zero false).
  change (sqrt (S754_zero false)) with (S754_zero false).
  pose proof (max_distance_class (2 * cx) (2 * cy) ltac:(lia) ltac:(lia)) as Hm.
  destruct (max_distance (2 * cx) (2 * cy)) as [| | |[|] m e];
    simpl in Hm; try contradiction.
  change (div (S754_zero false) (S754_finite false m e)) with (S754_zero false).
  change (pow2 (S754_zero false)) with (S754_zero false).
  destruct strength as [s|s| |s ms es]; simpl in Hs; try contradiction;
    reflexivity.
Qed.

(** X15.  The warp keeps the centre: in an 8-bit image of even width and
    height the pixel at [(width / 2, height / 2)] of the output is the
    input pixel there, for every finite strength. *)
Theorem warp_centre_fixed (img : image) (strength : float) (out : image)
    (cx cy : Z) :
  image_ok img ->
  width img = 2 * cx -> height img = 2 * cy ->
  0 < cx -> 0 < cy -> 2 * cx <= 2 ^ 52 -> 2 * cy <= 2 ^ 52 ->
  finite strength ->
  apply_crt_warp_effect img strength = Some out ->
  pix out cx cy = pix img cx cy.
Proof.
  intros Hok Ew Eh Hcx Hcy Hw Hh Hs E.
  assert (Hx : 0 <= cx < width img) by lia.
  assert (Hy : 0 <= cy < height img) by lia.
  destruct (warp_output_from_own_iteration img strength out cx cy E Hx Hy)
    as (c & c' & Hc & Ep & Hout).
  destruct (warp_pixel_cases img strength c c' cx cy Ep (proj1 Hx) (proj1 Hy))
    as (x0 & y0 & Ex & Ey & Hcase).
  cbv zeta in Hcase.
  rewrite Ew, Eh in Ex, Ey, Hcase.
  rewrite (distortion_centre cx cy strength Hcx Hcy Hw Hh Hs) in Ex, Ey, Hcase.
  rewrite (source_coord_one (2 * cx) cx) in Ex, Hcase by lia.
  rewrite (source_coord_one (2 * cy) cy) in Ey, Hcase by lia.
  assert (P52 : 2 ^ 52 < 2 ^ 53) by reflexivity.
  rewrite trunc_of_int in Ex, Ey by lia.
  injection Ex as <-; injection Ey as <-.
  rewrite !sub_of_int_self in Hcase by lia.
  assert (Hin : inside (2 * cx) (2 * cy) cx cy = true)
    by (apply inside_true; lia).
  rewrite Hin in Hcase.
  destruct Hcase as (r & g & b' & Er & Eg & Eb & Hpix).
  assert (Byte : forall u v k, 0 <= u < width img -> 0 <= v < height img ->
                   0 <= channel k (pix img u v) < 2 ^ 53).
  { intros u v k Hu Hv; destruct (Hok u v Hu Hv) as (Hr & Hg & Hb).
    unfold channel_ok in *; assert (255 < 2 ^ 53) by reflexivity.
    unfold channel; destruct (k =? 0); [lia|]; destruct (k =? 1); lia. }
  pose proof (clamp_next_bounds cx (2 * cx) ltac:(lia)) as Bx1.
  pose proof (clamp_next_bounds cy (2 * cy) ltac:(lia)) as By1.
  rewrite (bilinear_zero (red _) (red _) (red _) (red _)) in Er
    by (apply (Byte _ _ 0); lia).
  rewrite (bilinear_zero (green _) (green _) (green _) (green _)) in Eg
    by (apply (Byte _ _ 1); lia).
  rewrite (bilinear_zero (blue _) (blue _) (blue _) (blue _)) in Eb
    by (apply (Byte _ _ 2); lia).
  injection Er as <-; injection Eg as <-; injection Eb as <-.
  destruct (Hok cx cy Hx Hy) as (Hr & Hg & Hb).
  rewrite Hout, Hpix, !clip8_byte by assumption.
  destruct (pix img cx cy) as [[r g] b]; reflexivity.
Qed.

Lemma warp_centre_fixed_witness :
  exists out,
    apply_crt_warp_effect (gradient 4 6) (ratio 1 10) = Some out /\
    pix out 2 3 = pix (gradient 4 6) 2 3.
Proof.
  destruct (apply_crt_warp_effect (gradient 4 6) (ratio 1 10)) as [out|] eqn:E;
    [|vm_compute in E; discriminate].
  exists out; split; [reflexivity|].
  apply (warp_centre_fixed (gradient 4 6) (ratio 1 10) out 2 3);
    [apply image_ok_gradient | reflexivity | reflexivity | lia | lia
     | vm_compute; discriminate | vm_compute; discriminate | exact I | exact E].
Defined.

(** A normal number divided by itself is one. *)
Lemma div_self_normal (s : bool) (m : positive) (e : Z) :
  digits m = 53 -> -400 <= e <= 400 ->
  div (S754_finite s m e) (S754_finite s m e) = one.
Proof.
  intros Dm He.
  unfold div, SFdiv, SFdiv_core_binary.
  change (Zdigits2 (Zpos m)) with (digits m).
  rewrite Dm.
  replace (Z.min (fexp prec emax (53 + e - (53 + e))) (e - e)) with (-53)
    by (unfold fexp, emin, prec, emax; lia).
  replace (e - e - -53) with 53 by lia.
  cbv iota.
  rewrite Z.shiftl_mul_pow2 by lia.
  assert (Hq : (Zpos m * 2 ^ 53) / Zpos m = Zpos (2 ^ 52) * 2 ^ 1)
    by (rewrite Z.mul_comm, Z.div_mul by lia; reflexivity).
  assert (Hr : (Zpos m * 2 ^ 53) mod Zpos m = 0)
    by (rewrite Z.mul_comm, Z.mod_mul by lia; reflexivity).
  unfold Z.div in Hq; unfold Z.modulo in Hr.
  destruct (Z.div_eucl (Zpos m * 2 ^ 53) (Zpos m)) as [q r]; subst q r.
  assert (Hl : new_location (Zpos m) 0 = loc_Exact)
    by (unfold new_location; destruct (Z.even (Zpos m)); reflexivity).
  rewrite Hl, xorb_nilpotent, round_aux_exact by (try reflexivity; lia).
  reflexivity.
Qed.

(** X16.  A strength of -1 makes the warp raise on every image that has a
    pixel: at the corner pixel [(0, 0)] the distance equals the largest
    distance, the distortion factor is [1 + (-1) * 1 = 0], and the
    division by it fails. *)
Theorem warp_minus_one_raises (img : image) :
  0 < width img <= 2 ^ 52 -> 0 < height img <= 2 ^ 52 ->
  distortion (width img) (height img) (of_int (-1)) 0 0 = zero /\
  apply_crt_warp_effect img (of_int (-1)) = None.
Proof.
  intros Hw Hh.
  assert (Hd : distortion (width img) (height img) (of_int (-1)) 0 0 = zero).
  { unfold distortion.
    pose proof (max_distance_class _ _ Hw Hh) as Hm.
    pose proof (center_class _ Hw) as Cw.
    pose proof (center_class _ Hh) as Ch.
    unfold max_distance in *.
    destruct (center (width img)) as [| | |[|] mw ew]; simpl in Cw;
      try contradiction.
    destruct (center (height img)) as [| | |[|] mh eh]; simpl in Ch;
      try contradiction.
    change (sub (of_int 0) (S754_finite false mw ew))
      with (S754_finite true mw ew).
    change (sub (of_int 0) (S754_finite false mh eh))
      with (S754_finite true mh eh).
    change (pow2 (S754_finite true mw ew)) with (pow2 (S754_finite false mw ew)).
    change (pow2 (S754_finite true mh eh)) with (pow2 (S754_finite false mh eh)).
    destruct (sqrt _) as [| | |[|] m e]; simpl in Hm; try contradiction.
    destruct Hm as [Dm Em].
    rewrite div_self_normal by (try assumption; lia).
    reflexivity. }
  split; [exact Hd|].
  unfold apply_crt_warp_effect.
  destruct (range_positive _ (proj1 Hh)) as [ys ->]; cbn [foldM].
  unfold warp_row at 1.
  destruct (range_positive _ (proj1 Hw)) as [xs ->]; cbn [foldM].
  assert (E : warp_pixel img (of_int (-1))
                (Image_new (width img) (height img)) 0 0 = None).
  { unfold warp_pixel; rewrite Hd; unfold source_coord.
    pose proof (center_class _ Hw) as Cw.
    destruct (center (width img)) as [| | |[|] mw ew]; simpl in Cw;
      try contradiction.
    reflexivity. }
  rewrite E; reflexivity.
Qed.

Lemma warp_minus_one_raises_witness :
  apply_crt_warp_effect (gradient 4 5) (of_int (-1)) = None.
Proof.
  apply (warp_minus_one_raises (gradient 4 5)); split;
    (simpl; lia) || (vm_compute; discriminate).
Defined.

(** ** The pipeline *)

(** X17.  Whatever stages are switched on, the image the pipeline writes
    measures [(w // 10) * 10] by [(h // 10) * 10] for an input of [w] by
    [h]: the renderer fixes the size and every later stage keeps it. *)
Theorem pipeline_output_size
    (resample_box : image -> Z -> Z -> Z -> Z -> pixel)
    (rounded_rectangle : Z -> Z -> Z -> Z -> Z -> Z)
    (paste_pixel : pixel -> pixel -> Z -> pixel)
    (color_blend : image -> float -> Z -> Z -> pixel)
    (input : image) (orientation : string)
    (apply_crt apply_glitch color_enhance : bool) (out : image) :
  retro_image_converter resample_box rounded_rectangle paste_pixel color_blend
    input orientation apply_crt apply_glitch color_enhance = Some out ->
  width out = width input / 10 * 10 /\ height out = height input / 10 * 10.
Proof.
  unfold retro_image_converter; intros E.
  apply bind_Some in E; destruct E as [lcd [El E]].
  apply bind_Some in E; destruct E as [warped [Ew E]].
  injection E as <-.
  destruct (lcd_size _ _ _ _ _ _ El) as [Lw Lh].
  assert (Hwarp : width warped = width lcd /\ height warped = height lcd).
  { destruct apply_crt; [exact (warp_size _ _ _ Ew)|].
    injection Ew as <-; split; reflexivity. }
  destruct Hwarp as [Ww Wh].
  rewrite <- Lw, <- Lh, <- Ww, <- Wh.
  destruct apply_glitch, color_enhance; split; reflexivity.
Qed.

Lemma pipeline_output_size_witness :
  exists out,
    retro_image_converter corner_box (fun _ _ _ _ _ => 255)
      (fun _ p _ => p) (fun img _ => pix img)
      (solid 12 11 (10, 20, 30)) "vertical" true true true = Some out /\
    width out = 10 /\ height out = 10.
Proof.
  destruct (retro_image_converter corner_box (fun _ _ _ _ _ => 255)
              (fun _ p _ => p) (fun img _ => pix img)
              (solid 12 11 (10, 20, 30)) "vertical" true true true)
    as [out|] eqn:E.
  - exists out; split; [reflexivity|].
    exact (pipeline_output_size _ _ _ _ _ _ _ _ _ _ E).
  - vm_compute in E; discriminate.
Defined.

(** X18.  An image that has a pixel but is narrower or lower than the
    block of 10 pixels is rejected by the pipeline, whatever stages are
    switched on: its first stage has no image to give. *)
Theorem pipeline_rejects_small_image
    (resample_box : image -> Z -> Z -> Z -> Z -> pixel)
    (rounded_rectangle : Z -> Z -> Z -> Z -> Z -> Z)
    (paste_pixel : pixel -> pixel -> Z -> pixel)
    (color_blend : image -> float -> Z -> Z -> pixel)
    (input : image) (orientation : string)
    (apply_crt apply_glitch color_enhance : bool) :
  0 < width input -> 0 < height input ->
  width input < 10 \/ height input < 10 ->
  retro_image_converter resample_box rounded_rectangle paste_pixel color_blend
    input orientation apply_crt apply_glitch color_enhance = None.
Proof.
  intros Hw Hh Hsmall; unfold retro_image_converter.
  rewrite (lcd_no_image resample_box input 10 (ratio 3 2) orientation
             Hw Hh (or_intror Hsmall)).
  reflexivity.
Qed.

Lemma pipeline_rejects_small_image_witness :
  retro_image_converter corner_box (fun _ _ _ _ _ => 255)
    (fun _ p _ => p) (fun img _ => pix img)
    (solid 9 40 (10, 20, 30)) "vertical" false true true = None.
Proof.
  apply pipeline_rejects_small_image; simpl; lia.
Defined.

(** ** The output path *)

(** [rfind] returns -1 when the character is absent, and otherwise the
    index of an occurrence after which there is no other. *)
Lemma rfind_from_cases (c : ascii) (s : list ascii) (i last : Z) :
  (rfind_from c s i last = last /\ ~ In c s) \/
  (exists k,
     rfind_from c s i last = i + Z.of_nat k /\
     nth_error s k = Some c /\ ~ In c (skipn (S k) s)).
Proof.
  revert i last; induction s as [|a t IH]; intros i last; cbn [rfind_from].
  - left; split; [reflexivity | intros []].
  - destruct (IH (i + 1) (if Ascii.eqb a c then i else last))
      as [[E Hn] | (k & E & Hk & Hn)].
    + destruct (Ascii.eqb_spec a c) as [-> | Hac].
      * right; exists 0%nat; rewrite E; split; [lia|]; split; [reflexivity|].
        exact Hn.
      * left; split; [exact E|]; intros [H | H]; [congruence | contradiction].
    + right; exists (S k); rewrite E; split; [lia|]; split; assumption.
Qed.

Lemma rfind_cases (c : ascii) (s : list ascii) :
  (rfind c s = -1 /\ ~ In c s) \/
  (exists k,
     rfind c s = Z.of_nat k /\
     nth_error s k = Some c /\ ~ In c (skipn (S k) s)).
Proof.
  unfold rfind; destruct (rfind_from_cases c s 0 (-1)) as [H | (k & E & H)];
    [left; exact H | right; exists k; rewrite E; split; [lia | exact H]].
Qed.

Lemma splitext_concat (p : list ascii) :
  (fst (splitext p) ++ snd (splitext p))%list = p.
Proof.
  unfold splitext; destruct (_ && _); cbn [fst snd];
    [apply firstn_skipn | apply app_nil_r].
Qed.

(** X20.  The output path is six characters longer than the input path,
    so it is never the input path: the input file is not overwritten. *)
Theorem output_path_differs (p : list ascii) :
  List.length (output_path p) = (List.length p + 6)%nat /\
  output_path p <> p.
Proof.
  pose proof (splitext_concat p) as Hc.
  assert (Hl : List.length (output_path p) = (List.length p + 6)%nat).
  { unfold output_path; destruct (splitext p) as [base ext].
    cbn [fst snd] in Hc; subst p; rewrite !length_app.
    cbn [List.length list_ascii_of_string]; lia. }
  split; [exact Hl|].
  intros E; rewrite E in Hl; lia.
Qed.

(** [rfind] finds the last occurrence. *)
Lemma rfind_last (c : ascii) (s : list ascii) (n : nat) :
  nth_error s n = Some c -> ~ In c (skipn (S n) s) ->
  rfind c s = Z.of_nat n.
Proof.
  intros Hn Hafter.
  destruct (rfind_cases c s) as [[_ Hno] | (k & -> & Hk & Hk')].
  - exfalso; apply Hno; exact (nth_error_In s n Hn).
  - destruct (Nat.lt_trichotomy k n) as [Hlt | [-> | Hgt]]; [|reflexivity|];
      exfalso.
    + apply Hk'; apply (nth_error_In _ (n - S k)).
      rewrite nth_error_skipn; replace (S k + (n - S k))%nat with n by lia.
      exact Hn.
    + apply Hafter; apply (nth_error_In _ (k - S n)).
      rewrite nth_error_skipn; replace (S n + (k - S n))%nat with k by lia.
      exact Hk.
Qed.

Lemma rfind_absent (c : ascii) (s : list ascii) :
  ~ In c s -> rfind c s = -1.
Proof.
  intros Hno.
  destruct (rfind_cases c s) as [[E _] | (k & _ & Hk & _)]; [exact E|].
  exfalso; apply Hno; exact (nth_error_In s k Hk).
Qed.

(** An occurrence-free tail bounds [rfind] from above. *)
Lemma rfind_before (c : ascii) (s t : list ascii) :
  ~ In c t -> rfind c (s ++ t) < Z.of_nat (List.length s).
Proof.
  intros Hno.
  destruct (rfind_cases c (s ++ t)) as [[-> _] | (k & -> & Hk & _)]; [lia|].
  destruct (Nat.lt_ge_cases k (List.length s)) as [Hlt | Hge]; [lia|].
  exfalso; apply Hno.
  rewrite nth_error_app2 in Hk by exact Hge.
  exact (nth_error_In _ _ Hk).
Qed.

Lemma rfind_lower (c : ascii) (s : list ascii) : -1 <= rfind c s.
Proof.
  destruct (rfind_cases c s) as [[-> _] | (k & -> & _)]; lia.
Qed.

(** X21.  A path whose last component has an extension keeps it behind
    the suffix: when a character [c] that is neither a dot nor a slash is
    followed, inside the last component, by a dot and an extension
    without dot or slash, ["_retro"] is inserted just in front of that
    dot. *)
Theorem output_path_keeps_extension (stem name ext : list ascii) (c : ascii) :
  c <> "."%char -> c <> "/"%char ->
  ~ In "/"%char name -> ~ In "."%char ext -> ~ In "/"%char ext ->
  output_path (stem ++ c :: name ++ "."%char :: ext) =
  (stem ++ c :: name ++ list_ascii_of_string "_retro" ++ "."%char :: ext)%list.
Proof.
  intros Hdot Hsep Hname Hext Hext'.
  set (base := (stem ++ c :: name)%list).
  assert (Ep : (stem ++ c :: name ++ "."%char :: ext)%list
               = (base ++ "."%char :: ext)%list)
    by (unfold base; rewrite <- app_assoc; reflexivity).
  assert (Ed : rfind "." (base ++ "."%char :: ext)
               = Z.of_nat (List.length base)).
  { apply rfind_last.
    - rewrite nth_error_app2, Nat.sub_diag by lia; reflexivity.
    - change (S (List.length base)) with (1 + List.length base)%nat.
      rewrite <- skipn_skipn, skipn_app, skipn_all, Nat.sub_diag.
      exact Hext. }
  assert (Es : rfind "/" (base ++ "."%char :: ext)
               < Z.of_nat (List.length stem)).
  { unfold base; rewrite <- app_assoc.
    apply rfind_before.
    intros [H | H]; [congruence|].
    apply in_app_or in H; destruct H as [H | [H | H]];
      [contradiction | discriminate | contradiction]. }
  pose proof (rfind_lower "/" (base ++ "."%char :: ext)) as Hlow.
  assert (Lb : List.length base = (List.length stem + S (List.length name))%nat)
    by (unfold base; rewrite length_app; reflexivity).
  unfold output_path, splitext; rewrite Ep, Ed.
  set (sep := rfind "/" (base ++ "."%char :: ext)) in *.
  destruct (Z.ltb_spec sep (Z.of_nat (List.length base))) as [_ | Hge];
    [|lia].
  assert (Hex : existsb (fun a => negb (Ascii.eqb a "."))
                  (slice (base ++ "."%char :: ext) (sep + 1)
                     (Z.of_nat (List.length base))) = true).
  { apply existsb_exists; exists c; split.
    - unfold slice.
      apply (nth_error_In _ (List.length stem - Z.to_nat (sep + 1))).
      rewrite nth_error_firstn.
      destruct (Nat.ltb_spec (List.length stem - Z.to_nat (sep + 1))
                  (Z.to_nat (Z.of_nat (List.length base) - (sep + 1))));
        [|lia].
      rewrite nth_error_skipn.
      replace (Z.to_nat (sep + 1) + (List.length stem - Z.to_nat (sep + 1)))%nat
        with (List.length stem) by lia.
      rewrite nth_error_app1 by lia.
      unfold base; rewrite nth_error_app2, Nat.sub_diag by lia; reflexivity.
    - apply negb_true_iff, Ascii.eqb_neq; exact Hdot. }
  rewrite Hex; cbn [andb].
  rewrite Nat2Z.id, firstn_app, firstn_all, Nat.sub_diag.
  rewrite skipn_app, skipn_all, Nat.sub_diag.
  cbn [firstn skipn app]; rewrite app_nil_r.
  unfold base; rewrite <- !app_assoc; reflexivity.
Qed.

Lemma output_path_keeps_extension_witness :
  output_path (list_ascii_of_string "out/" ++ "p"%char ::
               list_ascii_of_string "hoto.small" ++ "."%char ::
               list_ascii_of_string "jpg") =
  (list_ascii_of_string "out/" ++ "p"%char ::
   list_ascii_of_string "hoto.small" ++ list_ascii_of_string "_retro" ++
   "."%char :: list_ascii_of_string "jpg")%list.
Proof.
  apply output_path_keeps_extension;
    [discriminate | discriminate | | |];
    cbn [list_ascii_of_string In]; intros H;
    repeat (destruct H as [H | H]; [discriminate|]); exact H.
Defined.

Lemma slice_inside_dots (dir dots rest : list ascii) (n : nat) :
  (forall a, In a dots -> a = "."%char) ->
  (n <= List.length dots)%nat ->
  existsb (fun a => negb (Ascii.eqb a "."))
    (slice (dir ++ dots ++ rest) (Z.of_nat (List.length dir))
       (Z.of_nat (List.length dir + n))) = false.
Proof.
  intros Hdots Hn; unfold slice.
  rewrite Nat2Z.id, skipn_app, skipn_all, Nat.sub_diag.
  cbn [skipn app].
  replace (Z.to_nat (Z.of_nat (List.length dir + n) - Z.of_nat (List.length dir)))
    with n by lia.
  rewrite firstn_app.
  replace (n - List.length dots)%nat with 0%nat by lia.
  cbn [firstn]; rewrite app_nil_r.
  destruct (existsb _ _) eqn:E; [|reflexivity].
  apply existsb_exists in E; destruct E as (a & Ha & Hna).
  pose proof (firstn_skipn n dots) as Hsplit.
  assert (Hin : In a dots)
    by (rewrite <- Hsplit; apply in_or_app; left; exact Ha).
  rewrite (Hdots a Hin) in Hna; discriminate.
Qed.

(** X22.  A path whose last component has no extension gets the suffix at
    its end: when the last component is a run of dots followed by a name
    without dot (a plain name, a dot file, an empty name), the output
    path is the input path followed by ["_retro"]. *)
Theorem output_path_without_extension (dir dots name : list ascii) :
  dir = [] \/ (exists d, dir = (d ++ ["/"%char])%list) ->
  (forall a, In a dots -> a = "."%char) ->
  ~ In "."%char name -> ~ In "/"%char name ->
  output_path (dir ++ dots ++ name) =
  (dir ++ dots ++ name ++ list_ascii_of_string "_retro")%list.
Proof.
  intros Hdir Hdots Hname Hname'.
  set (p := (dir ++ dots ++ name)%list).
  assert (Htail : ~ In "/"%char (dots ++ name)).
  { intros H; apply in_app_or in H; destruct H as [H | H];
      [apply Hdots in H; discriminate | contradiction]. }
  assert (Es : rfind "/" p + 1 = Z.of_nat (List.length dir)).
  { destruct Hdir as [-> | [d ->]].
    - unfold p; cbn [app List.length]; rewrite rfind_absent by exact Htail.
      reflexivity.
    - unfold p; rewrite (rfind_last "/" _ (List.length d)).
      + rewrite length_app; cbn [List.length]; lia.
      + rewrite <- !app_assoc, nth_error_app2, Nat.sub_diag by lia.
        reflexivity.
      + change (S (List.length d)) with (1 + List.length d)%nat.
        rewrite <- !app_assoc, <- skipn_skipn, skipn_app, skipn_all, Nat.sub_diag.
        exact Htail. }
  assert (Hno : (rfind "/" p <? rfind "." p)
                && existsb (fun a => negb (Ascii.eqb a "."))
                     (slice p (rfind "/" p + 1) (rfind "." p)) = false).
  { destruct (Z.ltb_spec (rfind "/" p) (rfind "." p)) as [Hlt | Hge];
      [|reflexivity].
    cbn [andb]; rewrite Es.
    destruct (rfind_cases "." p) as [[Ed _] | (k & Ed & Hk & Hafter)].
    - pose proof (rfind_lower "/" p); lia.
    - rewrite Ed in *.
      assert (Hk1 : (List.length dir <= k)%nat) by lia.
      assert (Hk2 : (k < List.length dir + List.length dots)%nat).
      { destruct (Nat.lt_ge_cases k (List.length dir + List.length dots))
          as [H | H]; [exact H|].
        exfalso; apply Hname.
        unfold p in Hk; rewrite app_assoc in Hk.
        rewrite nth_error_app2 in Hk by (rewrite length_app; exact H).
        exact (nth_error_In _ _ Hk). }
      replace k with (List.length dir + (k - List.length dir))%nat by lia.
      apply slice_inside_dots; [exact Hdots | lia]. }
  unfold output_path, splitext; fold p; rewrite Hno.
  unfold p; rewrite <- !app_assoc; reflexivity.
Qed.

Lemma output_path_without_extension_witness :
  output_path (list_ascii_of_string "my.dir/" ++ list_ascii_of_string "." ++
               list_ascii_of_string "profile") =
  (list_ascii_of_string "my.dir/" ++ list_ascii_of_string "." ++
   list_ascii_of_string "profile" ++ list_ascii_of_string "_retro")%list.
Proof.
  apply output_path_without_extension.
  - right; exists (list_ascii_of_string "my.dir"); reflexivity.
  - cbn [list_ascii_of_string In]; intros a [H | H];
      [symmetry; exact H | contradiction].
  - cbn [list_ascii_of_string In]; intros H;
      repeat (destruct H as [H | H]; [discriminate|]); exact H.
  - cbn [list_ascii_of_string In]; intros H;
      repeat (destruct H as [H | H]; [discriminate|]); exact H.
Defined.

(** ** The radial warp, channels that are zero *)

Lemma mul_zero_or_nan (f : float) : zero_or_nan (mul f (of_int 0)).
Proof. destruct f as [[|]|[|]| |[|] m e]; exact I. Qed.

Lemma add_zero_or_nan (f g : float) :
  zero_or_nan f -> zero_or_nan g -> zero_or_nan (add f g).
Proof.
  destruct f as [[|]|[|]| |[|] m e]; simpl; try contradiction;
    destruct g as [[|]|[|]| |[|] m' e']; simpl; try contradiction; auto.
Qed.

Lemma trunc_zero_or_nan (f : float) (t : Z) :
  zero_or_nan f -> trunc f = Some t -> t = 0.
Proof.
  destruct f as [[|]|[|]| |[|] m e]; simpl; try contradiction;
    intros _ H; try discriminate; injection H as <-; reflexivity.
Qed.

(** Interpolating four zeros gives zero, whatever the weights. *)
Lemma bilinear_zeros (a b : float) (r : Z) :
  bilinear a b 0 0 0 0 = Some r -> r = 0.
Proof.
  unfold bilinear; apply trunc_zero_or_nan.
  repeat apply add_zero_or_nan; apply mul_zero_or_nan.
Qed.

(** X23.  The warp adds no light to a channel: when a channel is zero in
    every pixel of the input, it is zero in every pixel of the image the
    warp returns, for every strength. *)
Theorem warp_keeps_zero_channel (img : image) (strength : float)
    (out : image) (i : Z) :
  (forall x y, 0 <= x < width img -> 0 <= y < height img ->
     channel i (pix img x y) = 0) ->
  apply_crt_warp_effect img strength = Some out ->
  forall x y, 0 <= x < width out -> 0 <= y < height out ->
    channel i (pix out x y) = 0.
Proof.
  intros Hzero E x y Hx Hy.
  destruct (warp_size img strength out E) as [Ew Eh].
  rewrite Ew in Hx; rewrite Eh in Hy.
  destruct (warp_output_from_own_iteration img strength out x y E Hx Hy)
    as (c & c' & Hc & Ep & Hout).
  destruct (warp_pixel_cases img strength c c' x y Ep (proj1 Hx) (proj1 Hy))
    as (x0 & y0 & _ & _ & Hcase).
  cbv zeta in Hcase; rewrite Hout.
  destruct (inside (width img) (height img) x0 y0) eqn:Hin.
  - destruct (proj1 (inside_true _ _ _ _) Hin) as [Bx By].
    pose proof (clamp_next_bounds x0 (width img) Bx) as Bx1.
    pose proof (clamp_next_bounds y0 (height img) By) as By1.
    destruct Hcase as (r & g & b' & Er & Eg & Eb & ->).
    pose proof (Hzero x0 y0 Bx By) as Z00.
    pose proof (Hzero _ y0 Bx1 By) as Z10.
    pose proof (Hzero x0 _ Bx By1) as Z01.
    pose proof (Hzero _ _ Bx1 By1) as Z11.
    unfold channel in *.
    destruct (i =? 0); [|destruct (i =? 1)]; cbn [red green blue fst snd].
    + rewrite Z00, Z10, Z01, Z11 in Er.
      rewrite (bilinear_zeros _ _ _ Er); reflexivity.
    + rewrite Z00, Z10, Z01, Z11 in Eg.
      rewrite (bilinear_zeros _ _ _ Eg); reflexivity.
    + rewrite Z00, Z10, Z01, Z11 in Eb.
      rewrite (bilinear_zeros _ _ _ Eb); reflexivity.
  - rewrite Hcase, Hc.
    unfold channel; destruct (i =? 0); [|destruct (i =? 1)]; reflexivity.
Qed.

Lemma warp_keeps_zero_channel_witness :
  exists out,
    apply_crt_warp_effect (solid 4 5 (0, 100, 200)) (ratio 1 10) = Some out /\
    channel 0 (pix out 2 3) = 0.
Proof.
  destruct (apply_crt_warp_effect (solid 4 5 (0, 100, 200)) (ratio 1 10))
    as [out|] eqn:E; [|vm_compute in E; discriminate].
  exists out; split; [reflexivity|].
  destruct (warp_size _ _ _ E) as [Ew Eh].
  apply (warp_keeps_zero_channel (solid 4 5 (0, 100, 200)) (ratio 1 10) out 0);
    [reflexivity | exact E | rewrite Ew; simpl; lia | rewrite Eh; simpl; lia].
Defined.
